(** * Threshold secret sharing over GF(256): a model of [tss.go]

    The development follows the Go package [tss]: the log/antilog tables and
    the field operations [add], [mul], [div]; the Lagrange functions [poly]
    and [interpolate]; the polynomial evaluation [eval]; the share generator
    [CreateShares]; and the recoverer [RecoverSecret].

    Modelling choices.
    - A Go [byte] is a [Byte.byte]; a Go [int] is a [Z]; a [[]byte] read by
      value is a [list byte]; loop counters that range over [0..len) are [nat].
    - A function that can stop with an error value or a run-time panic returns
      an [outcome]; every slice access written [x[i]] in the source is a
      checked [load]/[store] that panics out of range.
    - [RecoverSecret] writes to slices, so it runs on a heap of byte arrays in
      a state-and-error monad; [make] allocates a fresh array.
    - [crypto/rand.Read] is an explicit entropy source handed to
      [CreateShares]. *)

From Stdlib Require Import ZArith NArith Arith Lia List Bool.
From Stdlib Require Import Init.Byte Strings.Byte.
From Stdlib Require Import Ring Field.
From Stdlib Require Import Permutation.
Import ListNotations.

Set Implicit Arguments.

(** ** Bytes *)

(** Go's conversion [(byte)(n)] of a non-negative int keeps the low 8 bits. *)
Definition byte_of_nat (n : nat) : byte :=
  match Byte.of_nat (n mod 256) with
  | Some b => b
  | None => x00
  end.

Definition byte_of_N (n : N) : byte :=
  match Byte.of_N (n mod 256) with
  | Some b => b
  | None => x00
  end.

Definition is_zero (x : byte) : bool := Byte.eqb x x00.

(** ** Constants of the package *)

Module Const.
Definition MinSecretBytes : Z := 32.
Definition MaxSecretBytes : Z := 65534.
Definition MaxShareBytes : Z := MaxSecretBytes + 1.
Definition MinShareBytes : Z := MinSecretBytes + 1.
Definition MinShares : Z := 2.
Definition MaxShares : Z := 255.
End Const.
Import Const.

Inductive error : Type :=
| ErrTooFewShares
| ErrSecretRequired
| ErrSecretTooShort
| ErrSecretTooLarge
| ErrTooManyShares
| ErrInvalidThreshold
| ErrInvalidShare
| ErrEntropy.  (* the error value handed back by rand.Read *)

(** ** The tables [expOp] and [logOp] *)

Definition expOp : list byte :=
  [
   x01; x03; x05; x0f; x11; x33; x55; xff; x1a; x2e; x72; x96; xa1; xf8; x13; x35;
   x5f; xe1; x38; x48; xd8; x73; x95; xa4; xf7; x02; x06; x0a; x1e; x22; x66; xaa;
   xe5; x34; x5c; xe4; x37; x59; xeb; x26; x6a; xbe; xd9; x70; x90; xab; xe6; x31;
   x53; xf5; x04; x0c; x14; x3c; x44; xcc; x4f; xd1; x68; xb8; xd3; x6e; xb2; xcd;
   x4c; xd4; x67; xa9; xe0; x3b; x4d; xd7; x62; xa6; xf1; x08; x18; x28; x78; x88;
   x83; x9e; xb9; xd0; x6b; xbd; xdc; x7f; x81; x98; xb3; xce; x49; xdb; x76; x9a;
   xb5; xc4; x57; xf9; x10; x30; x50; xf0; x0b; x1d; x27; x69; xbb; xd6; x61; xa3;
   xfe; x19; x2b; x7d; x87; x92; xad; xec; x2f; x71; x93; xae; xe9; x20; x60; xa0;
   xfb; x16; x3a; x4e; xd2; x6d; xb7; xc2; x5d; xe7; x32; x56; xfa; x15; x3f; x41;
   xc3; x5e; xe2; x3d; x47; xc9; x40; xc0; x5b; xed; x2c; x74; x9c; xbf; xda; x75;
   x9f; xba; xd5; x64; xac; xef; x2a; x7e; x82; x9d; xbc; xdf; x7a; x8e; x89; x80;
   x9b; xb6; xc1; x58; xe8; x23; x65; xaf; xea; x25; x6f; xb1; xc8; x43; xc5; x54;
   xfc; x1f; x21; x63; xa5; xf4; x07; x09; x1b; x2d; x77; x99; xb0; xcb; x46; xca;
   x45; xcf; x4a; xde; x79; x8b; x86; x91; xa8; xe3; x3e; x42; xc6; x51; xf3; x0e;
   x12; x36; x5a; xee; x29; x7b; x8d; x8c; x8f; x8a; x85; x94; xa7; xf2; x0d; x17;
   x39; x4b; xdd; x7c; x84; x97; xa2; xfd; x1c; x24; x6c; xb4; xc7; x52; xf6; x01;
   x03; x05; x0f; x11; x33; x55; xff; x1a; x2e; x72; x96; xa1; xf8; x13; x35; x5f;
   xe1; x38; x48; xd8; x73; x95; xa4; xf7; x02; x06; x0a; x1e; x22; x66; xaa; xe5;
   x34; x5c; xe4; x37; x59; xeb; x26; x6a; xbe; xd9; x70; x90; xab; xe6; x31; x53;
   xf5; x04; x0c; x14; x3c; x44; xcc; x4f; xd1; x68; xb8; xd3; x6e; xb2; xcd; x4c;
   xd4; x67; xa9; xe0; x3b; x4d; xd7; x62; xa6; xf1; x08; x18; x28; x78; x88; x83;
   x9e; xb9; xd0; x6b; xbd; xdc; x7f; x81; x98; xb3; xce; x49; xdb; x76; x9a; xb5;
   xc4; x57; xf9; x10; x30; x50; xf0; x0b; x1d; x27; x69; xbb; xd6; x61; xa3; xfe;
   x19; x2b; x7d; x87; x92; xad; xec; x2f; x71; x93; xae; xe9; x20; x60; xa0; xfb;
   x16; x3a; x4e; xd2; x6d; xb7; xc2; x5d; xe7; x32; x56; xfa; x15; x3f; x41; xc3;
   x5e; xe2; x3d; x47; xc9; x40; xc0; x5b; xed; x2c; x74; x9c; xbf; xda; x75; x9f;
   xba; xd5; x64; xac; xef; x2a; x7e; x82; x9d; xbc; xdf; x7a; x8e; x89; x80; x9b;
   xb6; xc1; x58; xe8; x23; x65; xaf; xea; x25; x6f; xb1; xc8; x43; xc5; x54; xfc;
   x1f; x21; x63; xa5; xf4; x07; x09; x1b; x2d; x77; x99; xb0; xcb; x46; xca; x45;
   xcf; x4a; xde; x79; x8b; x86; x91; xa8; xe3; x3e; x42; xc6; x51; xf3; x0e; x12;
   x36; x5a; xee; x29; x7b; x8d; x8c; x8f; x8a; x85; x94; xa7; xf2; x0d; x17; x39;
   x4b; xdd; x7c; x84; x97; xa2; xfd; x1c; x24; x6c; xb4; xc7; x52; xf6
  ].

Definition logOp : list Z :=
  [
   0; 0; 25; 1; 50; 2; 26; 198;
   75; 199; 27; 104; 51; 238; 223; 3;
   100; 4; 224; 14; 52; 141; 129; 239;
   76; 113; 8; 200; 248; 105; 28; 193;
   125; 194; 29; 181; 249; 185; 39; 106;
   77; 228; 166; 114; 154; 201; 9; 120;
   101; 47; 138; 5; 33; 15; 225; 36;
   18; 240; 130; 69; 53; 147; 218; 142;
   150; 143; 219; 189; 54; 208; 206; 148;
   19; 92; 210; 241; 64; 70; 131; 56;
   102; 221; 253; 48; 191; 6; 139; 98;
   179; 37; 226; 152; 34; 136; 145; 16;
   126; 110; 72; 195; 163; 182; 30; 66;
   58; 107; 40; 84; 250; 133; 61; 186;
   43; 121; 10; 21; 155; 159; 94; 202;
   78; 212; 172; 229; 243; 115; 167; 87;
   175; 88; 168; 80; 244; 234; 214; 116;
   79; 174; 233; 213; 231; 230; 173; 232;
   44; 215; 117; 122; 235; 22; 11; 245;
   89; 203; 95; 176; 156; 169; 81; 160;
   127; 12; 246; 111; 23; 196; 73; 236;
   216; 67; 31; 45; 164; 118; 123; 183;
   204; 187; 62; 90; 251; 96; 177; 134;
   59; 82; 161; 108; 170; 85; 41; 157;
   151; 178; 135; 144; 97; 190; 220; 252;
   188; 149; 207; 205; 55; 63; 91; 209;
   83; 57; 132; 60; 65; 162; 109; 71;
   20; 42; 158; 93; 86; 242; 211; 171;
   68; 17; 146; 217; 35; 32; 46; 137;
   180; 124; 184; 38; 119; 153; 227; 165;
   103; 74; 237; 222; 197; 49; 254; 24;
   13; 99; 140; 128; 192; 247; 112; 7
  ]%Z.

(** [logOp[x]] for a byte [x]: the table has 256 entries, so the access is
    always in range. *)
Definition logAt (x : byte) : Z := nth (Byte.to_nat x) logOp 0%Z.

(** [expOp[i]] for an int [i].  Go panics on an index outside the table; the
    indices that [mul] and [div] compute are proved to lie inside it, so the
    default of [nth] is never returned. *)
Definition expAt (i : Z) : byte := nth (Z.to_nat i) expOp x00.

(** ** Field operations *)

Definition add (a b : byte) : byte :=
  byte_of_N (N.lxor (Byte.to_N a) (Byte.to_N b)).

Definition mul_index (x y : byte) : Z := logAt x + logAt y.

Definition mul (x y : byte) : byte :=
  if is_zero x || is_zero y then x00
  else expAt (mul_index x y).

Definition div_index (x y : byte) : Z := 255 + logAt x - logAt y.

Definition div (x y : byte) : byte :=
  if is_zero x || is_zero y then x00
  else expAt (div_index x y).

(** ** Outcomes of a call: a value, a returned error, or a run-time panic *)

Inductive panic : Type :=
| IndexOutOfRange
| MakeSliceLen.

Inductive outcome (A : Type) : Type :=
| Ok (a : A)
| Fail (e : error)
| Panic (p : panic).

Arguments Ok {A} a.
Arguments Fail {A} e.
Arguments Panic {A} p.

Definition bind {A B : Type} (m : outcome A) (k : A -> outcome B) : outcome B :=
  match m with
  | Ok a => k a
  | Fail e => Fail e
  | Panic p => Panic p
  end.

Notation "x <- m ;; k" := (bind m (fun x => k))
  (at level 61, m at next level, right associativity).
Notation "' pat <- m ;; k" := (bind m (fun x => match x with pat => k end))
  (at level 61, pat pattern, m at next level, right associativity).

(** [l[i]] and [l[i] = x] on a slice held by value. *)
Definition load {A : Type} (l : list A) (i : nat) : outcome A :=
  match nth_error l i with
  | Some x => Ok x
  | None => Panic IndexOutOfRange
  end.

Fixpoint set_nth {A : Type} (l : list A) (i : nat) (x : A) : list A :=
  match l, i with
  | [], _ => []
  | _ :: t, O => x :: t
  | y :: t, S i' => y :: set_nth t i' x
  end.

Definition store {A : Type} (l : list A) (i : nat) (x : A) : outcome (list A) :=
  if (i <? length l)%nat then Ok (set_nth l i x) else Panic IndexOutOfRange.

(** [make([]T, n)] for an int [n]: a negative length panics. *)
Definition make {A : Type} (zero : A) (n : Z) : outcome (list A) :=
  if (n <? 0)%Z then Panic MakeSliceLen else Ok (repeat zero (Z.to_nat n)).

(** [for i := lo; i < lo+n; i++ { s = body i s }], stopping at the first
    error or panic. *)
Fixpoint for_loop {St : Type} (lo n : nat) (body : nat -> St -> outcome St)
         (s : St) : outcome St :=
  match n with
  | O => Ok s
  | S n' => s' <- body lo s ;; for_loop (S lo) n' body s'
  end.

(** ** Lagrange functions and polynomial evaluation *)

(** [poly(i, u)]: the i-th Lagrange function evaluated at zero. *)
Definition poly (i : nat) (u : list byte) : outcome byte :=
  for_loop 0 (length u)
    (fun j r =>
       if (j =? i)%nat then Ok r
       else
         uj <- load u j ;;
         ui <- load u i ;;
         Ok (mul r (div uj (add uj ui))))
    x01.

(** [interpolate(u, v)]; it does not check that [v] is as long as [u]. *)
Definition interpolate (u v : list byte) : outcome byte :=
  for_loop 0 (length u)
    (fun i r =>
       p <- poly i u ;;
       vi <- load v i ;;
       Ok (add r (mul p vi)))
    x00.

(** [eval(x, a)]: the loop runs over [a] itself, carrying [r] and [xi]. *)
Definition eval_step (x : byte) (st : byte * byte) (ai : byte) : byte * byte :=
  let (r, xi) := st in (add r (mul ai xi), mul xi x).

Definition eval (x : byte) (a : list byte) : byte :=
  fst (fold_left (eval_step x) a (x00, x01)).

(** ** Share generation *)

Definition Share : Type := list byte.
Definition ShareSet : Type := list Share.

(** The entropy source: the [k]-th call of [rand.Read] during one
    [CreateShares] either fails or yields the byte for every position of the
    buffer it is asked to fill. *)
Definition entropy : Type := nat -> option (nat -> byte).

(** [rand.Read(a)].  A read into an empty buffer asks the source for
    nothing and returns without error. *)
Definition rand_Read (src : entropy) (k : nat) (a : list byte)
  : outcome (list byte) :=
  if (length a =? 0)%nat then Ok a else
  match src k with
  | None => Fail ErrEntropy
  | Some f => Ok (map f (seq 0 (length a)))
  end.

(** [CreateShares(secret, sharesCount, threshold)].  The deferred [erase(a)]
    overwrites the local buffer [a] only, after the result is fixed, so it
    does not show in the returned pair. *)
Definition CreateShares (src : entropy) (secret : list byte)
           (sharesCount threshold : Z) : outcome ShareSet :=
  if (length secret =? 0)%nat then Fail ErrSecretRequired else
  let secretSize := Z.of_nat (length secret) in
  if (secretSize <? MinSecretBytes)%Z then Fail ErrSecretTooShort else
  if (secretSize >? MaxSecretBytes)%Z then Fail ErrSecretTooLarge else
  if (sharesCount <? MinShares)%Z then Fail ErrTooFewShares else
  if (sharesCount >? MaxShares)%Z then Fail ErrTooManyShares else
  if (threshold >? sharesCount)%Z then Fail ErrInvalidThreshold else
  shares <- make (@nil byte) sharesCount ;;
  shares <- for_loop 0 (Z.to_nat sharesCount)
              (fun i shares =>
                 row <- make x00 (secretSize + 1) ;;
                 row <- store row 0 (byte_of_nat (i + 1)) ;;
                 store shares i row)
              shares ;;
  a <- make x00 threshold ;;
  ' (_, shares) <-
    for_loop 0 (length secret)
      (fun i st =>
         let '(a, shares) := st in
         a <- rand_Read src i a ;;
         si <- load secret i ;;
         a <- store a 0 si ;;
         shares <- for_loop 0 (Z.to_nat sharesCount)
                     (fun j shares =>
                        sj <- load shares j ;;
                        x <- load sj 0 ;;
                        sj' <- store sj (i + 1) (eval x a) ;;
                        store shares j sj')
                     shares ;;
         Ok (a, shares))
      (a, shares) ;;
  Ok shares.

(** ** The heap of byte arrays *)

Definition ref : Type := nat.
Definition heap : Type := list (list byte).

Definition cell (h : heap) (r : ref) : list byte := nth r h [].

(** Computations that read and write the heap; the heap is kept on every
    outcome. *)
Definition M (A : Type) : Type := heap -> outcome A * heap.

Definition ret {A : Type} (a : A) : M A := fun h => (Ok a, h).

Definition lift {A : Type} (o : outcome A) : M A := fun h => (o, h).

Definition bindM {A B : Type} (m : M A) (k : A -> M B) : M B :=
  fun h =>
    match m h with
    | (Ok a, h') => k a h'
    | (Fail e, h') => (Fail e, h')
    | (Panic p, h') => (Panic p, h')
    end.

Notation "x <~ m ;; k" := (bindM m (fun x => k))
  (at level 61, m at next level, right associativity).

(** [make([]byte, n)]: a fresh zeroed array at the next free address. *)
Definition make_bytes (n : Z) : M ref :=
  fun h =>
    if (n <? 0)%Z then (Panic MakeSliceLen, h)
    else (Ok (length h), h ++ [repeat x00 (Z.to_nat n)]).

Definition len (r : ref) : M Z :=
  fun h => (Ok (Z.of_nat (length (cell h r))), h).

Definition rd (r : ref) (i : nat) : M byte :=
  fun h => (load (cell h r) i, h).

Definition wr (r : ref) (i : nat) (b : byte) : M unit :=
  fun h =>
    match store (cell h r) i b with
    | Ok c => (Ok tt, set_nth h r c)
    | Fail e => (Fail e, h)
    | Panic p => (Panic p, h)
    end.

Definition contents (r : ref) : M (list byte) :=
  fun h => (Ok (cell h r), h).

Fixpoint for_heap (lo n : nat) (body : nat -> M unit) : M unit :=
  match n with
  | O => ret tt
  | S n' => _ <~ body lo ;; for_heap (S lo) n' body
  end.

(** [erase(a)]: every byte of [a] becomes [0xff]. *)
Definition erase (a : ref) : M unit :=
  fun h => for_heap 0 (length (cell h a)) (fun i => wr a i xff) h.

(** [defer cleanup] followed by [body]: the cleanup runs when [body] is left,
    whatever its outcome. *)
Definition defer {A : Type} (cleanup : M unit) (body : M A) : M A :=
  fun h =>
    let (o, h1) := body h in
    match cleanup h1 with
    | (Ok _, h2) => (o, h2)
    | (Fail e, h2) => (Fail e, h2)
    | (Panic p, h2) => (Panic p, h2)
    end.

(** ** Secret recovery *)

(** [RecoverSecret(shares)]: [shares] lists the addresses of the share arrays;
    the result is the address of the recovered secret. *)
Definition RecoverSecret (shares : list ref) : M ref :=
  let sharesCount := Z.of_nat (length shares) in
  if (sharesCount <? MinShares)%Z then lift (Fail ErrTooFewShares) else
  if (sharesCount >? MaxShares)%Z then lift (Fail ErrTooManyShares) else
  s0 <~ lift (load shares 0) ;;
  shareSize <~ len s0 ;;
  if (shareSize <? MinShareBytes)%Z then lift (Fail ErrInvalidShare) else
  if (shareSize >? MaxShareBytes)%Z then lift (Fail ErrInvalidShare) else
  _ <~ for_heap 1 (length shares - 1)
         (fun i =>
            si <~ lift (load shares i) ;;
            n <~ len si ;;
            if negb (n =? shareSize)%Z then lift (Fail ErrInvalidShare)
            else ret tt) ;;
  u <~ make_bytes sharesCount ;;
  defer (erase u)
    (_ <~ for_heap 0 (length shares)
            (fun i =>
               si <~ lift (load shares i) ;;
               x <~ rd si 0 ;;
               wr u i x) ;;
     v <~ make_bytes sharesCount ;;
     defer (erase v)
       (let secretSize := (shareSize - 1)%Z in
        secret <~ make_bytes secretSize ;;
        _ <~ for_heap 0 (Z.to_nat secretSize)
               (fun j =>
                  _ <~ for_heap 0 (length shares)
                         (fun i =>
                            si <~ lift (load shares i) ;;
                            y <~ rd si (j + 1) ;;
                            wr v i y) ;;
                  us <~ contents u ;;
                  vs <~ contents v ;;
                  r <~ lift (interpolate us vs) ;;
                  wr secret j r) ;;
        ret secret)).

(** What the caller sees: the recovered bytes or the failure. *)
Definition recover (h : heap) (shares : list ref) : outcome (list byte) :=
  match RecoverSecret shares h with
  | (Ok r, h') => Ok (cell h' r)
  | (Fail e, _) => Fail e
  | (Panic p, _) => Panic p
  end.

(** A share set given by value, laid out as the first arrays of a heap. *)
Definition RecoverSecretOf (shares : ShareSet) : outcome (list byte) :=
  recover shares (seq 0 (length shares)).

(** ** Auxiliary definitions used by the proofs *)

(** All 256 bytes, for exhaustive checks. *)
Definition all_bytes : list byte := map byte_of_nat (seq 0 256).

(** The first 255 entries of [expOp] are non-zero, [logOp] inverts them, and
    the table repeats with period 255. *)
Definition exp_entry_ok (i : nat) : bool :=
  let z := Z.of_nat i in
  negb (is_zero (expAt z)) && (logAt (expAt z) =? z)%Z
  && Byte.eqb (expAt (z + 255)) (expAt z).

(** Division is multiplication by the inverse [div 1 y]. *)
Definition inv (y : byte) : byte := div x01 y.

(** Coefficients of ring expressions live in GF(2): [x + x] is zero. *)
Definition of_bool (b : bool) : byte := if b then x01 else x00.

(** Sums and products in the field. *)
Definition xsum (l : list byte) : byte := fold_right add x00 l.
Definition xprod (l : list byte) : byte := fold_right mul x01 l.

(** One factor of a Lagrange function at zero: [c / (c + x)]. *)
Definition term (c x : byte) : byte := div c (add c x).

(** The loop of [poly] without its run-time checks. *)
Definition poly_fold (i : nat) (u : list byte) : byte :=
  fold_left
    (fun r j =>
       if (j =? i)%nat then r
       else mul r (term (nth j u x00) (nth i u x00)))
    (seq 0 (length u)) x01.

(** The loop of [interpolate] without its run-time checks. *)
Definition interp_fold (u v : list byte) : byte :=
  fold_left
    (fun r i => add r (mul (poly_fold i u) (nth i v x00)))
    (seq 0 (length u)) x00.

(** Interpolation at zero of the points [(x, F x)] for [x] in [us]. *)
Definition lag (us : list byte) (F : byte -> byte) : byte :=
  xsum (map (fun i => mul (poly_fold i us) (F (nth i us x00)))
            (seq 0 (length us))).

(** The product of [x / (x + c)] over [x] in [us]. *)
Definition weight (c : byte) (us : list byte) : byte :=
  xprod (map (fun x => term x c) us).

(** The six input checks of [CreateShares], first failure first. *)
Definition validate (secretLen : nat) (sharesCount threshold : Z)
  : option error :=
  if (secretLen =? 0)%nat then Some ErrSecretRequired else
  if (Z.of_nat secretLen <? MinSecretBytes)%Z then Some ErrSecretTooShort else
  if (Z.of_nat secretLen >? MaxSecretBytes)%Z then Some ErrSecretTooLarge else
  if (sharesCount <? MinShares)%Z then Some ErrTooFewShares else
  if (sharesCount >? MaxShares)%Z then Some ErrTooManyShares else
  if (threshold >? sharesCount)%Z then Some ErrInvalidThreshold else
  None.

(** Whether the first [m] reads of the entropy source succeed. *)
Definition entropy_ok (src : entropy) (m : nat) : bool :=
  forallb (fun k => match src k with Some _ => true | None => false end)
          (seq 0 m).

Definition rand_bytes (src : entropy) (k : nat) : nat -> byte :=
  match src k with
  | Some f => f
  | None => fun _ => x00
  end.

(** The coefficient buffer while secret byte [k] is processed: the bytes of
    the [k]-th read with the secret byte written at position 0. *)
Definition coeffs (src : entropy) (t : nat) (secret : list byte) (k : nat)
  : list byte :=
  set_nth (map (rand_bytes src k) (seq 0 t)) 0 (nth k secret x00).

(** The share with index byte [x]. *)
Definition share_of (src : entropy) (t : nat) (secret : list byte) (x : byte)
  : Share :=
  x :: map (fun k => eval x (coeffs src t secret k)) (seq 0 (length secret)).

Definition shares_spec (src : entropy) (t : nat) (secret : list byte) (n : nat)
  : ShareSet :=
  map (fun j => share_of src t secret (byte_of_nat (j + 1))) (seq 0 n).

(** Row [j] of the share matrix after [i] secret bytes have been processed. *)
Definition row_at (src : entropy) (t : nat) (secret : list byte) (j i : nat)
  : list byte :=
  byte_of_nat (j + 1)
  :: map (fun k => eval (byte_of_nat (j + 1)) (coeffs src t secret k)) (seq 0 i)
  ++ repeat x00 (length secret - i).

(** The loop state of [CreateShares] after [i] secret bytes. *)
Definition gen_state (src : entropy) (t : nat) (secret : list byte) (n i : nat)
  : list byte * ShareSet :=
  (match i with
   | O => repeat x00 t
   | S k => coeffs src t secret k
   end,
   map (fun j => row_at src t secret j i) (seq 0 n)).

(** The checks of [RecoverSecret] on a share set given by value. *)
Definition recover_check (ss : ShareSet) : option error :=
  let n := Z.of_nat (length ss) in
  if (n <? MinShares)%Z then Some ErrTooFewShares else
  if (n >? MaxShares)%Z then Some ErrTooManyShares else
  let size := length (hd [] ss) in
  if (Z.of_nat size <? MinShareBytes)%Z then Some ErrInvalidShare else
  if (Z.of_nat size >? MaxShareBytes)%Z then Some ErrInvalidShare else
  if forallb (fun s => (length s =? size)%nat) (tl ss) then None
  else Some ErrInvalidShare.

(** Column [k] of a share set: byte [k] of every share. *)
Definition column (k : nat) (ss : ShareSet) : list byte :=
  map (fun s => nth k s x00) ss.

(** The recovered bytes for the first [j] payload offsets. *)
Definition recovered (ss : ShareSet) (j : nat) : list byte :=
  map (fun k => interp_fold (column 0 ss) (column (k + 1) ss)) (seq 0 j).

(** The bytes that [RecoverSecret] computes once its checks have passed. *)
Definition recover_spec (ss : ShareSet) : list byte :=
  recovered ss (length (hd [] ss) - 1).

(** ** Test vectors of the package *)

(** The vector of the earlier [TestKat]: a 5-byte secret and two 6-byte
    shares. *)
Definition kat_secret : list byte := [x74; x65; x73; x74; x00].
Definition kat_share1 : Share := [x01; xb9; xfa; x07; xe1; x85].
Definition kat_share2 : Share := [x02; xf5; x40; x9b; x45; x11].

(** The vector of the current [TestKat]: a 32-byte secret and two 33-byte
    shares. *)
Definition kat32_secret : list byte :=
    [xa2; x17; x52; x5a; xb5; xca; xb0; x96; xe4; x55; xac; xba; x00; xa4;
    x03; x2c; x0c; xc1; xa1; xef; x7c; xcd; x28; x06; x42; xd9; x94; xcd;
    xee; x76; x94; xca].
Definition kat32_share1 : Share :=
    [x01; x6f; xbb; x11; xa9; x26; x4b; xdf; x41; x88; xe3; x91; x18; x27;
    xea; x30; xe2; x7a; x28; x3c; xbe; xa1; x77; xd7; xc4; x21; x52; x4f;
    xb4; x48; xbb; xfe; xdc].
Definition kat32_share2 : Share :=
    [x02; x23; x54; xd4; xa7; x88; xd3; x6e; x23; x3c; x22; xd6; xe5; x4e;
    x38; x65; xab; xe0; x08; x80; x4d; xdd; xa2; xcd; x99; x84; xd4; x39;
    x3f; xb9; xf7; x40; xe6].

(** An entropy source that never fails, for concrete runs. *)
Definition sample_entropy : entropy :=
  fun k => Some (fun j => byte_of_nat (3 * k + j + 5)).

Definition sample_secret : list byte :=
  map (fun k => byte_of_nat (7 * k + 1)) (seq 0 32).

(** An entropy source whose every read fails. *)
Definition failing_entropy : entropy := fun _ => None.

(** The five checks of the generator as the specification lists them. *)
Definition spec_validate (secretLen : nat) (sharesCount threshold : Z)
  : option error :=
  if (secretLen =? 0)%nat then Some ErrSecretRequired else
  if (Z.of_nat secretLen >? 65534)%Z then Some ErrSecretTooLarge else
  if (sharesCount <? 2)%Z then Some ErrTooFewShares else
  if (sharesCount >? 255)%Z then Some ErrTooManyShares else
  if (threshold >? sharesCount)%Z then Some ErrInvalidThreshold else
  None.

(** The shares generated from [sample_secret] for 3 holders, threshold 2. *)
Definition sample_shares : ShareSet :=
  Eval vm_compute in shares_spec sample_entropy 2 sample_secret 3.

(** Two of them, out of order. *)
Definition sample_subset : ShareSet :=
  [nth 2 sample_shares []; nth 0 sample_shares []].

(** ** Further definitions: field facts *)

(** Entry [i] of [expOp] is the generator [0x03] times entry [i-1]. *)
Definition exp_step_ok (i : nat) : bool :=
  Byte.eqb (expAt (Z.of_nat i + 1)) (mul x03 (expAt (Z.of_nat i))).

(** Pointwise sum of two columns. *)
Fixpoint add_columns (v w : list byte) : list byte :=
  match v, w with
  | a :: v', b :: w' => add a b :: add_columns v' w'
  | _, _ => []
  end.

(** ** Further definitions: interpolation as a sum over point-value pairs *)

(** The sum that [interpolate] computes, by recursion on the list of
    (point, value) pairs; [k] collects the factors owed to the pairs
    already passed. *)
Fixpoint pair_sum (k : byte -> byte) (ps : list (byte * byte)) : byte :=
  match ps with
  | [] => x00
  | (c, y) :: ps' =>
      add (mul (weight c (map fst ps')) (mul (k c) y))
          (pair_sum (fun x => mul (term c x) (k x)) ps')
  end.

(** ** Further definitions: polynomials as coefficient lists *)

Fixpoint padd (a b : list byte) : list byte :=
  match a, b with
  | [], _ => b
  | _, [] => a
  | x :: a', y :: b' => add x y :: padd a' b'
  end.

Definition pscale (c : byte) (a : list byte) : list byte := map (mul c) a.

(** The product of [X + x] over [x] in [xs]. *)
Fixpoint vanish (xs : list byte) : list byte :=
  match xs with
  | [] => [x01]
  | x :: r => padd (pscale x (vanish r)) (x00 :: vanish r)
  end.

(** Newton interpolation: a polynomial with at most [length xs]
    coefficients that takes the value [F x] at every [x] of [xs]. *)
Fixpoint newton (F : byte -> byte) (xs : list byte) : list byte :=
  match xs with
  | [] => []
  | x :: r =>
      let p := newton F r in
      let v := vanish r in
      padd p (pscale (div (add (F x) (eval x p)) (eval x v)) v)
  end.

(** Coefficients padded with zeros to length [t]. *)
Definition pad (t : nat) (a : list byte) : list byte :=
  a ++ repeat x00 (t - length a).

(** The alternative coefficient buffers used to show that few shares say
    nothing about the secret: through the values that the shares with index
    bytes [xs] have at payload offset [k], and through [secret'[k]] at
    zero. *)
Definition alt_values (src : entropy) (t : nat) (secret secret' : list byte)
           (k : nat) (x : byte) : byte :=
  if Byte.eqb x x00 then nth k secret' x00
  else eval x (coeffs src t secret k).

Definition alt_coeffs (src : entropy) (t : nat) (secret secret' : list byte)
           (xs : list byte) (k : nat) : list byte :=
  pad t (newton (alt_values src t secret secret' k) (x00 :: xs)).

Definition alt_entropy (src : entropy) (t : nat) (secret secret' : list byte)
           (xs : list byte) : entropy :=
  fun k => Some (fun j => nth j (alt_coeffs src t secret secret' xs k) x00).

(** ** The test helper [subShares] *)

(** [l[i]] for an int index [i]. *)
Definition load_int {A : Type} (l : list A) (i : Z) : outcome A :=
  if (i <? 0)%Z then Panic IndexOutOfRange else load l (Z.to_nat i).

(** [l[i] = x] for an int index [i]. *)
Definition store_int {A : Type} (l : list A) (i : Z) (x : A)
  : outcome (list A) :=
  if (i <? 0)%Z then Panic IndexOutOfRange else store l (Z.to_nat i) x.

(** [subShares(shares, pickList)] of the test file: the picked shares, in
    the order of the pick list. *)
Definition subShares (shares : ShareSet) (pickList : list Z)
  : outcome ShareSet :=
  newShares <- make (@nil byte) (Z.of_nat (length pickList)) ;;
  for_loop 0 (length pickList)
    (fun i newShares =>
       pick <- load pickList i ;;
       s <- load_int shares pick ;;
       store newShares i s)
    newShares.

(** The slice [newShares] after [i] rounds of the loop of [subShares]. *)
Definition picked (shares : ShareSet) (pickList : list Z) (i : nat)
  : ShareSet :=
  map (fun p => nth (Z.to_nat p) shares []) (firstn i pickList)
  ++ repeat [] (length pickList - i).

(** ** The vendored combination enumerator [comb.NoRepLex] *)

Module Comb.

(** The struct [NoRepLex]; [s] is 0 before the first call of [Next], 1
    while combinations are produced and 2 when they are exhausted. *)
Record NoRepLex : Type := mkNoRepLex {
  c : list Z;
  k : Z;
  n : Z;
  s : Z
}.

(** [NewNoRepLex(n, k)]: [Ok None] stands for the returned error
    [k must be >= n]. *)
Definition NewNoRepLex (n k : Z) : outcome (option NoRepLex) :=
  if (k >? n)%Z then Ok None else
  let s := if (k =? 0)%Z then 2%Z else 0%Z in
  c <- make 0%Z k ;;
  c <- for_loop 0 (Z.to_nat k) (fun i c => store c i (Z.of_nat i)) c ;;
  Ok (Some (mkNoRepLex c k n s)).

(** The loop [for j := k-2; j >= 0; j--] of [Next], up to the first [j] with
    [c[j] < n-k+j]; [cnt] is [j+1]. *)
Fixpoint find_down (cnt : nat) (c : list Z) (k n : Z) : outcome (option nat) :=
  match cnt with
  | O => Ok None
  | S j =>
      cj <- load c j ;;
      if (cj <? n - k + Z.of_nat j)%Z then Ok (Some j)
      else find_down j c k n
  end.

(** [Next()]: the combination handed out, if any, and the state afterwards.
    The slice that Go returns shares its array with the enumerator; the
    value here is its content at the time of return. *)
Definition Next (nrl : NoRepLex) : outcome (option (list Z) * NoRepLex) :=
  let c := c nrl in
  let k := k nrl in
  let n := n nrl in
  if (s nrl =? 0)%Z then Ok (Some c, mkNoRepLex c k n 1) else
  if (s nrl =? 2)%Z then Ok (None, nrl) else
  last <- load_int c (k - 1)%Z ;;
  if (last <? n - 1)%Z then
    c <- store_int c (k - 1)%Z (last + 1)%Z ;;
    Ok (Some c, mkNoRepLex c k n (s nrl))
  else
    found <- find_down (Z.to_nat (k - 1)) c k n ;;
    match found with
    | Some j =>
        cj <- load c j ;;
        c <- store c j (cj + 1)%Z ;;
        c <- for_loop j (Z.to_nat (k - 1) - j)
               (fun j c =>
                  cj <- load c j ;;
                  store c (j + 1) (cj + 1)%Z)
               c ;;
        Ok (Some c, mkNoRepLex c k n (s nrl))
    | None => Ok (None, mkNoRepLex c k n 2)
    end.

(** The outputs of [m] successive calls of [Next]. *)
Fixpoint run (m : nat) (nrl : NoRepLex) : outcome (list (option (list Z))) :=
  match m with
  | O => Ok []
  | S m' =>
      r <- Next nrl ;;
      rest <- run m' (snd r) ;;
      Ok (fst r :: rest)
  end.

(** [data[i], data[j] = data[j], data[i]]. *)
Definition swap (data : list Z) (i j : nat) : outcome (list Z) :=
  a <- load data j ;;
  b <- load data i ;;
  data <- store data i a ;;
  store data j b.

(** The loop [for ; data[j] >= data[j+1]; j-- {}] of [perm]; [cnt] is
    [j+1], and at [j = -1] the index expression [data[j]] panics. *)
Fixpoint ascent_down (cnt : nat) (data : list Z) : outcome nat :=
  match cnt with
  | O => Panic IndexOutOfRange
  | S j =>
      a <- load data j ;;
      b <- load data (j + 1) ;;
      if (a >=? b)%Z then ascent_down j data else Ok j
  end.

(** The loop [for ; data[j] >= data[l]; l-- {}] of [perm]; [cnt] is
    [l+1]. *)
Fixpoint above_down (cnt : nat) (data : list Z) (j : nat) : outcome nat :=
  match cnt with
  | O => _ <- load data j ;; Panic IndexOutOfRange
  | S l =>
      a <- load data j ;;
      b <- load data l ;;
      if (a >=? b)%Z then above_down l data j else Ok l
  end.

(** The loop [for k, l := j+1, lenData; k < l; { swap; k++; l-- }] of
    [perm].  Every round brings [k] and [l] closer, so [l - k] rounds of
    fuel are never used up. *)
Fixpoint reverse_from (fuel : nat) (data : list Z) (k l : nat)
  : outcome (list Z) :=
  if (k <? l)%nat then
    match fuel with
    | O => Ok data
    | S fuel' =>
        data <- swap data k l ;;
        reverse_from fuel' data (k + 1) (l - 1)
    end
  else Ok data.

(** [perm(data)]: the returned flag and the content of [data] afterwards. *)
Definition perm (data : list Z) : outcome (bool * list Z) :=
  let lenData := (Z.of_nat (length data) - 1)%Z in
  j <- ascent_down (Z.to_nat lenData) data ;;
  if (j =? 0)%nat then Ok (false, data) else
  l <- above_down (Z.to_nat (lenData + 1)) data j ;;
  data <- swap data j l ;;
  data <- reverse_from (length data) data (j + 1) (Z.to_nat lenData) ;;
  Ok (true, data).

End Comb.

(** [v] is strictly increasing with all entries in [0, n). *)
Definition increasing (n : Z) (v : list Z) : Prop :=
  (forall i, (i < length v)%nat -> (0 <= nth i v 0 < n)%Z)
  /\ (forall i, (S i < length v)%nat -> (nth i v 0 < nth (S i) v 0)%Z).

(** [p] comes before [v] in lexicographic order (lists of one length). *)
Definition lex_lt (p v : list Z) : Prop :=
  exists j, (j < length p)%nat
            /\ (forall i, (i < j)%nat -> nth i v 0%Z = nth i p 0%Z)
            /\ (nth j p 0 < nth j v 0)%Z.

(** The enumerator states that [NewNoRepLex] and [Next] produce: exhausted,
    or holding a combination of [k >= 1] of the numbers below [n]. *)
Definition ready (nrl : Comb.NoRepLex) : Prop :=
  (0 <= Comb.k nrl)%Z
  /\ (Comb.s nrl = 2%Z
      \/ ((Comb.s nrl = 0%Z \/ Comb.s nrl = 1%Z)
          /\ (1 <= Comb.k nrl)%Z
          /\ Z.of_nat (length (Comb.c nrl)) = Comb.k nrl
          /\ increasing (Comb.n nrl) (Comb.c nrl))).

(** [v] is the last combination: [n-k, ..., n-1]. *)
Definition is_last (n : Z) (v : list Z) : Prop :=
  forall i, (i < length v)%nat ->
            nth i v 0%Z = (n - Z.of_nat (length v) + Z.of_nat i)%Z.

(** The combination handed out by the previous call, if the enumerator is
    past its first call and not exhausted. *)
Definition prev_of (nrl : Comb.NoRepLex) : option (list Z) :=
  if (Comb.s nrl =? 1)%Z then Some (Comb.c nrl) else None.

(** A well-formed sequence of outputs: every combination comes after the
    one before it in lexicographic order, [nil] is handed out only after
    the last combination, and only [nil] follows it. *)
Fixpoint trace (n : Z) (prev : option (list Z))
         (outs : list (option (list Z))) : Prop :=
  match outs with
  | [] => True
  | None :: rest =>
      match prev with
      | Some p => is_last n p
      | None => True
      end
      /\ Forall (fun o => o = None) rest
  | Some v :: rest =>
      match prev with
      | Some p => lex_lt p v
      | None => True
      end
      /\ trace n (Some v) rest
  end.

(** The number that the combination [v] spells in base [n], first entry
    most significant. *)
Fixpoint rank (n : Z) (v : list Z) : Z :=
  match v with
  | [] => 0
  | x :: r => x * n ^ Z.of_nat (length r) + rank n r
  end.

(** [data] has no position followed by a larger entry. *)
Definition no_ascent (data : list Z) : Prop :=
  forall i, (S i < length data)%nat -> (nth (S i) data 0 <= nth i data 0)%Z.

(** Every entry of [l] is at least as large as all entries after it. *)
Fixpoint desc (l : list Z) : Prop :=
  match l with
  | [] => True
  | x :: r => Forall (fun y => (y <= x)%Z) r /\ desc r
  end.

(** Every entry of [l] is at most as large as all entries after it. *)
Fixpoint asc (l : list Z) : Prop :=
  match l with
  | [] => True
  | x :: r => Forall (fun y => (x <= y)%Z) r /\ asc r
  end.

(** ** Exhaustive checks over bytes *)

Lemma byte_of_to_nat (b : byte) : byte_of_nat (Byte.to_nat b) = b.
Proof.
  unfold byte_of_nat.
  pose proof (Byte.to_nat_bounded b) as Hb.
  rewrite Nat.mod_small by lia.
  now rewrite Byte.of_to_nat.
Qed.

Lemma all_bytes_complete (b : byte) : In b all_bytes.
Proof.
  unfold all_bytes. rewrite <- (byte_of_to_nat b).
  apply in_map, in_seq.
  pose proof (Byte.to_nat_bounded b). lia.
Qed.

Lemma forall_byte (P : byte -> bool) :
  forallb P all_bytes = true -> forall b, P b = true.
Proof.
  intros H b. rewrite forallb_forall in H. apply H, all_bytes_complete.
Qed.

Lemma forall2_byte (P : byte -> byte -> bool) :
  forallb (fun a => forallb (P a) all_bytes) all_bytes = true ->
  forall a b, P a b = true.
Proof.
  intros H a b.
  apply (forall_byte (P a)).
  apply (forall_byte (fun a => forallb (P a) all_bytes) H).
Qed.

(** [by_bytes1] and [by_bytes2] settle a boolean statement about one or two
    bytes by running it on all of them. *)
Ltac by_bytes1 :=
  match goal with
  | |- forall b : byte, @?P b = true =>
      apply (forall_byte P); vm_compute; reflexivity
  end.

Ltac by_bytes2 :=
  match goal with
  | |- forall a b : byte, @?P a b = true =>
      apply (forall2_byte P); vm_compute; reflexivity
  end.

(** ** Facts about the tables, checked entry by entry *)

Lemma expOp_length : length expOp = 510%nat.
Proof. reflexivity. Qed.

Lemma logOp_length : length logOp = 256%nat.
Proof. reflexivity. Qed.

Lemma logAt_range_b :
  forall x : byte, ((0 <=? logAt x) && (logAt x <=? 254))%Z = true.
Proof. by_bytes1. Qed.

Lemma logAt_range (x : byte) : (0 <= logAt x <= 254)%Z.
Proof.
  pose proof (logAt_range_b x) as H.
  apply andb_true_iff in H. destruct H as [H1 H2].
  apply Z.leb_le in H1. apply Z.leb_le in H2. lia.
Qed.

Lemma exp_log_b :
  forall x : byte, is_zero x || Byte.eqb (expAt (logAt x)) x = true.
Proof. by_bytes1. Qed.

Lemma is_zero_true (x : byte) : is_zero x = true <-> x = x00.
Proof.
  unfold is_zero. split.
  - apply Byte.byte_dec_bl.
  - apply Byte.byte_dec_lb.
Qed.

Lemma is_zero_false (x : byte) : is_zero x = false <-> x <> x00.
Proof.
  rewrite <- is_zero_true. destruct (is_zero x); split; congruence.
Qed.

Lemma exp_log (x : byte) : x <> x00 -> expAt (logAt x) = x.
Proof.
  intros Hx. pose proof (exp_log_b x) as H.
  apply is_zero_false in Hx. rewrite Hx in H. simpl in H.
  now apply Byte.byte_dec_bl.
Qed.

Lemma exp_entries_b : forallb exp_entry_ok (seq 0 255) = true.
Proof. vm_compute. reflexivity. Qed.

Lemma exp_entry (i : Z) :
  (0 <= i < 255)%Z ->
  expAt i <> x00 /\ logAt (expAt i) = i /\ expAt (i + 255) = expAt i.
Proof.
  intros Hi.
  pose proof exp_entries_b as H. rewrite forallb_forall in H.
  specialize (H (Z.to_nat i)).
  assert (Hin : In (Z.to_nat i) (seq 0 255)) by (apply in_seq; lia).
  specialize (H Hin). unfold exp_entry_ok in H.
  rewrite Z2Nat.id in H by lia.
  apply andb_true_iff in H. destruct H as [H H3].
  apply andb_true_iff in H. destruct H as [H1 H2].
  apply negb_true_iff, is_zero_false in H1.
  apply Z.eqb_eq in H2. apply Byte.byte_dec_bl in H3. auto.
Qed.

Lemma expAt_mod (i : Z) : (0 <= i < 510)%Z -> expAt i = expAt (i mod 255).
Proof.
  intros Hi. destruct (Z_lt_le_dec i 255) as [Hlt | Hge].
  - now rewrite Z.mod_small by lia.
  - replace i with ((i - 255) + 255)%Z at 1 by lia.
    destruct (@exp_entry (i - 255)%Z) as (_ & _ & ->); [lia|].
    replace (i mod 255)%Z with (i - 255)%Z; [reflexivity|].
    apply Z.mod_unique with (q := 1%Z); lia.
Qed.

Lemma expAt_nonzero (i : Z) : (0 <= i < 510)%Z -> expAt i <> x00.
Proof.
  intros Hi. rewrite expAt_mod by assumption.
  apply exp_entry. apply Z.mod_pos_bound. lia.
Qed.

Lemma log_expAt (i : Z) : (0 <= i < 510)%Z -> logAt (expAt i) = (i mod 255)%Z.
Proof.
  intros Hi. rewrite expAt_mod by assumption.
  apply exp_entry. apply Z.mod_pos_bound. lia.
Qed.

(** ** GF(256) is a field under [add], [mul], [div] *)

Lemma to_N_add_b :
  forall a b : byte,
    N.eqb (Byte.to_N (add a b)) (N.lxor (Byte.to_N a) (Byte.to_N b)) = true.
Proof. by_bytes2. Qed.

Lemma to_N_add (a b : byte) :
  Byte.to_N (add a b) = N.lxor (Byte.to_N a) (Byte.to_N b).
Proof. apply N.eqb_eq, to_N_add_b. Qed.

Lemma to_N_inj (a b : byte) : Byte.to_N a = Byte.to_N b -> a = b.
Proof.
  intros H. pose proof (Byte.of_to_N a) as Ha. pose proof (Byte.of_to_N b) as Hb.
  congruence.
Qed.

Lemma add_comm (a b : byte) : add a b = add b a.
Proof. apply to_N_inj. rewrite !to_N_add. apply N.lxor_comm. Qed.

Lemma add_assoc (a b c : byte) : add a (add b c) = add (add a b) c.
Proof. apply to_N_inj. rewrite !to_N_add. symmetry. apply N.lxor_assoc. Qed.

Lemma add_0_l (a : byte) : add x00 a = a.
Proof. apply to_N_inj. rewrite to_N_add. apply N.lxor_0_l. Qed.

Lemma add_self (a : byte) : add a a = x00.
Proof. apply to_N_inj. rewrite to_N_add. apply N.lxor_nilpotent. Qed.

Lemma add_eq_0 (a b : byte) : add a b = x00 -> a = b.
Proof.
  intros H. apply to_N_inj. apply N.lxor_eq.
  rewrite <- to_N_add, H. reflexivity.
Qed.

Lemma mul_0_l (y : byte) : mul x00 y = x00.
Proof. reflexivity. Qed.

Lemma mul_0_r (x : byte) : mul x x00 = x00.
Proof. unfold mul. now rewrite orb_true_r. Qed.

Lemma div_0_l (y : byte) : div x00 y = x00.
Proof. reflexivity. Qed.

Lemma div_0_r (x : byte) : div x x00 = x00.
Proof. unfold div. now rewrite orb_true_r. Qed.

Lemma mul_nonzero (x y : byte) :
  x <> x00 -> y <> x00 -> mul x y = expAt (logAt x + logAt y).
Proof.
  intros Hx Hy. apply is_zero_false in Hx. apply is_zero_false in Hy.
  unfold mul, mul_index. now rewrite Hx, Hy.
Qed.

Lemma mul_neq_0 (x y : byte) : x <> x00 -> y <> x00 -> mul x y <> x00.
Proof.
  intros Hx Hy. rewrite mul_nonzero by assumption.
  pose proof (logAt_range x). pose proof (logAt_range y).
  apply expAt_nonzero. lia.
Qed.

Lemma log_mul (x y : byte) :
  x <> x00 -> y <> x00 -> logAt (mul x y) = ((logAt x + logAt y) mod 255)%Z.
Proof.
  intros Hx Hy. rewrite mul_nonzero by assumption.
  pose proof (logAt_range x). pose proof (logAt_range y).
  apply log_expAt. lia.
Qed.

Lemma mul_comm (x y : byte) : mul x y = mul y x.
Proof.
  unfold mul, mul_index. rewrite orb_comm, Z.add_comm. reflexivity.
Qed.

Lemma mul_nonzero_mod (x y : byte) :
  x <> x00 -> y <> x00 -> mul x y = expAt ((logAt x + logAt y) mod 255).
Proof.
  intros Hx Hy. rewrite mul_nonzero by assumption.
  pose proof (logAt_range x). pose proof (logAt_range y).
  apply expAt_mod. lia.
Qed.

Lemma mul_assoc (x y z : byte) : mul x (mul y z) = mul (mul x y) z.
Proof.
  destruct (Byte.byte_eq_dec x x00) as [-> | Hx]; [reflexivity|].
  destruct (Byte.byte_eq_dec y x00) as [-> | Hy];
    [now rewrite mul_0_l, mul_0_r, mul_0_l|].
  destruct (Byte.byte_eq_dec z x00) as [-> | Hz];
    [now rewrite !mul_0_r|].
  pose proof (mul_neq_0 Hx Hy) as Hxy. pose proof (mul_neq_0 Hy Hz) as Hyz.
  rewrite (mul_nonzero_mod Hx Hyz), (mul_nonzero_mod Hxy Hz).
  rewrite (log_mul Hx Hy), (log_mul Hy Hz).
  rewrite Z.add_mod_idemp_l, Z.add_mod_idemp_r by lia.
  now rewrite Z.add_assoc.
Qed.

Lemma mul_1_l_b : forall x : byte, Byte.eqb (mul x01 x) x = true.
Proof. by_bytes1. Qed.

Lemma mul_1_l (x : byte) : mul x01 x = x.
Proof. apply Byte.byte_dec_bl, mul_1_l_b. Qed.

(** Multiplication by the generator [0x03] is linear over [add]; every other
    non-zero element is a power of the generator, which gives distributivity
    without running over all triples. *)
Lemma mul_gen_linear_b :
  forall y z : byte,
    Byte.eqb (mul x03 (add y z)) (add (mul x03 y) (mul x03 z)) = true.
Proof. by_bytes2. Qed.

Lemma mul_gen_linear (y z : byte) :
  mul x03 (add y z) = add (mul x03 y) (mul x03 z).
Proof. apply Byte.byte_dec_bl, mul_gen_linear_b. Qed.

Lemma expAt_succ (n : Z) :
  (0 <= n < 254)%Z -> expAt (n + 1) = mul x03 (expAt n).
Proof.
  intros Hn.
  assert (H3 : x03 <> x00) by discriminate.
  assert (He : expAt n <> x00) by (apply expAt_nonzero; lia).
  rewrite (mul_nonzero H3 He).
  destruct (@exp_entry n) as (_ & -> & _); [lia|].
  change (logAt x03) with 1%Z. f_equal. lia.
Qed.

Lemma mul_exp_linear (n : nat) :
  (n <= 254)%nat ->
  forall y z,
    mul (expAt (Z.of_nat n)) (add y z)
    = add (mul (expAt (Z.of_nat n)) y) (mul (expAt (Z.of_nat n)) z).
Proof.
  induction n as [|n IH]; intros Hn y z.
  - change (expAt (Z.of_nat 0)) with x01. now rewrite !mul_1_l.
  - rewrite Nat2Z.inj_succ, <- Z.add_1_r.
    rewrite expAt_succ by lia.
    rewrite <- !mul_assoc, IH by lia.
    apply mul_gen_linear.
Qed.

Lemma mul_add_distr_l (x y z : byte) :
  mul x (add y z) = add (mul x y) (mul x z).
Proof.
  destruct (Byte.byte_eq_dec x x00) as [-> | Hx].
  - now rewrite !mul_0_l.
  - rewrite <- (exp_log Hx).
    pose proof (logAt_range x) as Hr.
    rewrite <- (Z2Nat.id (logAt x)) by lia.
    apply mul_exp_linear. lia.
Qed.

Lemma mul_add_distr_r (x y z : byte) :
  mul (add x y) z = add (mul x z) (mul y z).
Proof. rewrite !(mul_comm _ z). apply mul_add_distr_l. Qed.

Lemma div_mul_inv_b :
  forall x y : byte, Byte.eqb (div x y) (mul x (inv y)) = true.
Proof. by_bytes2. Qed.

Lemma div_mul_inv (x y : byte) : div x y = mul x (inv y).
Proof. apply Byte.byte_dec_bl, div_mul_inv_b. Qed.

Lemma inv_l_b : forall y : byte, is_zero y || Byte.eqb (mul (inv y) y) x01 = true.
Proof. by_bytes1. Qed.

Lemma inv_l (y : byte) : y <> x00 -> mul (inv y) y = x01.
Proof.
  intros Hy. pose proof (inv_l_b y) as H.
  apply is_zero_false in Hy. rewrite Hy in H. now apply Byte.byte_dec_bl.
Qed.

Lemma GF256_ring :
  ring_theory x00 x01 add mul add (fun x => x) (@eq byte).
Proof.
  constructor.
  - exact add_0_l.
  - exact add_comm.
  - exact add_assoc.
  - exact mul_1_l.
  - exact mul_comm.
  - exact mul_assoc.
  - exact mul_add_distr_r.
  - reflexivity.
  - exact add_self.
Qed.

Lemma GF256_field :
  field_theory x00 x01 add mul add (fun x => x) div inv (@eq byte).
Proof.
  constructor.
  - exact GF256_ring.
  - discriminate.
  - exact div_mul_inv.
  - exact inv_l.
Qed.

Lemma GF2_morph :
  ring_morph x00 x01 add mul add (fun x => x) (@eq byte)
             false true xorb andb xorb (fun b => b) Bool.eqb of_bool.
Proof.
  constructor; try reflexivity.
  - intros [] []; reflexivity.
  - intros [] []; reflexivity.
  - intros [] []; reflexivity.
  - intros [] []; simpl; intros H; congruence.
Qed.

Add Field GF256 : GF256_field (morphism GF2_morph).

(** ** Loops in the [outcome] monad *)

Lemma for_loop_pure (St : Type) (f : nat -> St -> St)
      (body : nat -> St -> outcome St) (n : nat) :
  forall (lo : nat) (s : St),
    (forall i s', (lo <= i < lo + n)%nat -> body i s' = Ok (f i s')) ->
    for_loop lo n body s = Ok (fold_left (fun s' i => f i s') (seq lo n) s).
Proof.
  induction n as [|n IH]; intros lo s Hb; simpl.
  - reflexivity.
  - rewrite Hb by lia. simpl. apply IH.
    intros i s' Hi. apply Hb. lia.
Qed.

Lemma load_nth (A : Type) (l : list A) (i : nat) (d : A) :
  (i < length l)%nat -> load l i = Ok (nth i l d).
Proof.
  intros Hi. unfold load.
  rewrite (nth_error_nth' l d Hi). reflexivity.
Qed.

Lemma load_out (A : Type) (l : list A) (i : nat) :
  (length l <= i)%nat -> load l i = Panic IndexOutOfRange.
Proof.
  intros Hi. unfold load.
  apply nth_error_None in Hi. now rewrite Hi.
Qed.

(** ** [poly] and [interpolate] compute the Lagrange sums *)

Lemma poly_ok (i : nat) (u : list byte) :
  (i < length u)%nat -> poly i u = Ok (poly_fold i u).
Proof.
  intros Hi. unfold poly, poly_fold.
  apply for_loop_pure with
    (f := fun j r => if (j =? i)%nat then r
                     else mul r (term (nth j u x00) (nth i u x00))).
  intros j r Hj.
  destruct (j =? i)%nat; [reflexivity|].
  rewrite (load_nth u x00) by lia. simpl.
  rewrite (load_nth u x00) by lia. reflexivity.
Qed.

Lemma interpolate_ok (u v : list byte) :
  (length u <= length v)%nat -> interpolate u v = Ok (interp_fold u v).
Proof.
  intros Hlen. unfold interpolate, interp_fold.
  apply for_loop_pure with
    (f := fun i r => add r (mul (poly_fold i u) (nth i v x00))).
  intros i r Hi.
  rewrite poly_ok by lia. simpl.
  rewrite (load_nth v x00) by lia. reflexivity.
Qed.

(** ** Algebra of the Lagrange sums *)

Lemma fold_left_add_xsum (A : Type) (t : A -> byte) (l : list A) :
  forall r, fold_left (fun r i => add r (t i)) l r = add r (xsum (map t l)).
Proof.
  induction l as [|i l IH]; intros r; simpl.
  - ring.
  - rewrite IH. ring.
Qed.

Lemma fold_left_mul_xprod (A : Type) (skip : A -> bool) (t : A -> byte)
      (l : list A) :
  forall r,
    fold_left (fun r j => if skip j then r else mul r (t j)) l r
    = mul r (xprod (map (fun j => if skip j then x01 else t j) l)).
Proof.
  induction l as [|j l IH]; intros r; simpl.
  - ring.
  - rewrite IH. destruct (skip j); ring.
Qed.

Lemma poly_fold_xprod (i : nat) (u : list byte) :
  poly_fold i u
  = xprod (map (fun j => if (j =? i)%nat then x01
                         else term (nth j u x00) (nth i u x00))
               (seq 0 (length u))).
Proof.
  unfold poly_fold.
  rewrite (fold_left_mul_xprod (fun j => (j =? i)%nat)
             (fun j => term (nth j u x00) (nth i u x00))).
  ring.
Qed.

Lemma map_nth_seq (A B : Type) (f : A -> B) (l : list A) (d : A) :
  map (fun j => f (nth j l d)) (seq 0 (length l)) = map f l.
Proof.
  induction l as [|x l IH]; simpl.
  - reflexivity.
  - f_equal. rewrite <- seq_shift, map_map. exact IH.
Qed.

Lemma poly_fold_head (c : byte) (us : list byte) :
  poly_fold 0 (c :: us) = weight c us.
Proof.
  rewrite poly_fold_xprod. unfold weight. simpl.
  rewrite <- seq_shift, map_map. simpl.
  rewrite (map_nth_seq (fun x => term x c) us x00).
  ring.
Qed.

Lemma poly_fold_tail (c : byte) (us : list byte) (i : nat) :
  poly_fold (S i) (c :: us) = mul (term c (nth i us x00)) (poly_fold i us).
Proof.
  rewrite !poly_fold_xprod. simpl.
  rewrite <- seq_shift, map_map. simpl.
  reflexivity.
Qed.

Lemma interp_fold_lag (us : list byte) (F : byte -> byte) :
  interp_fold us (map F us) = lag us F.
Proof.
  unfold interp_fold, lag.
  rewrite (fold_left_add_xsum
             (fun i => mul (poly_fold i us) (nth i (map F us) x00))).
  rewrite add_0_l. f_equal.
  apply map_ext_in. intros i Hi. apply in_seq in Hi.
  f_equal. rewrite (nth_indep _ x00 (F x00)) by (rewrite length_map; lia).
  apply map_nth.
Qed.

Lemma lag_nil (F : byte -> byte) : lag [] F = x00.
Proof. reflexivity. Qed.

Lemma lag_cons (c : byte) (us : list byte) (F : byte -> byte) :
  lag (c :: us) F
  = add (mul (weight c us) (F c)) (lag us (fun x => mul (term c x) (F x))).
Proof.
  unfold lag. simpl length. simpl seq. simpl map at 1. simpl xsum.
  rewrite poly_fold_head. simpl nth at 1. f_equal.
  rewrite <- seq_shift, map_map. f_equal.
  apply map_ext. intros i.
  rewrite poly_fold_tail. simpl nth. ring.
Qed.

Lemma lag_ext (us : list byte) (F G : byte -> byte) :
  (forall x, In x us -> F x = G x) -> lag us F = lag us G.
Proof.
  intros H. unfold lag. f_equal.
  apply map_ext_in. intros i Hi. apply in_seq in Hi.
  f_equal. apply H. apply nth_In. lia.
Qed.

Lemma xsum_linear (A : Type) (p F G : A -> byte) (a b : byte) (l : list A) :
  xsum (map (fun i => mul (p i) (add (mul a (F i)) (mul b (G i)))) l)
  = add (mul a (xsum (map (fun i => mul (p i) (F i)) l)))
        (mul b (xsum (map (fun i => mul (p i) (G i)) l))).
Proof.
  induction l as [|i l IH]; simpl.
  - ring.
  - rewrite IH. ring.
Qed.

Lemma lag_linear (us : list byte) (F G : byte -> byte) (a b : byte) :
  lag us (fun x => add (mul a (F x)) (mul b (G x)))
  = add (mul a (lag us F)) (mul b (lag us G)).
Proof.
  unfold lag.
  apply (xsum_linear (fun i => poly_fold i us)
           (fun i => F (nth i us x00)) (fun i => G (nth i us x00))).
Qed.

Lemma add_neq_0 (a b : byte) : a <> b -> add a b <> x00.
Proof. intros H E. apply H. now apply add_eq_0. Qed.

(** The Lagrange functions at zero sum to one. *)
Lemma lag_one (n : nat) :
  forall us, length us = S n -> NoDup us -> lag us (fun _ => x01) = x01.
Proof.
  induction n as [|n IH]; intros us Hlen Hnd.
  - destruct us as [|c [|d rest]]; try discriminate.
    rewrite lag_cons, lag_nil. unfold weight. simpl. ring.
  - destruct us as [|c [|d rest]]; try discriminate.
    assert (Hc : NoDup (c :: rest)).
    { inversion Hnd as [|? ? Hin Hnd']; subst. inversion Hnd'; subst.
      constructor; [intros H; apply Hin; now right | assumption]. }
    assert (Hd : NoDup (d :: rest)) by (now inversion Hnd).
    assert (Hcd : c <> d).
    { inversion Hnd as [|? ? Hin _]; subst. intros ->. apply Hin. now left. }
    pose proof (IH (c :: rest) ltac:(simpl in *; lia) Hc) as IHc.
    pose proof (IH (d :: rest) ltac:(simpl in *; lia) Hd) as IHd.
    rewrite lag_cons in IHc, IHd.
    rewrite !lag_cons.
    rewrite (lag_ext rest
               (fun x => mul (term d x) (mul (term c x) x01))
               (fun x => add (mul (term d c) (mul (term c x) x01))
                             (mul (term c d) (mul (term d x) x01)))).
    + rewrite lag_linear.
      set (A := lag rest (fun x => mul (term c x) x01)) in *.
      set (B := lag rest (fun x => mul (term d x) x01)) in *.
      assert (HA : A = add x01 (weight c rest))
        by (rewrite <- IHc; ring).
      assert (HB : B = add x01 (weight d rest))
        by (rewrite <- IHd; ring).
      rewrite HA, HB.
      change (weight c (d :: rest)) with (mul (term d c) (weight c rest)).
      unfold term. field. repeat split; apply add_neq_0; congruence.
    + intros x Hx.
      assert (Hxc : c <> x).
      { inversion Hc as [|? ? Hin _]; subst. intros ->. now apply Hin. }
      assert (Hxd : d <> x).
      { inversion Hd as [|? ? Hin _]; subst. intros ->. now apply Hin. }
      unfold term. field.
      repeat split; apply add_neq_0; congruence.
Qed.

(** ** [eval] is Horner evaluation *)

Lemma eval_fold (x : byte) (a : list byte) :
  forall r xi,
    fst (fold_left (eval_step x) a (r, xi)) = add r (mul xi (eval x a)).
Proof.
  induction a as [|a0 a IH]; intros r xi.
  - simpl. unfold eval. simpl. ring.
  - unfold eval. simpl. rewrite !IH. ring.
Qed.

Lemma eval_nil (x : byte) : eval x [] = x00.
Proof. reflexivity. Qed.

Lemma eval_cons (x a0 : byte) (a : list byte) :
  eval x (a0 :: a) = add a0 (mul x (eval x a)).
Proof.
  unfold eval at 1. simpl. rewrite eval_fold. ring.
Qed.

Lemma eval_at_zero (a : list byte) : eval x00 a = hd x00 a.
Proof.
  destruct a as [|a0 a]; [reflexivity|].
  rewrite eval_cons. simpl. ring.
Qed.

(** Division of a polynomial by [x + c]. *)
Lemma eval_divide (c : byte) (a : list byte) :
  exists g,
    length g = pred (length a)
    /\ forall x, eval x a = add (eval c a) (mul (add x c) (eval x g)).
Proof.
  induction a as [|a0 a IH].
  - exists []. split; [reflexivity|]. intros x. rewrite !eval_nil. ring.
  - destruct IH as (g & Hlen & Hg).
    destruct a as [|a1 a].
    + exists []. split; [reflexivity|]. intros x.
      rewrite !eval_cons, !eval_nil. ring.
    + exists (eval c (a1 :: a) :: g). split.
      * simpl in *. lia.
      * intros x. rewrite (eval_cons x a0), (eval_cons c a0).
        rewrite (eval_cons x (eval c (a1 :: a))).
        rewrite (Hg x). ring.
Qed.

(** Lagrange interpolation at zero recovers the constant coefficient of a
    polynomial with no more coefficients than there are distinct points. *)
Lemma lag_eval (us : list byte) :
  NoDup us ->
  forall a, (length a <= length us)%nat ->
            lag us (fun x => eval x a) = eval x00 a.
Proof.
  induction us as [|c rest IH]; intros Hnd a Hlen.
  - destruct a; [reflexivity | simpl in Hlen; lia].
  - destruct (eval_divide c a) as (g & Hg & Hdiv).
    assert (Hrest : NoDup rest) by (now inversion Hnd).
    rewrite lag_cons.
    rewrite (lag_ext rest
               (fun x => mul (term c x) (eval x a))
               (fun x => add (mul (eval c a) (mul (term c x) x01))
                             (mul c (eval x g)))).
    + rewrite lag_linear.
      rewrite (IH Hrest g) by (simpl in Hlen; lia).
      pose proof (@lag_one (length rest) (c :: rest) eq_refl Hnd) as H1.
      rewrite lag_cons in H1.
      set (A := lag rest (fun x => mul (term c x) x01)) in *.
      assert (HA : A = add x01 (weight c rest)) by (rewrite <- H1; ring).
      rewrite HA, (Hdiv x00). ring.
    + intros x Hx.
      assert (Hxc : c <> x).
      { inversion Hnd as [|? ? Hin _]; subst. intros ->. now apply Hin. }
      rewrite (Hdiv x). unfold term. field.
      apply add_neq_0; congruence.
Qed.

Lemma interpolate_eval (us a : list byte) :
  NoDup us -> (length a <= length us)%nat ->
  interpolate us (map (fun x => eval x a) us) = Ok (hd x00 a).
Proof.
  intros Hnd Hlen.
  rewrite interpolate_ok by (rewrite length_map; lia).
  rewrite interp_fold_lag, lag_eval by assumption.
  now rewrite eval_at_zero.
Qed.

(** ** More loop lemmas *)

Lemma for_loop_guarded (St : Type) (F : nat -> St) (g : nat -> bool)
      (e : error) (body : nat -> St -> outcome St) (n : nat) :
  forall lo,
    (forall i, (lo <= i < lo + n)%nat ->
               body i (F i) = if g i then Ok (F (S i)) else Fail e) ->
    for_loop lo n body (F lo)
    = if forallb g (seq lo n) then Ok (F (lo + n)%nat) else Fail e.
Proof.
  induction n as [|n IH]; intros lo Hb; simpl.
  - now rewrite Nat.add_0_r.
  - rewrite Hb by lia. destruct (g lo); simpl; [|reflexivity].
    rewrite IH by (intros i Hi; apply Hb; lia).
    now rewrite Nat.add_succ_r.
Qed.

Lemma for_loop_closed (St : Type) (F : nat -> St)
      (body : nat -> St -> outcome St) (n lo : nat) :
  (forall i, (lo <= i < lo + n)%nat -> body i (F i) = Ok (F (S i))) ->
  for_loop lo n body (F lo) = Ok (F (lo + n)%nat).
Proof.
  intros Hb.
  rewrite (@for_loop_guarded _ F (fun _ => true) ErrEntropy body n lo).
  - replace (forallb (fun _ => true) (seq lo n)) with true; [reflexivity|].
    symmetry. apply forallb_forall. reflexivity.
  - intros i Hi. now apply Hb.
Qed.

Lemma set_nth_length (A : Type) (l : list A) (i : nat) (x : A) :
  length (set_nth l i x) = length l.
Proof.
  revert i. induction l as [|y l IH]; intros [|i]; simpl; auto.
Qed.

Lemma set_nth_app (A : Type) (pre : list A) (y x : A) (post : list A) :
  set_nth (pre ++ y :: post) (length pre) x = pre ++ x :: post.
Proof.
  induction pre as [|z pre IH]; simpl; [reflexivity | now rewrite IH].
Qed.

Lemma set_nth_cons_app (A : Type) (z : A) (pre : list A) (y x : A)
      (post : list A) :
  set_nth (z :: pre ++ y :: post) (length pre + 1) x = z :: pre ++ x :: post.
Proof.
  rewrite Nat.add_1_r. simpl. now rewrite set_nth_app.
Qed.

Lemma store_app (A : Type) (pre : list A) (y x : A) (post : list A) :
  store (pre ++ y :: post) (length pre) x = Ok (pre ++ x :: post).
Proof.
  unfold store. rewrite length_app. simpl.
  replace (length pre <? length pre + S (length post))%nat with true
    by (symmetry; apply Nat.ltb_lt; lia).
  now rewrite set_nth_app.
Qed.

Lemma load_app (A : Type) (pre : list A) (y : A) (post : list A) :
  load (pre ++ y :: post) (length pre) = Ok y.
Proof.
  unfold load. rewrite nth_error_app2 by lia.
  now rewrite Nat.sub_diag.
Qed.

(** A loop that rewrites every element of a slice in place. *)
Lemma for_loop_rows (A : Type) (body : nat -> list A -> outcome (list A))
      (f : A -> A) :
  forall rest pre,
    (forall pre' x rest',
        In x rest ->
        body (length pre') (pre' ++ x :: rest') = Ok (pre' ++ f x :: rest')) ->
    for_loop (length pre) (length rest) body (pre ++ rest)
    = Ok (pre ++ map f rest).
Proof.
  induction rest as [|x rest IH]; intros pre Hb; simpl.
  - reflexivity.
  - rewrite Hb by (now left). simpl.
    replace (S (length pre)) with (length (pre ++ [f x]))
      by (rewrite length_app; simpl; lia).
    replace (pre ++ f x :: rest) with ((pre ++ [f x]) ++ rest)
      by (now rewrite <- app_assoc).
    rewrite IH.
    + now rewrite <- app_assoc.
    + intros pre' y rest' Hy. apply Hb. now right.
Qed.

Lemma make_ok (A : Type) (zero : A) (n : Z) :
  (0 <= n)%Z -> make zero n = Ok (repeat zero (Z.to_nat n)).
Proof.
  intros Hn. unfold make.
  replace (n <? 0)%Z with false by (symmetry; apply Z.ltb_ge; lia).
  reflexivity.
Qed.

Lemma make_neg (A : Type) (zero : A) (n : Z) :
  (n < 0)%Z -> make zero n = Panic MakeSliceLen.
Proof.
  intros Hn. unfold make.
  replace (n <? 0)%Z with true by (symmetry; apply Z.ltb_lt; lia).
  reflexivity.
Qed.

(** ** The loops of [CreateShares] *)

Section Generation.

Variable src : entropy.
Variable secret : list byte.
Variable n t : nat.

Let m := length secret.

Lemma coeffs_length (k : nat) : length (coeffs src t secret k) = t.
Proof.
  unfold coeffs. now rewrite set_nth_length, length_map, length_seq.
Qed.

Lemma coeffs_hd (k : nat) :
  (1 <= t)%nat -> hd x00 (coeffs src t secret k) = nth k secret x00.
Proof.
  intros Ht. unfold coeffs. destruct t as [|t']; [lia|]. reflexivity.
Qed.

Lemma row_at_length (j i : nat) :
  (i <= m)%nat -> length (row_at src t secret j i) = S m.
Proof.
  intros Hi. unfold row_at. simpl.
  rewrite length_app, length_map, length_seq, repeat_length.
  fold m. lia.
Qed.

Lemma row_at_step (j i : nat) :
  (i < m)%nat ->
  set_nth (row_at src t secret j i) (i + 1)
          (eval (byte_of_nat (j + 1)) (coeffs src t secret i))
  = row_at src t secret j (S i).
Proof.
  intros Hi. unfold row_at. fold m.
  replace (m - i)%nat with (S (m - S i)) by lia.
  simpl repeat.
  rewrite seq_S, map_app, <- app_assoc. simpl app at 3.
  set (pre := map _ (seq 0 i)).
  assert (Hpre : length pre = i)
    by (unfold pre; now rewrite length_map, length_seq).
  replace (i + 1)%nat with (length pre + 1)%nat by lia.
  apply set_nth_cons_app.
Qed.

Lemma row_at_final (j : nat) :
  row_at src t secret j m = share_of src t secret (byte_of_nat (j + 1)).
Proof.
  unfold row_at, share_of. fold m.
  now rewrite Nat.sub_diag, app_nil_r.
Qed.

(** The first loop: every share gets its length and its index byte. *)
Lemma init_loop :
  for_loop 0 n
    (fun i shares =>
       row <- make x00 (Z.of_nat m + 1) ;;
       row <- store row 0 (byte_of_nat (i + 1)) ;;
       store shares i row)
    (repeat [] n)
  = Ok (map (fun j => row_at src t secret j 0) (seq 0 n)).
Proof.
  pose (F := fun i : nat =>
               map (fun j => row_at src t secret j 0) (seq 0 i)
               ++ repeat (@nil byte) (n - i)).
  replace (repeat [] n) with (F 0%nat)
    by (unfold F; simpl; now rewrite Nat.sub_0_r).
  replace (map (fun j => row_at src t secret j 0) (seq 0 n))
    with (F (0 + n)%nat)
    by (unfold F; simpl; now rewrite Nat.sub_diag, app_nil_r).
  - apply for_loop_closed. intros i Hi.
    rewrite make_ok by lia.
    replace (Z.to_nat (Z.of_nat m + 1)) with (S m) by lia.
    simpl. unfold F.
    replace (n - i)%nat with (S (n - S i)) by lia. simpl repeat.
    set (pre := map _ (seq 0 i)).
    replace i with (length pre) at 2
      by (unfold pre; now rewrite length_map, length_seq).
    rewrite store_app.
    rewrite seq_S, map_app. simpl. fold pre.
    rewrite <- app_assoc. simpl.
    unfold row_at. fold m. simpl. now rewrite Nat.sub_0_r.
Qed.

(** The innermost loop: one more payload byte in every share. *)
Lemma column_loop (i : nat) :
  (i < m)%nat ->
  for_loop 0 n
    (fun j shares =>
       sj <- load shares j ;;
       x <- load sj 0 ;;
       sj' <- store sj (i + 1) (eval x (coeffs src t secret i)) ;;
       store shares j sj')
    (map (fun j => row_at src t secret j i) (seq 0 n))
  = Ok (map (fun j => row_at src t secret j (S i)) (seq 0 n)).
Proof.
  intros Hi.
  set (rows := map (fun j => row_at src t secret j i) (seq 0 n)).
  pose proof (@for_loop_rows _
                (fun j shares =>
                   sj <- load shares j ;;
                   x <- load sj 0 ;;
                   sj' <- store sj (i + 1) (eval x (coeffs src t secret i)) ;;
                   store shares j sj')
                (fun row => set_nth row (i + 1)
                                    (eval (hd x00 row) (coeffs src t secret i)))
                rows []) as H.
  simpl length in H. simpl app in H.
  replace (length rows) with n in H
    by (unfold rows; now rewrite length_map, length_seq).
  rewrite H.
  - f_equal. unfold rows. rewrite map_map.
    apply map_ext. intros j. now rewrite <- row_at_step.
  - intros pre x rest Hx.
    unfold rows in Hx. apply in_map_iff in Hx.
    destruct Hx as (j & <- & _).
    rewrite load_app. simpl bind.
    unfold store at 1.
    rewrite row_at_length by lia.
    replace (i + 1 <? S m)%nat with true
      by (symmetry; apply Nat.ltb_lt; lia).
    simpl bind. apply store_app.
Qed.

(** The main loop, as long as the threshold is positive. *)
Lemma main_loop :
  (1 <= t)%nat ->
  for_loop 0 m
    (fun i st =>
       let '(a, shares) := st in
       a <- rand_Read src i a ;;
       si <- load secret i ;;
       a <- store a 0 si ;;
       shares <- for_loop 0 n
                   (fun j shares =>
                      sj <- load shares j ;;
                      x <- load sj 0 ;;
                      sj' <- store sj (i + 1) (eval x a) ;;
                      store shares j sj')
                   shares ;;
       Ok (a, shares))
    (gen_state src t secret n 0)
  = if entropy_ok src m then Ok (gen_state src t secret n m)
    else Fail ErrEntropy.
Proof.
  intros Ht.
  unfold entropy_ok.
  apply (@for_loop_guarded _ (gen_state src t secret n)
           (fun k => match src k with Some _ => true | None => false end)).
  intros i Hi. unfold gen_state at 1.
  assert (Hlen : length (match i with
                         | O => repeat x00 t
                         | S k => coeffs src t secret k
                         end) = t).
  { destruct i; [apply repeat_length | apply coeffs_length]. }
  unfold rand_Read. rewrite Hlen.
  replace (t =? 0)%nat with false by (symmetry; apply Nat.eqb_neq; lia).
  destruct (src i) as [f|] eqn:Hsrc; [|reflexivity].
  simpl bind.
  rewrite (load_nth secret x00) by (fold m; lia). simpl bind.
  unfold store at 1. rewrite length_map, length_seq.
  replace (0 <? t)%nat with true by (symmetry; apply Nat.ltb_lt; lia).
  simpl bind.
  replace (set_nth (map f (seq 0 t)) 0 (nth i secret x00))
    with (coeffs src t secret i)
    by (unfold coeffs, rand_bytes; now rewrite Hsrc).
  rewrite column_loop by lia. reflexivity.
Qed.

End Generation.

(** ** [CreateShares] in closed form *)

Lemma validate_none (secretLen : nat) (n t : Z) :
  validate secretLen n t = None ->
  (32 <= Z.of_nat secretLen <= 65534 /\ 2 <= n <= 255 /\ t <= n)%Z.
Proof.
  unfold validate, MinSecretBytes, MaxSecretBytes, MinShares, MaxShares.
  destruct (Nat.eqb_spec secretLen 0); [discriminate|].
  destruct (Z.ltb_spec (Z.of_nat secretLen) 32); [discriminate|].
  destruct (Z.gtb_spec (Z.of_nat secretLen) 65534); [discriminate|].
  destruct (Z.ltb_spec n 2); [discriminate|].
  destruct (Z.gtb_spec n 255); [discriminate|].
  destruct (Z.gtb_spec t n); [discriminate|].
  intros _. lia.
Qed.

Lemma CreateShares_invalid (src : entropy) (secret : list byte) (n t : Z)
      (e : error) :
  validate (length secret) n t = Some e ->
  CreateShares src secret n t = Fail e.
Proof.
  unfold validate, CreateShares.
  destruct (length secret =? 0)%nat; [congruence|].
  destruct (Z.of_nat (length secret) <? MinSecretBytes)%Z; [congruence|].
  destruct (Z.of_nat (length secret) >? MaxSecretBytes)%Z; [congruence|].
  destruct (n <? MinShares)%Z; [congruence|].
  destruct (n >? MaxShares)%Z; [congruence|].
  destruct (t >? n)%Z; [congruence|].
  discriminate.
Qed.

Lemma CreateShares_valid (src : entropy) (secret : list byte) (n t : Z) :
  validate (length secret) n t = None ->
  CreateShares src secret n t
  = if (t <? 0)%Z then Panic MakeSliceLen
    else if (t =? 0)%Z then Panic IndexOutOfRange
         else if entropy_ok src (length secret)
              then Ok (shares_spec src (Z.to_nat t) secret (Z.to_nat n))
              else Fail ErrEntropy.
Proof.
  intros Hv. pose proof (validate_none _ _ _ Hv) as (Hs & Hn & Ht).
  unfold validate in Hv. unfold CreateShares.
  destruct (length secret =? 0)%nat; [discriminate|].
  destruct (Z.of_nat (length secret) <? MinSecretBytes)%Z; [discriminate|].
  destruct (Z.of_nat (length secret) >? MaxSecretBytes)%Z; [discriminate|].
  destruct (n <? MinShares)%Z; [discriminate|].
  destruct (n >? MaxShares)%Z; [discriminate|].
  destruct (t >? n)%Z; [discriminate|].
  clear Hv.
  rewrite make_ok by lia. simpl bind.
  rewrite (init_loop src secret (Z.to_nat n) (Z.to_nat t)). simpl bind.
  destruct (Z.ltb_spec t 0) as [Hneg | Hpos].
  - now rewrite make_neg.
  - rewrite make_ok by lia. simpl bind.
    destruct (Z.eqb_spec t 0) as [-> | Hnz].
    + destruct secret as [|s0 rest]; [simpl in Hs; lia|].
      simpl length. simpl for_loop. unfold rand_Read.
      reflexivity.
    + change (repeat x00 (Z.to_nat t),
              map (fun j => row_at src (Z.to_nat t) secret j 0)
                  (seq 0 (Z.to_nat n)))
        with (gen_state src (Z.to_nat t) secret (Z.to_nat n) 0).
      rewrite main_loop by lia.
      destruct (entropy_ok src (length secret)); [|reflexivity].
      simpl. unfold shares_spec. apply f_equal.
      apply map_ext. intros j. apply row_at_final.
Qed.

(** ** Running heap computations *)

Lemma bindM_ok (A B : Type) (m : M A) (k : A -> M B) (h h' : heap) (a : A) :
  m h = (Ok a, h') -> bindM m k h = k a h'.
Proof. intros H. unfold bindM. now rewrite H. Qed.

Lemma bindM_fail (A B : Type) (m : M A) (k : A -> M B) (h h' : heap)
      (e : error) :
  m h = (Fail e, h') -> bindM m k h = (Fail e, h').
Proof. intros H. unfold bindM. now rewrite H. Qed.

Lemma defer_run (A : Type) (cleanup : M unit) (body : M A) (h h1 h2 : heap)
      (o : outcome A) :
  body h = (o, h1) -> cleanup h1 = (Ok tt, h2) ->
  defer cleanup body h = (o, h2).
Proof. intros Hb Hc. unfold defer. now rewrite Hb, Hc. Qed.

Lemma cell_old (h l : heap) (r : ref) :
  (r < length h)%nat -> cell (h ++ l) r = cell h r.
Proof. intros Hr. unfold cell. now apply app_nth1. Qed.

Lemma cell_new (h pre post : heap) (c : list byte) (r : ref) :
  r = (length h + length pre)%nat -> cell (h ++ pre ++ c :: post) r = c.
Proof.
  intros ->. unfold cell. rewrite app_assoc, app_nth2; rewrite length_app.
  - now rewrite Nat.sub_diag.
  - lia.
Qed.

Lemma set_new (h pre post : heap) (c c' : list byte) (r : ref) :
  r = (length h + length pre)%nat ->
  set_nth (h ++ pre ++ c :: post) r c' = h ++ pre ++ c' :: post.
Proof.
  intros ->. rewrite app_assoc, <- length_app, set_nth_app.
  now rewrite <- app_assoc.
Qed.

Lemma wr_new (h pre post : heap) (c1 c2 : list byte) (y b : byte) (r : ref)
      (i : nat) :
  r = (length h + length pre)%nat -> i = length c1 ->
  wr r i b (h ++ pre ++ (c1 ++ y :: c2) :: post)
  = (Ok tt, h ++ pre ++ (c1 ++ b :: c2) :: post).
Proof.
  intros Hr ->. unfold wr.
  rewrite (@cell_new h pre post _ r Hr), store_app.
  now rewrite (@set_new h pre post _ _ r Hr).
Qed.

Lemma rd_old (h l : heap) (r : ref) (k : nat) :
  (r < length h)%nat -> (k < length (cell h r))%nat ->
  rd r k (h ++ l) = (Ok (nth k (cell h r) x00), h ++ l).
Proof.
  intros Hr Hk. unfold rd.
  rewrite cell_old by assumption.
  now rewrite (load_nth _ x00 Hk).
Qed.

(** [erase] turns a local array into [0xff] bytes. *)
Lemma erase_loop (h pre post : heap) (r : ref) :
  r = (length h + length pre)%nat ->
  forall c2 c1,
    for_heap (length c1) (length c2) (fun i => wr r i xff)
             (h ++ pre ++ (c1 ++ c2) :: post)
    = (Ok tt, h ++ pre ++ (c1 ++ repeat xff (length c2)) :: post).
Proof.
  intros Hr. induction c2 as [|y c2 IH]; intros c1.
  - reflexivity.
  - simpl for_heap.
    rewrite (@bindM_ok _ _ _ _ _ _ _ (@wr_new h pre post c1 c2 y xff r _ Hr eq_refl)).
    replace (S (length c1)) with (length (c1 ++ [xff]))
      by (rewrite length_app; simpl; lia).
    replace (c1 ++ xff :: c2) with ((c1 ++ [xff]) ++ c2)
      by (now rewrite <- app_assoc).
    rewrite IH. simpl. now rewrite <- app_assoc.
Qed.

Lemma erase_new (h pre post : heap) (c : list byte) (r : ref) :
  r = (length h + length pre)%nat ->
  erase r (h ++ pre ++ c :: post)
  = (Ok tt, h ++ pre ++ repeat xff (length c) :: post).
Proof.
  intros Hr. unfold erase.
  rewrite (@cell_new h pre post c r Hr).
  exact (@erase_loop h pre post r Hr c []).
Qed.

(** ** The loops of [RecoverSecret] *)

Section Recovery.

Variable h : heap.
Variable shares : list ref.

Local Notation "'ss'" := (map (cell h) shares).

(** The loop that compares every further share length with the first. *)
Lemma check_loop (size : nat) :
  forall rest pre,
    shares = pre ++ rest ->
    for_heap (length pre) (length rest)
      (fun i =>
         si <~ lift (load shares i) ;;
         n <~ len si ;;
         if negb (n =? Z.of_nat size)%Z then lift (Fail ErrInvalidShare)
         else ret tt)
      h
    = (if forallb (fun r => (length (cell h r) =? size)%nat) rest
       then Ok tt else Fail ErrInvalidShare, h).
Proof.
  induction rest as [|r rest IH]; intros pre Hs.
  - reflexivity.
  - simpl for_heap. unfold bindM at 1. unfold bindM at 1.
    unfold lift at 1. rewrite Hs at 1. rewrite load_app.
    unfold bindM at 1. unfold len at 1.
    replace (Z.of_nat (length (cell h r)) =? Z.of_nat size)%Z
      with (length (cell h r) =? size)%nat.
    + simpl forallb.
      destruct (length (cell h r) =? size)%nat; simpl.
      * replace (S (length pre)) with (length (pre ++ [r]))
          by (rewrite length_app; simpl; lia).
        apply IH. rewrite Hs. now rewrite <- app_assoc.
      * reflexivity.
    + destruct (Nat.eqb_spec (length (cell h r)) size) as [-> | Hne].
      * symmetry. apply Z.eqb_refl.
      * symmetry. apply Z.eqb_neq. lia.
Qed.

(** The loops that copy byte [k] of every share into a local array. *)
Lemma gather_loop (pre post : heap) (u : ref) (k : nat) :
  u = (length h + length pre)%nat ->
  forall rest done c1 c2,
    shares = done ++ rest ->
    Forall (fun r => (r < length h)%nat /\ (k < length (cell h r))%nat) rest ->
    length c1 = length done -> length c2 = length rest ->
    for_heap (length done) (length rest)
      (fun i =>
         si <~ lift (load shares i) ;;
         x <~ rd si k ;;
         wr u i x)
      (h ++ pre ++ (c1 ++ c2) :: post)
    = (Ok tt,
       h ++ pre ++ (c1 ++ map (fun r => nth k (cell h r) x00) rest) :: post).
Proof.
  intros Hu.
  induction rest as [|r rest IH]; intros done c1 c2 Hs Hall Hc1 Hc2.
  - destruct c2; [reflexivity | discriminate].
  - destruct c2 as [|y c2]; [discriminate|].
    apply Forall_cons_iff in Hall. destruct Hall as [[Hr Hk] Hall'].
    simpl for_heap. unfold bindM at 1. unfold bindM at 1.
    unfold lift at 1. rewrite Hs at 1. rewrite load_app.
    unfold bindM at 1.
    rewrite (@rd_old h _ r k Hr Hk).
    rewrite (@wr_new h pre post c1 c2 y _ u _ Hu (eq_sym Hc1)).
    replace (S (length done)) with (length (done ++ [r]))
      by (rewrite length_app; simpl; lia).
    replace (c1 ++ nth k (cell h r) x00 :: c2)
      with ((c1 ++ [nth k (cell h r) x00]) ++ c2)
      by (now rewrite <- app_assoc).
    rewrite IH.
    + simpl map. now rewrite <- app_assoc.
    + rewrite Hs. now rewrite <- app_assoc.
    + assumption.
    + rewrite !length_app. simpl. lia.
    + simpl in Hc2. lia.
Qed.

Lemma gather_all (pre post : heap) (u : ref) (k : nat) (c : list byte) :
  u = (length h + length pre)%nat ->
  Forall (fun r => (r < length h)%nat /\ (k < length (cell h r))%nat) shares ->
  length c = length shares ->
  for_heap 0 (length shares)
    (fun i =>
       si <~ lift (load shares i) ;;
       x <~ rd si k ;;
       wr u i x)
    (h ++ pre ++ c :: post)
  = (Ok tt, h ++ pre ++ column k ss :: post).
Proof.
  intros Hu Hall Hc.
  pose proof (@gather_loop pre post u k Hu shares [] [] c eq_refl Hall eq_refl Hc)
    as H.
  simpl in H. rewrite H. unfold column. now rewrite map_map.
Qed.

Lemma contents_new (pre post : heap) (c : list byte) (r : ref) :
  r = (length h + length pre)%nat ->
  contents r (h ++ pre ++ c :: post) = (Ok c, h ++ pre ++ c :: post).
Proof.
  intros Hr. unfold contents. now rewrite (@cell_new h pre post c r Hr).
Qed.

Lemma column_length (k : nat) : length (column k ss) = length shares.
Proof. unfold column. now rewrite !length_map. Qed.

Local Notation "'vals'" := (recovered (map (cell h) shares)).

Lemma vals_length (j : nat) : length (vals j) = j.
Proof. unfold recovered. now rewrite length_map, length_seq. Qed.

Variable m : nat.
Hypothesis Hshares :
  Forall (fun r => (r < length h)%nat /\ length (cell h r) = S m) shares.

Lemma shares_readable (k : nat) :
  (k <= m)%nat ->
  Forall (fun r => (r < length h)%nat /\ (k < length (cell h r))%nat) shares.
Proof.
  intros Hk. eapply Forall_impl; [|exact Hshares].
  simpl. intros r [Hr Hl]. split; [assumption | lia].
Qed.

Variables u v s : ref.
Hypothesis Hu : u = length h.
Hypothesis Hv : v = (length h + 1)%nat.
Hypothesis Hs : s = (length h + 2)%nat.

(** One round of the main loop: gather column [j+1], interpolate, store. *)
Lemma secret_step (j : nat) (cv rest : list byte) :
  (j < m)%nat -> length cv = length shares ->
  (_ <~ for_heap 0 (length shares)
          (fun i =>
             si <~ lift (load shares i) ;;
             y <~ rd si (j + 1) ;;
             wr v i y) ;;
   us <~ contents u ;;
   vs <~ contents v ;;
   r <~ lift (interpolate us vs) ;;
   wr s j r)
    (h ++ [column 0 ss; cv; vals j ++ x00 :: rest])
  = (Ok tt,
     h ++ [column 0 ss; column (j + 1) ss; vals (S j) ++ rest]).
Proof.
  intros Hj Hcv.
  assert (Hu' : u = (length h + length (@nil (list byte)))%nat)
    by (simpl; lia).
  assert (Hv' : v = (length h + length [column 0 ss])%nat)
    by (simpl; lia).
  rewrite (@bindM_ok _ _ _ _ _ _ _
             (@gather_all [column 0 ss] [vals j ++ x00 :: rest] v (j + 1) cv
                          Hv' (@shares_readable (j + 1) ltac:(lia)) Hcv)).
  rewrite (@bindM_ok _ _ _ _ _ _ _
             (@contents_new [] [column (j + 1) ss; vals j ++ x00 :: rest]
                            (column 0 ss) u Hu')).
  rewrite (@bindM_ok _ _ _ _ _ _ _
             (@contents_new [column 0 ss] [vals j ++ x00 :: rest]
                            (column (j + 1) ss) v Hv')).
  unfold bindM at 1. unfold lift at 1.
  rewrite interpolate_ok by (rewrite !column_length; lia).
  assert (Hs' : s = (length h
                     + length [column 0 ss; column (j + 1) ss])%nat)
    by (simpl; lia).
  pose proof (@wr_new h [column 0 ss; column (j + 1) ss] [] (vals j) rest
                      x00 (interp_fold (column 0 ss) (column (j + 1) ss))
                      s j Hs' (eq_sym (vals_length j))) as Hw.
  cbn [app] in Hw. cbn [app]. rewrite Hw.
  unfold recovered. rewrite seq_S, map_app. cbn [map app].
  now rewrite <- app_assoc.
Qed.

Lemma secret_loop :
  forall cnt j0 cv,
    (j0 + cnt = m)%nat -> length cv = length shares ->
    exists cv',
      length cv' = length shares
      /\ for_heap j0 cnt
           (fun j =>
              _ <~ for_heap 0 (length shares)
                     (fun i =>
                        si <~ lift (load shares i) ;;
                        y <~ rd si (j + 1) ;;
                        wr v i y) ;;
              us <~ contents u ;;
              vs <~ contents v ;;
              r <~ lift (interpolate us vs) ;;
              wr s j r)
           (h ++ [column 0 ss; cv; vals j0 ++ repeat x00 cnt])
         = (Ok tt, h ++ [column 0 ss; cv'; vals m]).
Proof.
  induction cnt as [|cnt IH]; intros j0 cv Hm Hcv.
  - exists cv. split; [assumption|].
    simpl. rewrite app_nil_r. replace j0 with m by lia. reflexivity.
  - simpl for_heap. simpl repeat.
    rewrite (@bindM_ok _ _ _ _ _ _ _
               (@secret_step j0 cv (repeat x00 cnt) ltac:(lia) Hcv)).
    apply IH; [lia | apply column_length].
Qed.

End Recovery.

(** ** [RecoverSecret] in closed form *)

Lemma forallb_map (A B : Type) (f : B -> bool) (g : A -> B) (l : list A) :
  forallb f (map g l) = forallb (fun x => f (g x)) l.
Proof.
  induction l as [|x l IH]; simpl; [reflexivity | now rewrite IH].
Qed.

Lemma make_bytes_run (h l : heap) (n : nat) :
  make_bytes (Z.of_nat n) (h ++ l)
  = (Ok (length h + length l)%nat, h ++ l ++ [repeat x00 n]).
Proof.
  unfold make_bytes.
  replace (Z.of_nat n <? 0)%Z with false by (symmetry; apply Z.ltb_ge; lia).
  now rewrite Nat2Z.id, length_app, app_assoc.
Qed.

Lemma make_bytes_run0 (h : heap) (n : nat) :
  make_bytes (Z.of_nat n) h = (Ok (length h), h ++ [repeat x00 n]).
Proof.
  pose proof (make_bytes_run h [] n) as H.
  rewrite app_nil_r in H. simpl in H. now rewrite Nat.add_0_r in H.
Qed.

Lemma recover_check_none (ss : ShareSet) :
  recover_check ss = None ->
  (2 <= length ss <= 255)%nat
  /\ (33 <= Z.of_nat (length (hd [] ss)) <= 65535)%Z
  /\ Forall (fun s => length s = length (hd [] ss)) ss.
Proof.
  unfold recover_check, MinShares, MaxShares, MinShareBytes, MaxShareBytes,
    MinSecretBytes, MaxSecretBytes.
  destruct (Z.ltb_spec (Z.of_nat (length ss)) 2); [discriminate|].
  destruct (Z.gtb_spec (Z.of_nat (length ss)) 255); [discriminate|].
  destruct (Z.ltb_spec (Z.of_nat (length (hd [] ss))) (32 + 1));
    [discriminate|].
  destruct (Z.gtb_spec (Z.of_nat (length (hd [] ss))) (65534 + 1));
    [discriminate|].
  match goal with
  | |- context [forallb ?f (tl ss)] => destruct (forallb f (tl ss)) eqn:Hall
  end; [|discriminate].
  intros _. repeat split; try lia.
  destruct ss as [|s0 rest]; [constructor|].
  constructor; [reflexivity|].
  apply Forall_forall. intros s Hs.
  rewrite forallb_forall in Hall. simpl in Hall.
  now apply Nat.eqb_eq, Hall.
Qed.

Lemma RecoverSecret_run (h : heap) (shares : list ref) :
  Forall (fun r => (r < length h)%nat) shares ->
  RecoverSecret shares h
  = match recover_check (map (cell h) shares) with
    | Some e => (Fail e, h)
    | None =>
        (Ok (length h + 2)%nat,
         h ++ [repeat xff (length shares); repeat xff (length shares);
               recover_spec (map (cell h) shares)])
    end.
Proof.
  intros Hvalid.
  destruct (recover_check (map (cell h) shares)) as [e|] eqn:Hchk.
  - (* a check fails *)
    revert Hchk. unfold RecoverSecret, recover_check. rewrite length_map.
    destruct (Z.of_nat (length shares) <? MinShares)%Z eqn:E1;
      [intros [= <-]; reflexivity|].
    destruct (Z.of_nat (length shares) >? MaxShares)%Z;
      [intros [= <-]; reflexivity|].
    destruct shares as [|s0 rest]; [discriminate E1|].
    simpl hd. simpl tl.
    unfold bindM at 1. unfold lift at 1.
    change (load (s0 :: rest) 0) with (Ok s0).
    unfold bindM at 1. unfold len at 1.
    destruct (Z.of_nat (length (cell h s0)) <? MinShareBytes)%Z;
      [intros [= <-]; reflexivity|].
    destruct (Z.of_nat (length (cell h s0)) >? MaxShareBytes)%Z;
      [intros [= <-]; reflexivity|].
    rewrite forallb_map.
    pose proof (@check_loop h (s0 :: rest) (length (cell h s0)) rest [s0]
                            eq_refl) as Hc.
    change (length [s0]) with 1%nat in Hc.
    replace (length (s0 :: rest) - 1)%nat with (length rest) by (simpl; lia).
    match goal with
    | |- context [forallb ?f rest] => destruct (forallb f rest)
    end; [discriminate|].
    intros [= <-].
    now rewrite (@bindM_fail _ _ _ _ _ _ _ Hc).
  - (* all checks pass *)
    pose proof (recover_check_none _ Hchk) as (Hn & Hsize & Hlens).
    revert Hchk. unfold RecoverSecret, recover_check. rewrite length_map.
    rewrite length_map in Hn.
    destruct (Z.of_nat (length shares) <? MinShares)%Z eqn:E1; [discriminate|].
    destruct (Z.of_nat (length shares) >? MaxShares)%Z; [discriminate|].
    destruct shares as [|s0 rest] eqn:Hsh; [discriminate E1|].
    rewrite <- Hsh in *.
    assert (Hhd : hd [] (map (cell h) shares) = cell h s0)
      by (now rewrite Hsh).
    rewrite Hhd in *.
    set (size := length (cell h s0)) in *.
    unfold bindM at 1. unfold lift at 1.
    replace (load shares 0) with (Ok s0) by (now rewrite Hsh).
    unfold bindM at 1. unfold len at 1. fold size.
    destruct (Z.of_nat size <? MinShareBytes)%Z; [discriminate|].
    destruct (Z.of_nat size >? MaxShareBytes)%Z; [discriminate|].
    assert (Htl : @tl Share (map (cell h) shares) = map (cell h) rest)
      by (now rewrite Hsh).
    rewrite Htl.
    rewrite forallb_map.
    pose proof (@check_loop h shares size rest [s0] Hsh) as Hc.
    replace (length shares - 1)%nat with (length rest)
      by (rewrite Hsh; simpl; lia).
    change (length [s0]) with 1%nat in Hc.
    match goal with
    | |- context [forallb ?f rest] => destruct (forallb f rest)
    end; [|discriminate].
    intros _.
    rewrite (@bindM_ok _ _ _ _ _ _ _ Hc).
    (* the shares are readable arrays of one length *)
    set (m := (size - 1)%nat).
    assert (Hshares :
              Forall (fun r => (r < length h)%nat /\ length (cell h r) = S m)
                     shares).
    { apply Forall_forall. intros r Hr. split.
      - rewrite Forall_forall in Hvalid. now apply Hvalid.
      - rewrite Forall_forall in Hlens.
        rewrite (Hlens (cell h r)) by (now apply in_map).
        fold size. unfold m. lia. }
    (* u *)
    rewrite (@bindM_ok _ _ _ _ _ _ _ (make_bytes_run0 h (length shares))).
    set (n := length shares) in *.
    set (col0 := column 0 (map (cell h) shares)).
    assert (Hcol0 : length col0 = n) by (apply column_length).
    destruct (@secret_loop h shares m Hshares (length h) (length h + 1)%nat
                           (length h + 2)%nat eq_refl eq_refl eq_refl
                           m 0%nat (repeat x00 n) eq_refl
                           (repeat_length x00 n))
      as (cv & Hcv & Hloop).
    fold n in Hcv.
    apply defer_run
      with (h1 := h ++ [col0; repeat xff n;
                        recover_spec (map (cell h) shares)]).
    + rewrite (@bindM_ok _ _ _ _ _ _ _
                 (@gather_all h shares [] [] (length h) 0 (repeat x00 n)
                              ltac:(simpl; lia)
                              (@shares_readable h shares m Hshares 0
                                                ltac:(lia))
                              (repeat_length x00 n))).
      cbn [app]. fold col0.
      rewrite (@bindM_ok _ _ _ _ _ _ _ (make_bytes_run h [col0] n)).
      cbn [app length].
      apply defer_run
        with (h1 := h ++ [col0; cv; recover_spec (map (cell h) shares)]).
      * replace (Z.of_nat size - 1)%Z with (Z.of_nat m) by (unfold m; lia).
        rewrite (@bindM_ok _ _ _ _ _ _ _
                   (make_bytes_run h [col0; repeat x00 n] m)).
        cbn [app length]. rewrite Nat2Z.id.
        rewrite (@bindM_ok _ _ _ _ _ _ _ Hloop).
        unfold ret, recover_spec. rewrite Hhd. reflexivity.
      * pose proof (@erase_new h [col0]
                               [recover_spec (map (cell h) shares)] cv
                               (length h + 1)%nat eq_refl) as He.
        cbn [app] in He. rewrite He. now rewrite Hcv.
    + pose proof (@erase_new h [] [repeat xff n;
                                   recover_spec (map (cell h) shares)] col0
                             (length h) ltac:(simpl; lia)) as He.
      cbn [app] in He. rewrite He. now rewrite Hcol0.
Qed.

Lemma recover_run (h : heap) (shares : list ref) :
  Forall (fun r => (r < length h)%nat) shares ->
  recover h shares
  = match recover_check (map (cell h) shares) with
    | Some e => Fail e
    | None => Ok (recover_spec (map (cell h) shares))
    end.
Proof.
  intros Hvalid. unfold recover.
  rewrite RecoverSecret_run by assumption.
  destruct (recover_check (map (cell h) shares)); [reflexivity|].
  f_equal.
  exact (@cell_new h [repeat xff (length shares); repeat xff (length shares)]
                   [] _ (length h + 2)%nat eq_refl).
Qed.

Lemma cells_of_list (ss : ShareSet) :
  map (cell ss) (seq 0 (length ss)) = ss.
Proof.
  exact (eq_trans (@map_nth_seq _ _ (fun s : list byte => s) ss [])
                  (map_id ss)).
Qed.

Lemma RecoverSecretOf_run (ss : ShareSet) :
  RecoverSecretOf ss
  = match recover_check ss with
    | Some e => Fail e
    | None => Ok (recover_spec ss)
    end.
Proof.
  unfold RecoverSecretOf. rewrite recover_run.
  - now rewrite cells_of_list.
  - apply Forall_forall. intros r Hr. apply in_seq in Hr.
    destruct Hr as [_ Hr]. exact Hr.
Qed.

(** ** Facts used by several results *)

Lemma NoDup_map_in (A B : Type) (f : A -> B) (l : list A) :
  (forall x y, In x l -> In y l -> f x = f y -> x = y) ->
  NoDup l -> NoDup (map f l).
Proof.
  induction l as [|a l IH]; intros Hinj Hnd; simpl.
  - constructor.
  - inversion Hnd as [|? ? Hnotin Hnd']; subst.
    constructor.
    + intros Hin. apply in_map_iff in Hin. destruct Hin as (y & Hy & Hin).
      assert (y = a) by (apply Hinj; [now right | now left | assumption]).
      subst y. contradiction.
    + apply IH; [|assumption].
      intros x y Hx Hy. apply Hinj; now right.
Qed.

Lemma xprod_zero (l : list byte) : In x00 l -> xprod l = x00.
Proof.
  induction l as [|x l IH]; intros Hin; simpl.
  - contradiction.
  - destruct Hin as [-> | Hin].
    + apply mul_0_l.
    + rewrite IH by assumption. apply mul_0_r.
Qed.

Lemma eval_single (x s : byte) : eval x [s] = s.
Proof. rewrite eval_cons, eval_nil. ring. Qed.

Lemma nth_seq_id (l : list byte) :
  map (fun k => nth k l x00) (seq 0 (length l)) = l.
Proof.
  exact (eq_trans (@map_nth_seq _ _ (fun b : byte => b) l x00) (map_id l)).
Qed.

(** What a successful [CreateShares] has done. *)
Lemma CreateShares_ok (src : entropy) (secret : list byte) (n t : Z)
      (shares : ShareSet) :
  CreateShares src secret n t = Ok shares ->
  (32 <= Z.of_nat (length secret) <= 65534)%Z
  /\ (2 <= n <= 255)%Z /\ (1 <= t <= n)%Z
  /\ shares = shares_spec src (Z.to_nat t) secret (Z.to_nat n).
Proof.
  intros Hok.
  destruct (validate (length secret) n t) as [e|] eqn:Hv.
  - rewrite (CreateShares_invalid src secret _ _ Hv) in Hok. discriminate.
  - pose proof (validate_none _ _ _ Hv) as (Hs & Hn & Ht).
    rewrite (CreateShares_valid src secret _ _ Hv) in Hok.
    destruct (Z.ltb_spec t 0); [discriminate|].
    destruct (Z.eqb_spec t 0).
    + discriminate.
    + destruct (entropy_ok src (length secret)); [|discriminate].
      injection Hok as <-. repeat split; lia.
Qed.

Lemma shares_spec_in (src : entropy) (t : nat) (secret : list byte) (n : nat)
      (s : Share) :
  In s (shares_spec src t secret n) ->
  s = share_of src t secret (hd x00 s).
Proof.
  unfold shares_spec. intros Hin. apply in_map_iff in Hin.
  destruct Hin as (j & <- & _). reflexivity.
Qed.

Lemma shares_spec_length (src : entropy) (t : nat) (secret : list byte)
      (n : nat) :
  length (shares_spec src t secret n) = n.
Proof. unfold shares_spec. now rewrite length_map, length_seq. Qed.

Lemma share_of_length (src : entropy) (t : nat) (secret : list byte)
      (x : byte) :
  length (share_of src t secret x) = S (length secret).
Proof. unfold share_of. simpl. now rewrite length_map, length_seq. Qed.

Lemma share_of_payload (src : entropy) (t : nat) (secret : list byte)
      (x : byte) (k : nat) :
  (k < length secret)%nat ->
  nth (k + 1) (share_of src t secret x) x00
  = eval x (coeffs src t secret k).
Proof.
  intros Hk. unfold share_of. rewrite Nat.add_1_r. simpl nth.
  rewrite (nth_indep _ x00 (eval x (coeffs src t secret 0)))
    by (rewrite length_map, length_seq; lia).
  rewrite (map_nth (fun k => eval x (coeffs src t secret k))).
  now rewrite seq_nth by lia.
Qed.

(** Recovery from distinct shares of one generation. *)
Lemma recover_spec_generated (src : entropy) (t : nat) (secret : list byte)
      (sub : ShareSet) :
  (1 <= t <= length sub)%nat ->
  (forall s, In s sub -> s = share_of src t secret (hd x00 s)) ->
  NoDup (map (hd x00) sub) ->
  recover_spec sub = secret.
Proof.
  intros Ht Hsub Hnd.
  set (us := map (hd x00) sub).
  assert (Hcol0 : column 0 sub = us).
  { unfold column, us. apply map_ext_in. intros s Hs.
    rewrite (Hsub s Hs). reflexivity. }
  assert (Hcol : forall k, (k < length secret)%nat ->
                           column (k + 1) sub
                           = map (fun x => eval x (coeffs src t secret k)) us).
  { intros k Hk. unfold column, us. rewrite map_map.
    apply map_ext_in. intros s Hs.
    rewrite (Hsub s Hs) at 1. now apply share_of_payload. }
  assert (Hm : (length (hd [] sub) - 1)%nat = length secret).
  { destruct sub as [|s0 sub']; [simpl in Ht; lia|]. simpl hd.
    rewrite (Hsub s0 (or_introl eq_refl)), share_of_length. lia. }
  unfold recover_spec, recovered. rewrite Hm, Hcol0.
  rewrite <- (nth_seq_id secret) at 2.
  apply map_ext_in. intros k Hk. apply in_seq in Hk.
  rewrite Hcol by lia.
  rewrite interp_fold_lag, lag_eval.
  - rewrite eval_at_zero. apply coeffs_hd. lia.
  - exact Hnd.
  - rewrite coeffs_length. unfold us. rewrite length_map. apply Ht.
Qed.

Lemma recover_check_pass (ss : ShareSet) (size : Z) :
  (2 <= length ss <= 255)%nat ->
  (33 <= size <= 65535)%Z ->
  Forall (fun s => Z.of_nat (length s) = size) ss ->
  recover_check ss = None.
Proof.
  intros Hn Hsize Hall.
  destruct ss as [|s0 rest]; [simpl in Hn; lia|].
  apply Forall_cons_iff in Hall. destruct Hall as [H0 Hrest].
  unfold recover_check, MinShares, MaxShares, MinShareBytes, MaxShareBytes,
    MinSecretBytes, MaxSecretBytes.
  simpl hd. simpl tl.
  destruct (Z.ltb_spec (Z.of_nat (length (s0 :: rest))) 2); [lia|].
  destruct (Z.gtb_spec (Z.of_nat (length (s0 :: rest))) 255); [lia|].
  destruct (Z.ltb_spec (Z.of_nat (length s0)) (32 + 1)); [lia|].
  destruct (Z.gtb_spec (Z.of_nat (length s0)) (65534 + 1)); [lia|].
  match goal with
  | |- context [forallb ?f rest] => replace (forallb f rest) with true
  end; [reflexivity|].
  symmetry. apply forallb_forall. intros s Hs. apply Nat.eqb_eq.
  rewrite Forall_forall in Hrest. specialize (Hrest s Hs). lia.
Qed.

Lemma hd_cells (h : heap) (shares : list ref) :
  shares <> [] ->
  hd [] (map (cell h) shares) = cell h (hd 0%nat shares).
Proof. destruct shares; [congruence | reflexivity]. Qed.

(** [RecoverSecret] never panics on share arrays that exist. *)
Lemma RecoverSecret_no_panic (h : heap) (shares : list ref) (p : panic) :
  Forall (fun r => (r < length h)%nat) shares ->
  fst (RecoverSecret shares h) <> Panic p.
Proof.
  intros Hvalid. rewrite RecoverSecret_run by assumption.
  destruct (recover_check (map (cell h) shares)); discriminate.
Qed.

(** With inputs that pass validation, a zero threshold panics at the first
    write to the empty coefficient buffer, and a negative one panics in
    [make], whatever the entropy source does. *)
Lemma CreateShares_nonpositive_threshold
      (src : entropy) (secret : list byte) (n t : Z) :
  validate (length secret) n t = None ->
  (t <= 0)%Z ->
  exists p, CreateShares src secret n t = Panic p.
Proof.
  intros Hv Ht. rewrite CreateShares_valid by assumption.
  destruct (Z.ltb_spec t 0); [eexists; reflexivity|].
  destruct (Z.eqb_spec t 0); [eexists; reflexivity | lia].
Qed.

(** ** The claims *)

(** C1. Whenever [CreateShares] returns a share set without error, every
    duplicate-free selection [sub] of its shares, in any order, with at least
    [max threshold 2] members has distinct index bytes, and [RecoverSecret]
    applied to it, wherever the selected shares are stored, returns exactly
    the original secret. *)
Theorem C1_recover_generated_shares
        (src : entropy) (secret : list byte) (sharesCount threshold : Z)
        (shares sub : ShareSet) :
  CreateShares src secret sharesCount threshold = Ok shares ->
  NoDup sub ->
  incl sub shares ->
  (Z.max threshold 2 <= Z.of_nat (length sub))%Z ->
  NoDup (map (hd x00) sub)
  /\ forall (h : heap) (refs : list ref),
      Forall (fun r => (r < length h)%nat) refs ->
      map (cell h) refs = sub ->
      recover h refs = Ok secret.
Proof.
  intros Hok Hnd Hincl Hsize.
  destruct (CreateShares_ok _ _ _ _ Hok) as (Hs & Hn & Ht & ->).
  set (t := Z.to_nat threshold) in *.
  set (n := Z.to_nat sharesCount) in *.
  assert (Hsub : forall s, In s sub ->
                           s = share_of src t secret (hd x00 s)).
  { intros s Hin. apply (@shares_spec_in src t secret n). now apply Hincl. }
  assert (Hidx : NoDup (map (hd x00) sub)).
  { apply NoDup_map_in; [|assumption].
    intros x y Hx Hy Heq.
    rewrite (Hsub x Hx), (Hsub y Hy), Heq. reflexivity. }
  split; [exact Hidx|].
  intros h refs Hvalid Hmap.
  rewrite recover_run by assumption. rewrite Hmap.
  assert (Hlen : (length sub <= n)%nat).
  { rewrite <- (shares_spec_length src t secret n).
    now apply NoDup_incl_length. }
  rewrite (@recover_check_pass sub (Z.of_nat (S (length secret)))).
  - f_equal. apply (@recover_spec_generated src t); try assumption.
    unfold t. lia.
  - unfold n in Hlen. lia.
  - lia.
  - apply Forall_forall. intros s Hin.
    rewrite (Hsub s Hin), share_of_length. reflexivity.
Qed.

Lemma C1_witness :
  NoDup (map (hd x00) sample_subset)
  /\ forall (h : heap) (refs : list ref),
      Forall (fun r => (r < length h)%nat) refs ->
      map (cell h) refs = sample_subset ->
      recover h refs = Ok sample_secret.
Proof.
  apply (@C1_recover_generated_shares sample_entropy sample_secret 3 2
                                      sample_shares sample_subset).
  - vm_compute. reflexivity.
  - vm_compute.
    apply NoDup_cons; [intros [H | []]; discriminate H|].
    apply NoDup_cons; [intros []|]. apply NoDup_nil.
  - intros s [<- | [<- | []]]; vm_compute; tauto.
  - vm_compute. discriminate.
Defined.

(** C2. For all bytes [a], [b]: [add] is commutative and self-inverse, [mul]
    is commutative, division undoes multiplication by a non-zero byte,
    multiplying by zero gives zero and dividing by zero gives zero. *)
Theorem C2_field_laws (a b : byte) :
  add a b = add b a
  /\ add a (add a b) = b
  /\ mul a b = mul b a
  /\ (b <> x00 -> div (mul a b) b = a)
  /\ mul a x00 = x00
  /\ div a x00 = x00.
Proof.
  repeat split.
  - ring.
  - ring.
  - ring.
  - intros Hb. field. exact Hb.
  - apply mul_0_r.
  - apply div_0_r.
Qed.

Lemma C2_witness : div (mul x53 xca) xca = x53.
Proof.
  apply (proj1 (proj2 (proj2 (proj2 (C2_field_laws x53 xca))))).
  discriminate.
Defined.

(** C3, the claim as stated fails: the five checks of the specification let a
    one-byte secret through, while [CreateShares] rejects it as too short. *)
Lemma C3_counterexample :
  spec_validate (length [x74]) 2 2 = None
  /\ CreateShares sample_entropy [x74] 2 2 = Fail ErrSecretTooShort.
Proof. split; reflexivity. Qed.

(** C3, amended. [CreateShares] validates its inputs by six checks, in this
    order, the first failing one deciding the error: empty secret, secret
    shorter than 32 bytes, secret longer than 65534 bytes, fewer than 2
    shares, more than 255 shares, threshold above the share count.  An input
    with a positive threshold that passes all six is not rejected: it yields
    the share set, or the error of a failed entropy read. *)
Theorem C3_validation_order
        (src : entropy) (secret : list byte) (sharesCount threshold : Z) :
  let len := Z.of_nat (length secret) in
  let run := CreateShares src secret sharesCount threshold in
  (len = 0%Z -> run = Fail ErrSecretRequired)
  /\ ((0 < len < 32)%Z -> run = Fail ErrSecretTooShort)
  /\ ((65534 < len)%Z -> run = Fail ErrSecretTooLarge)
  /\ ((32 <= len <= 65534)%Z -> (sharesCount < 2)%Z ->
      run = Fail ErrTooFewShares)
  /\ ((32 <= len <= 65534)%Z -> (255 < sharesCount)%Z ->
      run = Fail ErrTooManyShares)
  /\ ((32 <= len <= 65534)%Z -> (2 <= sharesCount <= 255)%Z ->
      (sharesCount < threshold)%Z -> run = Fail ErrInvalidThreshold)
  /\ ((32 <= len <= 65534)%Z -> (2 <= sharesCount <= 255)%Z ->
      (1 <= threshold <= sharesCount)%Z ->
      run = if entropy_ok src (length secret)
            then Ok (shares_spec src (Z.to_nat threshold) secret
                                 (Z.to_nat sharesCount))
            else Fail ErrEntropy).
Proof.
  intros len run.
  assert (Hinv : forall e, validate (length secret) sharesCount threshold
                           = Some e -> run = Fail e)
    by (intros e; apply CreateShares_invalid).
  unfold validate, MinSecretBytes, MaxSecretBytes, MinShares, MaxShares
    in Hinv.
  fold len in Hinv.
  repeat split.
  - intros H. apply Hinv.
    destruct (Nat.eqb_spec (length secret) 0); [reflexivity | lia].
  - intros H. apply Hinv.
    destruct (Nat.eqb_spec (length secret) 0); [lia|].
    destruct (Z.ltb_spec len 32); [reflexivity | lia].
  - intros H. apply Hinv.
    destruct (Nat.eqb_spec (length secret) 0); [lia|].
    destruct (Z.ltb_spec len 32); [lia|].
    destruct (Z.gtb_spec len 65534); [reflexivity | lia].
  - intros H1 H2. apply Hinv.
    destruct (Nat.eqb_spec (length secret) 0); [lia|].
    destruct (Z.ltb_spec len 32); [lia|].
    destruct (Z.gtb_spec len 65534); [lia|].
    destruct (Z.ltb_spec sharesCount 2); [reflexivity | lia].
  - intros H1 H2. apply Hinv.
    destruct (Nat.eqb_spec (length secret) 0); [lia|].
    destruct (Z.ltb_spec len 32); [lia|].
    destruct (Z.gtb_spec len 65534); [lia|].
    destruct (Z.ltb_spec sharesCount 2); [lia|].
    destruct (Z.gtb_spec sharesCount 255); [reflexivity | lia].
  - intros H1 H2 H3. apply Hinv.
    destruct (Nat.eqb_spec (length secret) 0); [lia|].
    destruct (Z.ltb_spec len 32); [lia|].
    destruct (Z.gtb_spec len 65534); [lia|].
    destruct (Z.ltb_spec sharesCount 2); [lia|].
    destruct (Z.gtb_spec sharesCount 255); [lia|].
    destruct (Z.gtb_spec threshold sharesCount); [reflexivity | lia].
  - intros H1 H2 H3. unfold run.
    rewrite CreateShares_valid.
    + destruct (Z.ltb_spec threshold 0); [lia|].
      destruct (Z.eqb_spec threshold 0); [lia | reflexivity].
    + unfold validate, MinSecretBytes, MaxSecretBytes, MinShares, MaxShares.
      fold len.
      destruct (Nat.eqb_spec (length secret) 0); [lia|].
      destruct (Z.ltb_spec len 32); [lia|].
      destruct (Z.gtb_spec len 65534); [lia|].
      destruct (Z.ltb_spec sharesCount 2); [lia|].
      destruct (Z.gtb_spec sharesCount 255); [lia|].
      destruct (Z.gtb_spec threshold sharesCount); [lia | reflexivity].
Qed.

Lemma C3_witness :
  CreateShares sample_entropy [x74] 2 2 = Fail ErrSecretTooShort
  /\ CreateShares sample_entropy sample_secret 3 2 = Ok sample_shares.
Proof.
  pose proof (C3_validation_order sample_entropy [x74] 2 2) as H1.
  pose proof (C3_validation_order sample_entropy sample_secret 3 2) as H2.
  split.
  - apply (proj1 (proj2 H1)). simpl. lia.
  - rewrite (proj2 (proj2 (proj2 (proj2 (proj2 (proj2 H2)))))).
    + reflexivity.
    + simpl. lia.
    + lia.
    + lia.
Defined.

(** C4. [RecoverSecret] checks its input in this order: fewer than 2 shares,
    more than 255 shares, a first share shorter than 33 or longer than 65535
    bytes, a further share whose length differs from the first; an input that
    passes all checks yields a recovered secret and no error. *)
Theorem C4_recover_validation (h : heap) (shares : list ref) :
  Forall (fun r => (r < length h)%nat) shares ->
  let n := Z.of_nat (length shares) in
  let size := Z.of_nat (length (cell h (hd 0%nat shares))) in
  ((n < 2)%Z -> recover h shares = Fail ErrTooFewShares)
  /\ ((255 < n)%Z -> recover h shares = Fail ErrTooManyShares)
  /\ ((2 <= n <= 255)%Z -> (size < 33 \/ 65535 < size)%Z ->
      recover h shares = Fail ErrInvalidShare)
  /\ ((2 <= n <= 255)%Z -> (33 <= size <= 65535)%Z ->
      Exists (fun r => Z.of_nat (length (cell h r)) <> size) (tl shares) ->
      recover h shares = Fail ErrInvalidShare)
  /\ ((2 <= n <= 255)%Z -> (33 <= size <= 65535)%Z ->
      Forall (fun r => Z.of_nat (length (cell h r)) = size) (tl shares) ->
      exists secret, recover h shares = Ok secret).
Proof.
  intros Hvalid n size.
  rewrite recover_run by assumption.
  unfold recover_check, MinShares, MaxShares, MinShareBytes, MaxShareBytes,
    MinSecretBytes, MaxSecretBytes.
  rewrite length_map. fold n.
  repeat split.
  - intros Hn. destruct (Z.ltb_spec n 2); [reflexivity | lia].
  - intros Hn. destruct (Z.ltb_spec n 2); [lia|].
    destruct (Z.gtb_spec n 255); [reflexivity | lia].
  - intros Hn Hsize. destruct (Z.ltb_spec n 2); [lia|].
    destruct (Z.gtb_spec n 255); [lia|].
    rewrite hd_cells by (intros ->; simpl in n; lia). fold size.
    destruct (Z.ltb_spec size (32 + 1)); [reflexivity|].
    destruct (Z.gtb_spec size (65534 + 1)); [reflexivity | lia].
  - intros Hn Hsize Hex. destruct (Z.ltb_spec n 2); [lia|].
    destruct (Z.gtb_spec n 255); [lia|].
    rewrite hd_cells by (intros ->; simpl in n; lia). fold size.
    destruct (Z.ltb_spec size (32 + 1)); [lia|].
    destruct (Z.gtb_spec size (65534 + 1)); [lia|].
    match goal with
    | |- context [forallb ?f ?l] => destruct (forallb f l) eqn:Hall
    end; [|reflexivity].
    exfalso. rewrite forallb_forall in Hall.
    apply Exists_exists in Hex. destruct Hex as (r & Hr & Hne).
    apply Hne. unfold size.
    assert (Hin : In (cell h r) (tl (map (cell h) shares))).
    { destruct shares as [|s0 rest]; [contradiction|]. simpl in *.
      now apply in_map. }
    specialize (Hall _ Hin). apply Nat.eqb_eq in Hall. now rewrite Hall.
  - intros Hn Hsize Hall. destruct (Z.ltb_spec n 2); [lia|].
    destruct (Z.gtb_spec n 255); [lia|].
    rewrite hd_cells by (intros ->; simpl in n; lia). fold size.
    destruct (Z.ltb_spec size (32 + 1)); [lia|].
    destruct (Z.gtb_spec size (65534 + 1)); [lia|].
    match goal with
    | |- context [forallb ?f ?l] => replace (forallb f l) with true
    end; [eexists; reflexivity|].
    symmetry. apply forallb_forall. intros s Hs.
    destruct shares as [|s0 rest]; [contradiction|]. simpl in *.
    apply in_map_iff in Hs. destruct Hs as (r & <- & Hr).
    rewrite Forall_forall in Hall. specialize (Hall r Hr).
    apply Nat.eqb_eq. unfold size in Hall. lia.
Qed.

Lemma C4_witness :
  exists secret, recover [kat32_share1; kat32_share2] [0; 1]%nat = Ok secret.
Proof.
  assert (Hvalid : Forall (fun r => (r < length [kat32_share1; kat32_share2])%nat)
                          [0; 1]%nat)
    by (repeat constructor).
  apply (proj2 (proj2 (proj2 (proj2
           (C4_recover_validation [kat32_share1; kat32_share2] Hvalid))))).
  - simpl. lia.
  - simpl. lia.
  - repeat constructor.
Defined.

(** C5, the claim as stated fails: on the two 6-byte shares [RecoverSecret]
    does not return the 5 secret bytes. *)
Lemma C5_counterexample :
  RecoverSecretOf [kat_share1; kat_share2] <> Ok kat_secret.
Proof. vm_compute. discriminate. Qed.

(** C5, amended. [RecoverSecret] rejects the two 6-byte shares with index
    bytes 1 and 2 as invalid shares, because they are shorter than 33 bytes;
    the interpolation it runs for each payload offset, applied to these two
    shares, yields the bytes 74 65 73 74 00. *)
Theorem C5_known_answer :
  RecoverSecretOf [kat_share1; kat_share2] = Fail ErrInvalidShare
  /\ map (fun j => interpolate (column 0 [kat_share1; kat_share2])
                               (column (j + 1) [kat_share1; kat_share2]))
         (seq 0 5)
     = map Ok kat_secret.
Proof. split; vm_compute; reflexivity. Qed.

(** The current known-answer test of the package: 33-byte shares recover the
    32-byte secret. *)
Lemma TestKat_recovers :
  RecoverSecretOf [kat32_share1; kat32_share2] = Ok kat32_secret.
Proof. vm_compute. reflexivity. Qed.

(** C6, the code departs from the claim: with a secret and a share count that
    pass validation, a zero threshold makes [CreateShares] panic on the empty
    coefficient buffer, and a negative threshold makes [make] panic. *)
Theorem C6_nonpositive_threshold_panics :
  CreateShares sample_entropy sample_secret 2 0 = Panic IndexOutOfRange
  /\ CreateShares sample_entropy sample_secret 2 (-1) = Panic MakeSliceLen.
Proof. split; vm_compute; reflexivity. Qed.

(** C7. A share set of 2 to 255 share arrays of one length between 33 and
    65535 in which two shares carry the same index byte is still recovered
    without error: the factor of the Lagrange function that pairs the two
    shares is a division by zero, which yields zero, so the whole Lagrange
    function of that share is zero. *)
Theorem C7_duplicate_index (h : heap) (shares : list ref) (size : Z)
        (i j : nat) :
  Forall (fun r => (r < length h)%nat) shares ->
  (2 <= length shares <= 255)%nat ->
  (33 <= size <= 65535)%Z ->
  Forall (fun r => Z.of_nat (length (cell h r)) = size) shares ->
  (i < length shares)%nat -> (j < length shares)%nat -> i <> j ->
  let u := column 0 (map (cell h) shares) in
  nth i u x00 = nth j u x00 ->
  (exists secret, recover h shares = Ok secret)
  /\ div (nth j u x00) (add (nth j u x00) (nth i u x00)) = x00
  /\ poly i u = Ok x00.
Proof.
  intros Hvalid Hn Hsize Hall Hi Hj Hij u Hdup.
  assert (Hu : length u = length shares) by (apply column_length).
  repeat split.
  - rewrite recover_run by assumption.
    rewrite (@recover_check_pass (map (cell h) shares) size).
    + eexists; reflexivity.
    + now rewrite length_map.
    + assumption.
    + apply Forall_forall. intros s Hs. apply in_map_iff in Hs.
      destruct Hs as (r & <- & Hr).
      rewrite Forall_forall in Hall. now apply Hall.
  - rewrite Hdup, add_self. apply div_0_r.
  - rewrite poly_ok by lia. f_equal.
    rewrite poly_fold_xprod. apply xprod_zero.
    apply in_map_iff. exists j. split.
    + destruct (Nat.eqb_spec j i); [congruence|].
      unfold term. rewrite Hdup, add_self. apply div_0_r.
    + apply in_seq. lia.
Qed.

Lemma C7_witness :
  (exists secret,
      recover [kat32_share1; kat32_share2] [0; 1; 0]%nat = Ok secret)
  /\ poly 0 (column 0 (map (cell [kat32_share1; kat32_share2])
                           [0; 1; 0]%nat)) = Ok x00.
Proof.
  assert (Hvalid : Forall (fun r => (r < length [kat32_share1; kat32_share2])%nat)
                          [0; 1; 0]%nat)
    by (repeat constructor).
  destruct (@C7_duplicate_index [kat32_share1; kat32_share2] [0; 1; 0]%nat
                                33 0 2 Hvalid) as (H1 & _ & H3).
  - simpl. lia.
  - lia.
  - repeat constructor.
  - simpl. lia.
  - simpl. lia.
  - discriminate.
  - reflexivity.
  - split; assumption.
Defined.

(** C8, the claim as stated fails: the table [expOp] has fewer than 511
    entries. *)
Lemma C8_counterexample : ~ (511 <= length expOp)%nat.
Proof. rewrite expOp_length. lia. Qed.

(** C8, amended. The table [expOp] has 510 entries, the exponentiation
    sequence written twice; for non-zero bytes the index that [mul] uses is
    at most 508 and the index that [div] uses is between 1 and 509, so both
    lie inside the table and no reduction modulo 255 is needed. *)
Theorem C8_table_indices (a b : byte) :
  a <> x00 -> b <> x00 ->
  length expOp = 510%nat
  /\ (0 <= mul_index a b <= 508)%Z
  /\ (1 <= div_index a b <= 509)%Z
  /\ (mul_index a b < Z.of_nat (length expOp))%Z
  /\ (div_index a b < Z.of_nat (length expOp))%Z
  /\ nth_error expOp (Z.to_nat (mul_index a b)) = Some (mul a b)
  /\ nth_error expOp (Z.to_nat (div_index a b)) = Some (div a b).
Proof.
  intros Ha Hb.
  pose proof (logAt_range a) as Hla. pose proof (logAt_range b) as Hlb.
  assert (Hlen : length expOp = 510%nat) by reflexivity.
  apply is_zero_false in Ha. apply is_zero_false in Hb.
  unfold mul, div, mul_index, div_index. rewrite Ha, Hb, Hlen. simpl orb.
  repeat split; try lia.
  - unfold expAt. apply nth_error_nth'. rewrite Hlen. lia.
  - unfold expAt. apply nth_error_nth'. rewrite Hlen. lia.
Qed.

Lemma C8_witness :
  (mul_index xff xff < Z.of_nat (length expOp))%Z
  /\ (div_index xff x01 < Z.of_nat (length expOp))%Z.
Proof.
  split.
  - apply (@C8_table_indices xff xff); discriminate.
  - apply (@C8_table_indices xff x01); discriminate.
Defined.

(** C9. On share arrays that exist, [RecoverSecret] leaves every array that
    was on the heap before the call unchanged, the input shares among them,
    and a second call on the same share set returns the same outcome as the
    first. *)
Theorem C9_recover_frame (h : heap) (shares : list ref) :
  Forall (fun r => (r < length h)%nat) shares ->
  let h' := snd (RecoverSecret shares h) in
  (forall r, (r < length h)%nat -> cell h' r = cell h r)
  /\ (forall r, In r shares -> cell h' r = cell h r)
  /\ recover h' shares = recover h shares.
Proof.
  intros Hvalid h'.
  assert (Hold : forall r, (r < length h)%nat -> cell h' r = cell h r).
  { intros r Hr. unfold h'. rewrite RecoverSecret_run by assumption.
    destruct (recover_check (map (cell h) shares)); simpl.
    - reflexivity.
    - now apply cell_old. }
  assert (Hlen : (length h <= length h')%nat).
  { unfold h'. rewrite RecoverSecret_run by assumption.
    destruct (recover_check (map (cell h) shares)); simpl.
    - lia.
    - rewrite length_app. lia. }
  assert (Hshares : forall r, In r shares -> cell h' r = cell h r).
  { intros r Hr. apply Hold. rewrite Forall_forall in Hvalid. now apply Hvalid. }
  repeat split; try assumption.
  rewrite !recover_run.
  - replace (map (cell h') shares) with (map (cell h) shares); [reflexivity|].
    apply map_ext_in. intros r Hr. symmetry. now apply Hshares.
  - assumption.
  - eapply Forall_impl; [|exact Hvalid]. simpl. intros r Hr. lia.
Qed.

Lemma C9_witness :
  recover (snd (RecoverSecret [0; 1]%nat [kat32_share1; kat32_share2]))
          [0; 1]%nat
  = recover [kat32_share1; kat32_share2] [0; 1]%nat.
Proof.
  apply (@C9_recover_frame [kat32_share1; kat32_share2] [0; 1]%nat).
  repeat constructor.
Defined.

(** C10, the claim as stated fails: with a secret and a share count in the
    stated ranges and threshold 1, [CreateShares] does not succeed when the
    entropy source fails; it returns the error of the read. *)
Lemma C10_counterexample :
  (32 <= Z.of_nat (length sample_secret) <= 65534)%Z
  /\ (2 <= 2 <= 255)%Z
  /\ CreateShares failing_entropy sample_secret 2 1 = Fail ErrEntropy.
Proof. split; [simpl; lia|]. split; [lia|]. vm_compute. reflexivity. Qed.

(** C10, amended. For a secret of 32 to 65534 bytes and 2 to 255 shares, a
    threshold of 1 is not rejected: unless an entropy read fails, in which
    case the error of the read is returned, [CreateShares] returns the
    shares, and each share is its index byte followed by the secret
    itself. *)
Theorem C10_threshold_one
        (src : entropy) (secret : list byte) (sharesCount : Z) :
  (32 <= Z.of_nat (length secret) <= 65534)%Z ->
  (2 <= sharesCount <= 255)%Z ->
  CreateShares src secret sharesCount 1
  = if entropy_ok src (length secret)
    then Ok (map (fun j => byte_of_nat (j + 1) :: secret)
                 (seq 0 (Z.to_nat sharesCount)))
    else Fail ErrEntropy.
Proof.
  intros Hs Hn.
  rewrite CreateShares_valid.
  - simpl. destruct (entropy_ok src (length secret)); [|reflexivity].
    apply f_equal. unfold shares_spec. apply map_ext. intros j.
    unfold share_of. f_equal.
    rewrite <- (nth_seq_id secret) at 2.
    apply map_ext. intros k.
    unfold coeffs. simpl. apply eval_single.
  - unfold validate, MinSecretBytes, MaxSecretBytes, MinShares, MaxShares.
    destruct (Nat.eqb_spec (length secret) 0); [lia|].
    destruct (Z.ltb_spec (Z.of_nat (length secret)) 32); [lia|].
    destruct (Z.gtb_spec (Z.of_nat (length secret)) 65534); [lia|].
    destruct (Z.ltb_spec sharesCount 2); [lia|].
    destruct (Z.gtb_spec sharesCount 255); [lia|].
    destruct (Z.gtb_spec 1 sharesCount); [lia | reflexivity].
Qed.

Lemma C10_witness :
  CreateShares sample_entropy sample_secret 2 1
  = Ok [x01 :: sample_secret; x02 :: sample_secret].
Proof.
  rewrite (@C10_threshold_one sample_entropy sample_secret 2).
  - reflexivity.
  - simpl. lia.
  - lia.
Defined.

(** ** Further properties of the field engine *)

(** X1. Multiplication is associative, distributes over addition on both
    sides and has [0x01] as its unit. *)
Theorem X1_mul_ring_laws (x y z : byte) :
  mul x (mul y z) = mul (mul x y) z
  /\ mul x (add y z) = add (mul x y) (mul x z)
  /\ mul (add x y) z = add (mul x z) (mul y z)
  /\ mul x01 x = x
  /\ mul x x01 = x.
Proof.
  repeat split.
  - apply mul_assoc.
  - apply mul_add_distr_l.
  - apply mul_add_distr_r.
  - apply mul_1_l.
  - rewrite mul_comm. apply mul_1_l.
Qed.

(** X2. A product is zero exactly when one of its factors is zero. *)
Theorem X2_no_zero_divisors (x y : byte) :
  mul x y = x00 <-> x = x00 \/ y = x00.
Proof.
  split.
  - intros H.
    destruct (Byte.byte_eq_dec x x00) as [Hx | Hx]; [now left|].
    destruct (Byte.byte_eq_dec y x00) as [Hy | Hy]; [now right|].
    exfalso. exact (mul_neq_0 Hx Hy H).
  - intros [-> | ->]; [apply mul_0_l | apply mul_0_r].
Qed.

(** X3. Division by a non-zero byte is the inverse of multiplication:
    [div x y] is the one byte whose product with [y] is [x]; a non-zero byte
    divided by itself is [0x01]. *)
Theorem X3_div_is_inverse (x y : byte) :
  y <> x00 ->
  mul (div x y) y = x
  /\ (forall z, mul z y = x -> z = div x y)
  /\ div y y = x01.
Proof.
  intros Hy. repeat split.
  - field. exact Hy.
  - intros z <-. field. exact Hy.
  - field. exact Hy.
Qed.

Lemma X3_witness : mul (div x53 xca) xca = x53 /\ div xca xca = x01.
Proof.
  destruct (@X3_div_is_inverse x53 xca) as (H1 & _ & H3).
  - discriminate.
  - split; assumption.
Defined.

Lemma exp_steps_b : forallb exp_step_ok (seq 0 509) = true.
Proof. vm_compute. reflexivity. Qed.

(** X4. The tables are mutually inverse and [expOp] lists the powers of the
    generator [0x03] twice over: [expOp[logOp[x]] = x] for every non-zero
    byte, with [logOp[x]] between 0 and 254; [logOp[expOp[i]] = i] and
    [expOp[i + 255] = expOp[i]] for [i] from 0 to 254; [expOp[0]] is
    [0x01] and every later entry is [0x03] times the entry before it. *)
Theorem X4_tables (x : byte) (i j : Z) :
  x <> x00 -> (0 <= i < 255)%Z -> (0 <= j < 509)%Z ->
  expAt (logAt x) = x
  /\ (0 <= logAt x <= 254)%Z
  /\ logAt (expAt i) = i
  /\ expAt (i + 255) = expAt i
  /\ expAt 0 = x01
  /\ expAt (j + 1) = mul x03 (expAt j).
Proof.
  intros Hx Hi Hj.
  destruct (exp_entry Hi) as (_ & Hlog & Hper).
  repeat split; try assumption.
  - now apply exp_log.
  - apply logAt_range.
  - apply logAt_range.
  - pose proof exp_steps_b as H. rewrite forallb_forall in H.
    specialize (H (Z.to_nat j)).
    assert (Hin : In (Z.to_nat j) (seq 0 509)) by (apply in_seq; lia).
    specialize (H Hin). unfold exp_step_ok in H.
    rewrite Z2Nat.id in H by lia.
    now apply Byte.byte_dec_bl.
Qed.

Lemma X4_witness :
  expAt (logAt xca) = xca /\ logAt (expAt 254) = 254%Z
  /\ expAt (254 + 1) = mul x03 (expAt 254).
Proof.
  destruct (@X4_tables xca 254 254) as (H1 & _ & H3 & _ & _ & H6);
    [discriminate | lia | lia |].
  repeat split; assumption.
Defined.

(** ** Further properties of [eval], [poly] and [interpolate] *)

(** X5. [eval] is Horner evaluation: the empty coefficient list evaluates to
    zero, [eval x (a0 :: a) = a0 + x * eval x a], and at [x = 0] the value
    is the constant coefficient. *)
Theorem X5_eval_horner (x a0 : byte) (a : list byte) :
  eval x [] = x00
  /\ eval x (a0 :: a) = add a0 (mul x (eval x a))
  /\ eval x00 (a0 :: a) = a0.
Proof.
  repeat split.
  - apply eval_cons.
  - now rewrite eval_at_zero.
Qed.

Lemma for_loop_app (St : Type) (body : nat -> St -> outcome St) (n1 n2 : nat) :
  forall lo s,
    for_loop lo (n1 + n2) body s
    = (s' <- for_loop lo n1 body s ;; for_loop (lo + n1) n2 body s').
Proof.
  induction n1 as [|n1 IH]; intros lo s.
  - simpl. now rewrite Nat.add_0_r.
  - simpl. destruct (body lo s) as [s1 | e | p]; simpl; try reflexivity.
    rewrite IH. now rewrite Nat.add_succ_r.
Qed.

(** X6. [interpolate] does not check its arguments: when [v] is shorter than
    [u] it panics on [v[len(v)]]; when [v] is at least as long as [u] it
    returns a byte. *)
Theorem X6_interpolate_lengths (u v : list byte) :
  ((length v < length u)%nat -> interpolate u v = Panic IndexOutOfRange)
  /\ ((length u <= length v)%nat -> exists r, interpolate u v = Ok r).
Proof.
  split.
  - intros Hlt. unfold interpolate.
    replace (length u) with (length v + S (length u - S (length v)))%nat
      at 1 by lia.
    rewrite for_loop_app.
    rewrite (@for_loop_pure _
               (fun i r => add r (mul (poly_fold i u) (nth i v x00)))).
    + simpl. rewrite poly_ok by lia. simpl.
      now rewrite load_out by lia.
    + intros i r Hi. rewrite poly_ok by lia. simpl.
      now rewrite (load_nth v x00) by lia.
  - intros Hle. eexists. now apply interpolate_ok.
Qed.

Lemma X6_witness :
  interpolate [x01; x02] [x07] = Panic IndexOutOfRange
  /\ exists r, interpolate [x01; x02] [x07; x09; x0b] = Ok r.
Proof.
  split.
  - apply (proj1 (X6_interpolate_lengths [x01; x02] [x07])). simpl. lia.
  - apply (proj2 (X6_interpolate_lengths [x01; x02] [x07; x09; x0b])).
    simpl. lia.
Defined.

(** X7. Interpolation is exact: for pairwise distinct points [us] and a
    polynomial with coefficients [a], no more of them than there are points,
    [interpolate] applied to the points and the values of the polynomial at
    them returns the constant coefficient [a[0]] (zero for the empty
    polynomial). *)
Theorem X7_interpolate_exact (us a : list byte) :
  NoDup us -> (length a <= length us)%nat ->
  interpolate us (map (fun x => eval x a) us) = Ok (hd x00 a).
Proof. apply interpolate_eval. Qed.

Lemma X7_witness :
  interpolate [x05; x09; xf0]
              (map (fun x => eval x [x41; x17]) [x05; x09; xf0])
  = Ok x41.
Proof.
  apply (@X7_interpolate_exact [x05; x09; xf0] [x41; x17]).
  - apply NoDup_cons; [intros [H | [H | []]]; discriminate H|].
    apply NoDup_cons; [intros [H | []]; discriminate H|].
    apply NoDup_cons; [intros []|]. apply NoDup_nil.
  - simpl. lia.
Defined.

Lemma add_columns_nth (v w : list byte) (i : nat) :
  length v = length w ->
  nth i (add_columns v w) x00 = add (nth i v x00) (nth i w x00).
Proof.
  revert w i. induction v as [|a v IH]; intros [|b w] i Hlen;
    try discriminate.
  - destruct i; reflexivity.
  - destruct i as [|i]; simpl; [reflexivity|].
    apply IH. simpl in Hlen. lia.
Qed.

Lemma add_columns_length (v w : list byte) :
  length v = length w -> length (add_columns v w) = length v.
Proof.
  revert w. induction v as [|a v IH]; intros [|b w] Hlen; try discriminate.
  - reflexivity.
  - simpl. f_equal. apply IH. simpl in Hlen. lia.
Qed.

(** X8. Interpolation is linear in the values: for value columns [v] and [w]
    as long as [u], interpolating their pointwise sum gives the sum of the
    two interpolations. *)
Theorem X8_interpolate_linear (u v w : list byte) :
  length v = length u -> length w = length u ->
  interpolate u (add_columns v w)
  = Ok (add (interp_fold u v) (interp_fold u w))
  /\ interpolate u v = Ok (interp_fold u v)
  /\ interpolate u w = Ok (interp_fold u w).
Proof.
  intros Hv Hw. repeat split; try (apply interpolate_ok; lia).
  rewrite interpolate_ok
    by (rewrite add_columns_length; [lia | congruence]).
  f_equal. unfold interp_fold.
  rewrite !(fold_left_add_xsum (fun i => mul (poly_fold i u) (nth i _ x00))).
  rewrite !add_0_l.
  induction (seq 0 (length u)) as [|i l IH]; simpl.
  - ring.
  - rewrite IH, add_columns_nth by congruence. ring.
Qed.

Lemma X8_witness :
  interpolate [x01; x02] (add_columns [x10; x20] [x33; x44])
  = Ok (add (interp_fold [x01; x02] [x10; x20])
            (interp_fold [x01; x02] [x33; x44])).
Proof.
  apply (@X8_interpolate_linear [x01; x02] [x10; x20] [x33; x44]);
    reflexivity.
Defined.

(** ** Further properties of [CreateShares], [erase] and [RecoverSecret] *)

Lemma to_nat_byte_of_nat (k : nat) :
  (k <= 255)%nat -> Byte.to_nat (byte_of_nat k) = k.
Proof.
  intros Hk. unfold byte_of_nat. rewrite Nat.mod_small by lia.
  destruct (Byte.of_nat k) as [b|] eqn:Hb.
  - now apply Byte.to_of_nat.
  - apply Byte.of_nat_None_iff in Hb. lia.
Qed.

Lemma shares_spec_nth (src : entropy) (t : nat) (secret : list byte)
      (n j : nat) :
  (j < n)%nat ->
  nth j (shares_spec src t secret n) []
  = share_of src t secret (byte_of_nat (j + 1)).
Proof.
  intros Hj. unfold shares_spec.
  rewrite (nth_indep _ [] (share_of src t secret (byte_of_nat (0 + 1))))
    by (rewrite length_map, length_seq; lia).
  rewrite (map_nth (fun j => share_of src t secret (byte_of_nat (j + 1)))).
  now rewrite seq_nth by lia.
Qed.

Lemma shares_spec_indices (src : entropy) (t : nat) (secret : list byte)
      (n : nat) :
  map (hd x00) (shares_spec src t secret n)
  = map (fun j => byte_of_nat (j + 1)) (seq 0 n).
Proof. unfold shares_spec. rewrite map_map. reflexivity. Qed.

Lemma index_bytes_NoDup (n : nat) :
  (n <= 255)%nat -> NoDup (map (fun j => byte_of_nat (j + 1)) (seq 0 n)).
Proof.
  intros Hn. apply NoDup_map_in; [|apply seq_NoDup].
  intros i j Hi Hj Heq. apply in_seq in Hi. apply in_seq in Hj.
  apply (f_equal Byte.to_nat) in Heq.
  rewrite !to_nat_byte_of_nat in Heq by lia. lia.
Qed.

Lemma index_bytes_nonzero (n : nat) :
  (n <= 255)%nat -> ~ In x00 (map (fun j => byte_of_nat (j + 1)) (seq 0 n)).
Proof.
  intros Hn Hin. apply in_map_iff in Hin. destruct Hin as (j & Hj & Hin).
  apply in_seq in Hin. apply (f_equal Byte.to_nat) in Hj.
  rewrite to_nat_byte_of_nat in Hj by lia. simpl in Hj. lia.
Qed.

(** X9. A share set returned by [CreateShares] has exactly [sharesCount]
    shares; share [j] (counting from 0) is one byte longer than the secret
    and starts with the index byte [j + 1]; the index bytes are pairwise
    distinct and none of them is zero. *)
Theorem X9_created_shares_shape
        (src : entropy) (secret : list byte) (sharesCount threshold : Z)
        (shares : ShareSet) :
  CreateShares src secret sharesCount threshold = Ok shares ->
  Z.of_nat (length shares) = sharesCount
  /\ (forall j, (j < length shares)%nat ->
                length (nth j shares []) = S (length secret)
                /\ Byte.to_nat (hd x00 (nth j shares [])) = (j + 1)%nat)
  /\ NoDup (map (hd x00) shares)
  /\ ~ In x00 (map (hd x00) shares).
Proof.
  intros Hok.
  destruct (CreateShares_ok _ _ _ _ Hok) as (Hs & Hn & Ht & ->).
  rewrite shares_spec_length, shares_spec_indices.
  repeat split.
  - lia.
  - rewrite shares_spec_nth by assumption. apply share_of_length.
  - rewrite shares_spec_nth by assumption. simpl.
    apply to_nat_byte_of_nat. lia.
  - apply index_bytes_NoDup. lia.
  - apply index_bytes_nonzero. lia.
Qed.

Lemma X9_witness :
  Z.of_nat (length sample_shares) = 3%Z
  /\ NoDup (map (hd x00) sample_shares).
Proof.
  destruct (@X9_created_shares_shape sample_entropy sample_secret 3 2
                                     sample_shares) as (H1 & _ & H3 & _).
  - vm_compute. reflexivity.
  - split; assumption.
Defined.

(** X10. What [RecoverSecret] does to memory, on share arrays that exist.
    When a check fails nothing is allocated or written.  On success three
    arrays are allocated after the existing ones: the two scratch arrays,
    which hold only [0xff] bytes on return, one byte per share, and the
    returned secret, which is one byte shorter than the first share. *)
Theorem X10_recover_memory (h : heap) (shares : list ref) :
  Forall (fun r => (r < length h)%nat) shares ->
  match RecoverSecret shares h with
  | (Ok r, h') =>
      r = (length h + 2)%nat
      /\ h' = h ++ [repeat xff (length shares); repeat xff (length shares);
                   cell h' r]
      /\ S (length (cell h' r)) = length (cell h (hd 0%nat shares))
  | (Fail _, h') => h' = h
  | (Panic _, _) => False
  end.
Proof.
  intros Hvalid. rewrite RecoverSecret_run by assumption.
  destruct (recover_check (map (cell h) shares)) eqn:Hchk; [reflexivity|].
  pose proof (recover_check_none _ Hchk) as (Hn & Hsize & _).
  rewrite length_map in Hn.
  rewrite hd_cells in Hsize by (intros ->; simpl in Hn; lia).
  assert (Hcell :
            cell (h ++ [repeat xff (length shares); repeat xff (length shares);
                        recover_spec (map (cell h) shares)])
                 (length h + 2)
            = recover_spec (map (cell h) shares)).
  { exact (@cell_new h [repeat xff (length shares);
                        repeat xff (length shares)] [] _
                     (length h + 2)%nat eq_refl). }
  rewrite Hcell. repeat split.
  unfold recover_spec, recovered. rewrite length_map, length_seq.
  rewrite hd_cells by (intros ->; simpl in Hn; lia). lia.
Qed.

Lemma X10_witness :
  match RecoverSecret [0; 1]%nat [kat32_share1; kat32_share2] with
  | (Ok r, h') =>
      r = 4%nat
      /\ h' = [kat32_share1; kat32_share2]
                ++ [repeat xff 2; repeat xff 2; cell h' r]
      /\ S (length (cell h' r)) = 33%nat
  | (Fail _, h') => h' = [kat32_share1; kat32_share2]
  | (Panic _, _) => False
  end.
Proof.
  apply (@X10_recover_memory [kat32_share1; kat32_share2] [0; 1]%nat).
  repeat constructor.
Defined.

Lemma nth_split_at (A : Type) (l : list A) (r : nat) (d : A) :
  (r < length l)%nat -> l = firstn r l ++ nth r l d :: skipn (S r) l.
Proof.
  revert r. induction l as [|x l IH]; intros [|r] Hr; simpl in *; try lia.
  - reflexivity.
  - f_equal. apply IH. lia.
Qed.

Lemma set_nth_other (A : Type) (l : list A) (i j : nat) (x d : A) :
  i <> j -> nth j (set_nth l i x) d = nth j l d.
Proof.
  revert i j. induction l as [|y l IH]; intros [|i] [|j] Hij; simpl;
    try reflexivity; try congruence.
  apply IH. congruence.
Qed.

Lemma set_nth_same (A : Type) (l : list A) (i : nat) (x d : A) :
  (i < length l)%nat -> nth i (set_nth l i x) d = x.
Proof.
  revert i. induction l as [|y l IH]; intros [|i] Hi; simpl in *; try lia.
  - reflexivity.
  - apply IH. lia.
Qed.

Lemma set_nth_split (A : Type) (l : list A) (r : nat) (x : A) :
  (r < length l)%nat -> set_nth l r x = firstn r l ++ x :: skipn (S r) l.
Proof.
  revert r. induction l as [|y l IH]; intros [|r] Hr; simpl in *; try lia.
  - reflexivity.
  - f_equal. apply IH. lia.
Qed.

Lemma erase_run (h : heap) (r : ref) :
  erase r h
  = (Ok tt,
     if (r <? length h)%nat
     then set_nth h r (repeat xff (length (cell h r)))
     else h).
Proof.
  destruct (Nat.ltb_spec r (length h)) as [Hr | Hr].
  - pose proof (nth_split_at h [] Hr) as Hsplit.
    fold (cell h r) in Hsplit.
    assert (Hlen : r = (length (firstn r h) + length (@nil (list byte)))%nat)
      by (rewrite length_firstn; simpl; lia).
    pose proof (@erase_new (firstn r h) [] (skipn (S r) h) (cell h r) r Hlen)
      as He.
    cbn [app] in He. rewrite <- Hsplit in He. rewrite He. f_equal.
    symmetry. now apply set_nth_split.
  - unfold erase, cell. rewrite nth_overflow by lia. reflexivity.
Qed.

(** X11. [erase(a)] always returns normally; afterwards [a] has its old
    length and holds only [0xff] bytes, and every other array is
    unchanged. *)
Theorem X11_erase (h : heap) (a : ref) :
  fst (erase a h) = Ok tt
  /\ length (snd (erase a h)) = length h
  /\ cell (snd (erase a h)) a = repeat xff (length (cell h a))
  /\ forall r, r <> a -> cell (snd (erase a h)) r = cell h r.
Proof.
  rewrite erase_run. simpl fst. simpl snd.
  destruct (Nat.ltb_spec a (length h)) as [Ha | Ha].
  - repeat split.
    + apply set_nth_length.
    + unfold cell at 1. now apply set_nth_same.
    + intros r Hr. unfold cell. apply set_nth_other. congruence.
  - repeat split. unfold cell. now rewrite nth_overflow by lia.
Qed.

(** ** Recovery does not depend on the order of the shares *)

Lemma xprod_perm (l l' : list byte) :
  Permutation l l' -> xprod l = xprod l'.
Proof.
  induction 1; simpl.
  - reflexivity.
  - now rewrite IHPermutation.
  - ring.
  - congruence.
Qed.

Lemma weight_perm (c : byte) (us us' : list byte) :
  Permutation us us' -> weight c us = weight c us'.
Proof.
  intros H. unfold weight. apply xprod_perm. now apply Permutation_map.
Qed.

Lemma pair_sum_ext (ps : list (byte * byte)) :
  forall k k', (forall x, k x = k' x) -> pair_sum k ps = pair_sum k' ps.
Proof.
  induction ps as [|[c y] ps IH]; intros k k' Hk; simpl.
  - reflexivity.
  - rewrite Hk. f_equal. apply IH. intros x. now rewrite Hk.
Qed.

Lemma pair_sum_perm (ps ps' : list (byte * byte)) :
  Permutation ps ps' -> forall k, pair_sum k ps = pair_sum k ps'.
Proof.
  induction 1 as [| [c y] l l' Hperm IH | [c y] [d z] l | l1 l2 l3 _ IH1 _ IH2];
    intros k.
  - reflexivity.
  - simpl. rewrite IH.
    rewrite (weight_perm c (Permutation_map fst Hperm)). reflexivity.
  - simpl.
    rewrite (pair_sum_ext l (fun x => mul (term c x) (mul (term d x) (k x)))
                          (fun x => mul (term d x) (mul (term c x) (k x))))
      by (intros x; ring).
    unfold weight. simpl. ring.
  - now rewrite IH1.
Qed.

Lemma map_fst_combine (u v : list byte) :
  length u = length v -> map fst (combine u v) = u.
Proof.
  revert v. induction u as [|x u IH]; intros [|y v] Hlen; try discriminate.
  - reflexivity.
  - simpl. f_equal. apply IH. simpl in Hlen. lia.
Qed.

Lemma pair_sum_combine (u : list byte) :
  forall v k,
    length u = length v ->
    xsum (map (fun i => mul (poly_fold i u)
                            (mul (k (nth i u x00)) (nth i v x00)))
              (seq 0 (length u)))
    = pair_sum k (combine u v).
Proof.
  induction u as [|c us IH]; intros [|y vs] k Hlen; try discriminate.
  - reflexivity.
  - simpl length. simpl seq. simpl map at 1. simpl xsum. simpl combine.
    simpl pair_sum.
    rewrite poly_fold_head, map_fst_combine by (simpl in Hlen; lia).
    simpl nth at 1 2. f_equal.
    rewrite <- (IH vs (fun x => mul (term c x) (k x)))
      by (simpl in Hlen; lia).
    rewrite <- seq_shift, map_map. f_equal.
    apply map_ext. intros i.
    rewrite poly_fold_tail. simpl nth. ring.
Qed.

Lemma interp_fold_pair_sum (u v : list byte) :
  length u = length v ->
  interp_fold u v = pair_sum (fun _ => x01) (combine u v).
Proof.
  intros Hlen. rewrite <- pair_sum_combine by assumption.
  unfold interp_fold.
  rewrite (fold_left_add_xsum
             (fun i => mul (poly_fold i u) (nth i v x00))).
  rewrite add_0_l. f_equal. apply map_ext. intros i. ring.
Qed.

Lemma combine_columns (ss : ShareSet) (a b : nat) :
  combine (column a ss) (column b ss)
  = map (fun s => (nth a s x00, nth b s x00)) ss.
Proof.
  unfold column. induction ss as [|s ss IH]; simpl; [reflexivity|].
  now rewrite IH.
Qed.

Lemma recovered_perm (ss ss' : ShareSet) (m : nat) :
  Permutation ss ss' -> recovered ss m = recovered ss' m.
Proof.
  intros Hperm. unfold recovered. apply map_ext. intros j.
  rewrite !interp_fold_pair_sum by (unfold column; now rewrite !length_map).
  rewrite !combine_columns.
  apply pair_sum_perm. now apply Permutation_map.
Qed.

Lemma recover_check_error (ss : ShareSet) (e : error) :
  recover_check ss = Some e ->
  ((Z.of_nat (length ss) < 2)%Z /\ e = ErrTooFewShares)
  \/ ((255 < Z.of_nat (length ss))%Z /\ e = ErrTooManyShares)
  \/ ((2 <= Z.of_nat (length ss) <= 255)%Z /\ e = ErrInvalidShare).
Proof.
  unfold recover_check, MinShares, MaxShares.
  destruct (Z.ltb_spec (Z.of_nat (length ss)) 2);
    [intros [= <-]; now left|].
  destruct (Z.gtb_spec (Z.of_nat (length ss)) 255);
    [intros [= <-]; right; left; split; [lia | reflexivity]|].
  intros He. right. right. split; [lia|].
  destruct (_ <? _)%Z; [congruence|].
  destruct (_ >? _)%Z; [congruence|].
  destruct (forallb _ _); congruence.
Qed.

Lemma recover_check_perm_none (ss ss' : ShareSet) :
  Permutation ss ss' -> recover_check ss = None -> recover_check ss' = None.
Proof.
  intros Hperm Hnone.
  pose proof (recover_check_none _ Hnone) as (Hn & Hsize & Hall).
  apply (@recover_check_pass ss' (Z.of_nat (length (hd [] ss)))).
  - rewrite <- (Permutation_length Hperm). exact Hn.
  - exact Hsize.
  - apply Forall_forall. intros s Hs.
    rewrite Forall_forall in Hall. f_equal. apply Hall.
    apply (Permutation_in _ (Permutation_sym Hperm)). exact Hs.
Qed.

Lemma recover_check_perm (ss ss' : ShareSet) :
  Permutation ss ss' -> recover_check ss = recover_check ss'.
Proof.
  intros Hperm.
  destruct (recover_check ss) as [e|] eqn:H1.
  - destruct (recover_check ss') as [e'|] eqn:H2.
    + apply recover_check_error in H1. apply recover_check_error in H2.
      rewrite <- (Permutation_length Hperm) in H2.
      destruct H1 as [[? ->] | [[? ->] | [? ->]]];
        destruct H2 as [[? ->] | [[? ->] | [? ->]]];
        try reflexivity; lia.
    + apply (recover_check_perm_none (Permutation_sym Hperm)) in H2.
      congruence.
  - symmetry. now apply (recover_check_perm_none Hperm).
Qed.

(** X12. Recovery does not depend on the order of the shares: on share
    arrays that exist, [RecoverSecret] returns the same outcome, secret or
    error, for every reordering of the share set, whatever the shares
    hold. *)
Theorem X12_recover_order (h : heap) (shares shares' : list ref) :
  Forall (fun r => (r < length h)%nat) shares ->
  Permutation shares shares' ->
  recover h shares' = recover h shares.
Proof.
  intros Hvalid Hperm.
  assert (Hvalid' : Forall (fun r => (r < length h)%nat) shares').
  { apply Forall_forall. intros r Hr. rewrite Forall_forall in Hvalid.
    apply Hvalid. apply (Permutation_in _ (Permutation_sym Hperm)). exact Hr. }
  assert (Hss : Permutation (map (cell h) shares) (map (cell h) shares'))
    by (now apply Permutation_map).
  rewrite !recover_run by assumption.
  rewrite <- (recover_check_perm Hss).
  destruct (recover_check (map (cell h) shares)) eqn:Hchk; [reflexivity|].
  f_equal. unfold recover_spec.
  pose proof (recover_check_none _ Hchk) as (_ & _ & Hall).
  assert (Hhd : length (hd [] (map (cell h) shares'))
                = length (hd [] (map (cell h) shares))).
  { rewrite Forall_forall in Hall. apply Hall.
    apply (Permutation_in _ (Permutation_sym Hss)).
    pose proof (recover_check_perm_none Hss Hchk) as Hchk'.
    pose proof (recover_check_none _ Hchk') as (Hn' & _ & _).
    destruct (map (cell h) shares'); [simpl in Hn'; lia | now left]. }
  rewrite Hhd. symmetry. now apply recovered_perm.
Qed.

Lemma X12_witness :
  recover [kat32_share1; kat32_share2] [1; 0]%nat
  = recover [kat32_share1; kat32_share2] [0; 1]%nat.
Proof.
  apply (@X12_recover_order [kat32_share1; kat32_share2] [0; 1]%nat
                            [1; 0]%nat).
  - repeat constructor.
  - apply perm_swap.
Defined.

(** ** Fewer shares than the threshold say nothing about the secret *)

Lemma eval_padd (x : byte) (a : list byte) :
  forall b, eval x (padd a b) = add (eval x a) (eval x b).
Proof.
  induction a as [|a0 a IH]; intros [|b0 b]; simpl padd.
  - rewrite eval_nil. ring.
  - rewrite eval_nil. ring.
  - rewrite eval_nil. ring.
  - rewrite !eval_cons, IH. ring.
Qed.

Lemma eval_pscale (x c : byte) (a : list byte) :
  eval x (pscale c a) = mul c (eval x a).
Proof.
  induction a as [|a0 a IH]; unfold pscale; simpl map.
  - rewrite eval_nil. ring.
  - fold (pscale c a). rewrite !eval_cons, IH. ring.
Qed.

Lemma eval_vanish (y : byte) (xs : list byte) :
  eval y (vanish xs) = xprod (map (fun x => add y x) xs).
Proof.
  induction xs as [|x r IH]; simpl vanish.
  - rewrite eval_cons, eval_nil. simpl. ring.
  - rewrite eval_padd, eval_pscale, eval_cons, IH. simpl. ring.
Qed.

Lemma eval_vanish_in (y : byte) (xs : list byte) :
  In y xs -> eval y (vanish xs) = x00.
Proof.
  intros Hin. rewrite eval_vanish. apply xprod_zero.
  apply in_map_iff. exists y. split; [apply add_self | assumption].
Qed.

Lemma xprod_nonzero (l : list byte) : ~ In x00 l -> xprod l <> x00.
Proof.
  induction l as [|x l IH]; intros Hnot; simpl.
  - discriminate.
  - apply mul_neq_0.
    + intros ->. apply Hnot. now left.
    + apply IH. intros Hin. apply Hnot. now right.
Qed.

Lemma eval_vanish_out (y : byte) (xs : list byte) :
  ~ In y xs -> eval y (vanish xs) <> x00.
Proof.
  intros Hnot. rewrite eval_vanish. apply xprod_nonzero.
  intros Hin. apply in_map_iff in Hin. destruct Hin as (x & Hx & Hin).
  apply add_eq_0 in Hx. subst x. contradiction.
Qed.

Lemma padd_length (a : list byte) :
  forall b, length (padd a b) = Nat.max (length a) (length b).
Proof.
  induction a as [|a0 a IH]; intros [|b0 b]; simpl; try reflexivity.
  now rewrite IH.
Qed.

Lemma vanish_length (xs : list byte) : length (vanish xs) = S (length xs).
Proof.
  induction xs as [|x r IH]; simpl; [reflexivity|].
  rewrite padd_length. unfold pscale. rewrite length_map. simpl.
  rewrite IH. lia.
Qed.

Lemma newton_length (F : byte -> byte) (xs : list byte) :
  (length (newton F xs) <= length xs)%nat.
Proof.
  induction xs as [|x r IH]; simpl; [lia|].
  rewrite padd_length. unfold pscale. rewrite length_map, vanish_length.
  lia.
Qed.

Lemma newton_eval (F : byte -> byte) (xs : list byte) :
  NoDup xs -> forall y, In y xs -> eval y (newton F xs) = F y.
Proof.
  induction xs as [|x r IH]; intros Hnd y Hin; [contradiction|].
  inversion Hnd as [|? ? Hnot Hnd']; subst.
  simpl newton. rewrite eval_padd, eval_pscale.
  destruct Hin as [<- | Hin].
  - pose proof (@eval_vanish_out x r Hnot) as Hv. field. exact Hv.
  - rewrite (@eval_vanish_in y r Hin), (IH Hnd' y Hin). ring.
Qed.

Lemma eval_zeros (x : byte) (n : nat) : eval x (repeat x00 n) = x00.
Proof.
  induction n as [|n IH]; simpl repeat.
  - reflexivity.
  - rewrite eval_cons, IH. ring.
Qed.

Lemma eval_pad (x : byte) (t : nat) (a : list byte) :
  eval x (pad t a) = eval x a.
Proof.
  unfold pad. induction a as [|a0 a IH].
  - simpl. apply eval_zeros.
  - simpl app. simpl length. rewrite !eval_cons.
    replace (t - S (length a))%nat with (pred t - length a)%nat by lia.
    f_equal. f_equal.
    clear IH. generalize (pred t - length a)%nat. intros n.
    induction a as [|a1 a IH]; simpl.
    + apply eval_zeros.
    + rewrite !eval_cons. now rewrite IH.
Qed.

Lemma pad_length (t : nat) (a : list byte) :
  (length a <= t)%nat -> length (pad t a) = t.
Proof.
  intros Hle. unfold pad. rewrite length_app, repeat_length. lia.
Qed.

Lemma set_nth_hd (a : list byte) :
  a <> [] -> set_nth a 0 (hd x00 a) = a.
Proof. destruct a; [congruence | reflexivity]. Qed.

Section Secrecy.

Variable src : entropy.
Variable t : nat.
Variables secret secret' : list byte.
Variable xs : list byte.

Hypothesis Hxs : NoDup xs.
Hypothesis Hnz : ~ In x00 xs.
Hypothesis Ht : (S (length xs) <= t)%nat.

Lemma alt_coeffs_length (k : nat) :
  length (alt_coeffs src t secret secret' xs k) = t.
Proof.
  unfold alt_coeffs. apply pad_length.
  pose proof (newton_length (alt_values src t secret secret' k) (x00 :: xs)).
  simpl in *. lia.
Qed.

Lemma alt_coeffs_eval (k : nat) (x : byte) :
  In x (x00 :: xs) ->
  eval x (alt_coeffs src t secret secret' xs k)
  = alt_values src t secret secret' k x.
Proof.
  intros Hin. unfold alt_coeffs. rewrite eval_pad.
  apply newton_eval; [|assumption].
  constructor; assumption.
Qed.

Lemma alt_coeffs_hd (k : nat) :
  hd x00 (alt_coeffs src t secret secret' xs k) = nth k secret' x00.
Proof.
  rewrite <- eval_at_zero, alt_coeffs_eval by (now left).
  reflexivity.
Qed.

Lemma alt_coeffs_same (k : nat) (x : byte) :
  In x xs ->
  eval x (alt_coeffs src t secret secret' xs k)
  = eval x (coeffs src t secret k).
Proof.
  intros Hin. rewrite alt_coeffs_eval by (now right).
  unfold alt_values.
  destruct (Byte.eqb x x00) eqn:Hx; [|reflexivity].
  apply Byte.byte_dec_bl in Hx. subst x. contradiction.
Qed.

Lemma alt_entropy_coeffs (k : nat) :
  coeffs (alt_entropy src t secret secret' xs) t secret' k
  = alt_coeffs src t secret secret' xs k.
Proof.
  unfold coeffs, alt_entropy, rand_bytes.
  rewrite <- (alt_coeffs_length k) at 1.
  rewrite nth_seq_id, <- alt_coeffs_hd.
  apply set_nth_hd.
  intros Hnil. pose proof (alt_coeffs_length k) as Hlen.
  rewrite Hnil in Hlen. simpl in Hlen. lia.
Qed.

Lemma alt_share_same (x : byte) :
  length secret' = length secret ->
  In x xs ->
  share_of (alt_entropy src t secret secret' xs) t secret' x
  = share_of src t secret x.
Proof.
  intros Hlen Hin. unfold share_of. rewrite Hlen. f_equal.
  apply map_ext. intros k.
  rewrite alt_entropy_coeffs. now apply alt_coeffs_same.
Qed.

End Secrecy.

Lemma alt_entropy_ok (src : entropy) (t : nat) (secret secret' xs : list byte)
      (m : nat) :
  entropy_ok (alt_entropy src t secret secret' xs) m = true.
Proof. unfold entropy_ok. apply forallb_forall. reflexivity. Qed.

(** X13. Fewer shares than the threshold are consistent with every secret:
    whatever duplicate-free selection [sub] of fewer than [threshold]
    generated shares is known, for every other secret of the same length
    there is an entropy source with which [CreateShares] produces a share
    set that contains exactly these shares again. *)
Theorem X13_few_shares_fit_any_secret
        (src : entropy) (secret : list byte) (sharesCount threshold : Z)
        (shares sub : ShareSet) (secret' : list byte) :
  CreateShares src secret sharesCount threshold = Ok shares ->
  NoDup sub ->
  incl sub shares ->
  (Z.of_nat (length sub) < threshold)%Z ->
  length secret' = length secret ->
  exists (src' : entropy) (shares' : ShareSet),
    CreateShares src' secret' sharesCount threshold = Ok shares'
    /\ incl sub shares'.
Proof.
  intros Hok Hnd Hincl Hfew Hlen.
  destruct (CreateShares_ok _ _ _ _ Hok) as (Hs & Hn & Ht & ->).
  set (t := Z.to_nat threshold) in *.
  set (n := Z.to_nat sharesCount) in *.
  set (xs := map (hd x00) sub).
  assert (Hsub : forall s, In s sub ->
                           s = share_of src t secret (hd x00 s)).
  { intros s Hin. apply (@shares_spec_in src t secret n). now apply Hincl. }
  assert (Hxs : NoDup xs).
  { apply NoDup_map_in; [|assumption].
    intros x y Hx Hy Heq.
    rewrite (Hsub x Hx), (Hsub y Hy), Heq. reflexivity. }
  assert (Hidx : forall s, In s sub ->
                           exists j, (j < n)%nat
                                     /\ hd x00 s = byte_of_nat (j + 1)).
  { intros s Hin. apply Hincl in Hin. unfold shares_spec in Hin.
    apply in_map_iff in Hin. destruct Hin as (j & <- & Hj).
    apply in_seq in Hj. exists j. split; [lia | reflexivity]. }
  assert (Hnz : ~ In x00 xs).
  { intros Hin. apply in_map_iff in Hin. destruct Hin as (s & Hs0 & Hin).
    destruct (Hidx s Hin) as (j & Hj & Hhd). rewrite Hhd in Hs0.
    apply (f_equal Byte.to_nat) in Hs0.
    rewrite to_nat_byte_of_nat in Hs0 by lia. simpl in Hs0. lia. }
  assert (Hcount : (S (length xs) <= t)%nat)
    by (unfold xs; rewrite length_map; unfold t; unfold Share in *; lia).
  exists (alt_entropy src t secret secret' xs).
  exists (shares_spec (alt_entropy src t secret secret' xs) t secret' n).
  split.
  - rewrite CreateShares_valid.
    + destruct (Z.ltb_spec threshold 0); [lia|].
      destruct (Z.eqb_spec threshold 0); [lia|].
      now rewrite alt_entropy_ok.
    + rewrite Hlen.
      unfold validate, MinSecretBytes, MaxSecretBytes, MinShares, MaxShares.
      destruct (Nat.eqb_spec (length secret) 0); [lia|].
      destruct (Z.ltb_spec (Z.of_nat (length secret)) 32); [lia|].
      destruct (Z.gtb_spec (Z.of_nat (length secret)) 65534); [lia|].
      destruct (Z.ltb_spec sharesCount 2); [lia|].
      destruct (Z.gtb_spec sharesCount 255); [lia|].
      destruct (Z.gtb_spec threshold sharesCount); [lia | reflexivity].
  - intros s Hin.
    destruct (Hidx s Hin) as (j & Hj & Hhd).
    rewrite (Hsub s Hin).
    rewrite <- (@alt_share_same src t secret secret' xs Hxs Hnz Hcount
                                (hd x00 s) Hlen)
      by (unfold xs; now apply in_map).
    rewrite Hhd. unfold shares_spec.
    apply in_map_iff. exists j. split; [reflexivity | apply in_seq; lia].
Qed.

Lemma X13_witness :
  exists (src' : entropy) (shares' : ShareSet),
    CreateShares src' (repeat x00 32) 3 2 = Ok shares'
    /\ incl [nth 1 sample_shares []] shares'.
Proof.
  apply (@X13_few_shares_fit_any_secret sample_entropy sample_secret 3 2
                                        sample_shares).
  - vm_compute. reflexivity.
  - apply NoDup_cons; [intros []|]. apply NoDup_nil.
  - intros s [<- | []]. vm_compute. tauto.
  - simpl. lia.
  - reflexivity.
Defined.

(** ** The test helper [subShares] *)

Lemma for_loop_stop (St : Type) (F : nat -> St)
      (body : nat -> St -> outcome St) (n lo i0 : nat) (p : panic) :
  (lo <= i0 < lo + n)%nat ->
  (forall i, (lo <= i < i0)%nat -> body i (F i) = Ok (F (S i))) ->
  body i0 (F i0) = Panic p ->
  for_loop lo n body (F lo) = Panic p.
Proof.
  intros Hi Hok Hbad.
  replace n with ((i0 - lo) + S (n - S (i0 - lo)))%nat by lia.
  rewrite for_loop_app.
  rewrite (@for_loop_closed _ F body (i0 - lo) lo)
    by (intros i Hr; apply Hok; lia).
  replace (lo + (i0 - lo))%nat with i0 by lia.
  simpl. now rewrite Hbad.
Qed.

Lemma Exists_first (A : Type) (P : A -> Prop) (d : A) (l : list A) :
  (forall x, P x \/ ~ P x) ->
  Exists P l ->
  exists i0, (i0 < length l)%nat /\ P (nth i0 l d)
             /\ forall i, (i < i0)%nat -> ~ P (nth i l d).
Proof.
  intros Hdec. induction l as [|x l IH]; intros Hex.
  - inversion Hex.
  - destruct (Hdec x) as [Hx | Hx].
    + exists 0%nat. simpl. repeat split; [lia | assumption | intros i Hi; lia].
    + inversion Hex as [? ? Hx' | ? ? Hex']; subst; [contradiction|].
      destruct (IH Hex') as (i0 & Hi0 & Hp & Hbefore).
      exists (S i0). simpl. repeat split; [lia | assumption|].
      intros [|i] Hi; [assumption | apply Hbefore; lia].
Qed.

Lemma firstn_map_nth (A B : Type) (f : A -> B) (l : list A) (d : A) (i : nat) :
  (i < length l)%nat ->
  map f (firstn (S i) l) = map f (firstn i l) ++ [f (nth i l d)].
Proof.
  revert i. induction l as [|x l IH]; intros [|i] Hi; simpl in *; try lia.
  - reflexivity.
  - f_equal. apply IH. lia.
Qed.

Section SubShares.

Variable shares : ShareSet.
Variable pickList : list Z.

Lemma picked_step (i : nat) :
  (i < length pickList)%nat ->
  (0 <= nth i pickList 0 < Z.of_nat (length shares))%Z ->
  (pick <- load pickList i ;;
   s <- load_int shares pick ;;
   store (picked shares pickList i) i s)
  = Ok (picked shares pickList (S i)).
Proof.
  intros Hi Hp.
  rewrite (load_nth pickList 0%Z Hi). simpl bind.
  unfold load_int.
  replace (nth i pickList 0 <? 0)%Z with false
    by (symmetry; apply Z.ltb_ge; lia).
  rewrite (load_nth shares []) by lia. simpl bind.
  unfold picked.
  replace (length pickList - i)%nat with (S (length pickList - S i)) by lia.
  simpl repeat.
  set (pre := map _ (firstn i pickList)).
  assert (Hpre : length pre = i)
    by (unfold pre; rewrite length_map, length_firstn; lia).
  pose proof (store_app pre [] (nth (Z.to_nat (nth i pickList 0%Z)) shares [])
                         (repeat [] (length pickList - S i))) as Hst.
  etransitivity; [|etransitivity; [exact Hst|]].
  - f_equal. symmetry. exact Hpre.
  - rewrite (firstn_map_nth _ pickList 0%Z Hi). fold pre.
    now rewrite <- app_assoc.
Qed.

Lemma picked_bad (i : nat) :
  (i < length pickList)%nat ->
  ~ (0 <= nth i pickList 0 < Z.of_nat (length shares))%Z ->
  (pick <- load pickList i ;;
   s <- load_int shares pick ;;
   store (picked shares pickList i) i s)
  = Panic IndexOutOfRange.
Proof.
  intros Hi Hp.
  rewrite (load_nth pickList 0%Z Hi). simpl bind.
  unfold load_int.
  destruct (Z.ltb_spec (nth i pickList 0%Z) 0); [reflexivity|].
  rewrite load_out by lia. reflexivity.
Qed.

End SubShares.

Lemma subShares_in_range (shares : ShareSet) (pickList : list Z) :
  Forall (fun p => (0 <= p < Z.of_nat (length shares))%Z) pickList ->
  subShares shares pickList
  = Ok (map (fun p => nth (Z.to_nat p) shares []) pickList).
Proof.
  intros Hall.
  unfold subShares. rewrite make_ok by lia. simpl bind. rewrite Nat2Z.id.
  assert (H0 : repeat [] (length pickList) = picked shares pickList 0).
  { unfold picked. simpl. now rewrite Nat.sub_0_r. }
  rewrite H0.
  rewrite (@for_loop_closed _ (picked shares pickList)).
  - unfold picked. simpl. rewrite Nat.sub_diag, app_nil_r.
    now rewrite firstn_all.
  - intros i Hi. apply picked_step; [lia|].
    rewrite Forall_forall in Hall. apply Hall. apply nth_In. lia.
Qed.

(** X14. [subShares] returns the picked shares in the order of the pick
    list when every pick is an index into the share set, and panics when
    some pick is negative or too large. *)
Theorem X14_subShares (shares : ShareSet) (pickList : list Z) :
  (Forall (fun p => (0 <= p < Z.of_nat (length shares))%Z) pickList ->
   subShares shares pickList
   = Ok (map (fun p => nth (Z.to_nat p) shares []) pickList))
  /\ (Exists (fun p => ~ (0 <= p < Z.of_nat (length shares))%Z) pickList ->
      subShares shares pickList = Panic IndexOutOfRange).
Proof.
  split; [apply subShares_in_range|].
  unfold subShares. rewrite make_ok by lia. simpl bind. rewrite Nat2Z.id.
  assert (H0 : repeat [] (length pickList) = picked shares pickList 0).
  { unfold picked. simpl. now rewrite Nat.sub_0_r. }
  rewrite H0.
  - intros Hex.
    destruct (@Exists_first Z _ 0%Z pickList
                (fun p => Decidable.dec_not
                            (0 <= p < Z.of_nat (length shares))%Z
                            (Decidable.dec_and _ _ (Z.le_decidable _ _)
                                               (Z.lt_decidable _ _)))
                Hex)
      as (i0 & Hi0 & Hbad & Hbefore).
    apply (@for_loop_stop _ (picked shares pickList) _ _ 0 i0).
    + lia.
    + intros i Hi. apply picked_step; [lia|].
      specialize (Hbefore i ltac:(lia)). lia.
    + now apply picked_bad.
Qed.

Lemma X14_witness :
  subShares sample_shares [2; 0]%Z = Ok sample_subset
  /\ subShares sample_shares [2; 3]%Z = Panic IndexOutOfRange.
Proof.
  split.
  - rewrite (proj1 (X14_subShares sample_shares [2; 0]%Z)).
    + reflexivity.
    + unfold sample_shares. simpl length. repeat constructor; lia.
  - apply (proj2 (X14_subShares sample_shares [2; 3]%Z)).
    right. left. unfold sample_shares. simpl length. lia.
Defined.

(** ** The combination enumerator *)

Module CombFacts.

Import Comb.

Lemma store_ok (A : Type) (l : list A) (i : nat) (x : A) :
  (i < length l)%nat -> store l i x = Ok (set_nth l i x).
Proof.
  intros Hi. unfold store.
  replace (i <? length l)%nat with true by (symmetry; apply Nat.ltb_lt; lia).
  reflexivity.
Qed.

Lemma nth_set_nth (l : list Z) (i j : nat) (x : Z) :
  (i < length l)%nat ->
  nth j (set_nth l i x) 0%Z = if (j =? i)%nat then x else nth j l 0%Z.
Proof.
  intros Hi. destruct (Nat.eqb_spec j i) as [-> | Hne].
  - now apply set_nth_same.
  - apply set_nth_other. congruence.
Qed.

Lemma iota_loop (kn : nat) :
  for_loop 0 kn (fun i c => store c i (Z.of_nat i)) (repeat 0%Z kn)
  = Ok (map Z.of_nat (seq 0 kn)).
Proof.
  pose (F := fun i : nat => map Z.of_nat (seq 0 i) ++ repeat 0%Z (kn - i)).
  replace (repeat 0%Z kn) with (F 0%nat)
    by (unfold F; simpl; now rewrite Nat.sub_0_r).
  replace (map Z.of_nat (seq 0 kn)) with (F (0 + kn)%nat)
    by (unfold F; simpl; now rewrite Nat.sub_diag, app_nil_r).
  apply for_loop_closed. intros i Hi. unfold F.
  replace (kn - i)%nat with (S (kn - S i)) by lia. simpl repeat.
  set (pre := map Z.of_nat (seq 0 i)).
  assert (Hpre : length pre = i)
    by (unfold pre; now rewrite length_map, length_seq).
  pose proof (store_app pre 0%Z (Z.of_nat i) (repeat 0%Z (kn - S i))) as Hst.
  rewrite Hpre in Hst. rewrite Hst.
  rewrite seq_S, map_app. simpl. fold pre. now rewrite <- app_assoc.
Qed.

Lemma nth_iota (kn i : nat) :
  (i < kn)%nat -> nth i (map Z.of_nat (seq 0 kn)) 0%Z = Z.of_nat i.
Proof.
  intros Hi. change 0%Z with (Z.of_nat 0) at 1.
  rewrite (map_nth Z.of_nat), seq_nth by lia. reflexivity.
Qed.

Lemma iota_increasing (kn : nat) (n : Z) :
  (Z.of_nat kn <= n)%Z -> increasing n (map Z.of_nat (seq 0 kn)).
Proof.
  intros Hn. unfold increasing. rewrite length_map, length_seq. split.
  - intros i Hi. rewrite nth_iota by lia. lia.
  - intros i Hi. rewrite !nth_iota by lia. lia.
Qed.

Lemma NewNoRepLex_cases (n k : Z) :
  ((n < k)%Z -> NewNoRepLex n k = Ok None)
  /\ ((k <= n)%Z -> (k < 0)%Z -> NewNoRepLex n k = Panic MakeSliceLen)
  /\ ((0 <= k <= n)%Z ->
      NewNoRepLex n k
      = Ok (Some (mkNoRepLex (map Z.of_nat (seq 0 (Z.to_nat k))) k n
                             (if (k =? 0)%Z then 2 else 0)))
      /\ increasing n (map Z.of_nat (seq 0 (Z.to_nat k)))).
Proof.
  unfold NewNoRepLex. split; [|split].
  - intros H. destruct (Z.gtb_spec k n); [reflexivity | lia].
  - intros H1 H2. destruct (Z.gtb_spec k n); [lia|].
    now rewrite make_neg.
  - intros H. split.
    + destruct (Z.gtb_spec k n); [lia|].
      rewrite make_ok by lia. simpl bind. now rewrite iota_loop.
    + apply iota_increasing. lia.
Qed.

(** X15. [NewNoRepLex(n, k)] returns its error when [k > n] and panics in
    [make] when [k] is negative; otherwise it returns an enumerator that
    holds the combination [0, 1, ..., k-1], marked exhausted from the start
    when [k = 0]. *)
Theorem X15_NewNoRepLex (n k : Z) :
  ((n < k)%Z -> NewNoRepLex n k = Ok None)
  /\ ((k <= n)%Z -> (k < 0)%Z -> NewNoRepLex n k = Panic MakeSliceLen)
  /\ ((0 <= k <= n)%Z ->
      NewNoRepLex n k
      = Ok (Some (mkNoRepLex (map Z.of_nat (seq 0 (Z.to_nat k))) k n
                             (if (k =? 0)%Z then 2 else 0)))
      /\ increasing n (map Z.of_nat (seq 0 (Z.to_nat k)))).
Proof. apply NewNoRepLex_cases. Qed.

Lemma X15_witness :
  NewNoRepLex 3 4 = Ok None
  /\ NewNoRepLex 3 (-1) = Panic MakeSliceLen
  /\ NewNoRepLex 5 3 = Ok (Some (mkNoRepLex [0; 1; 2]%Z 3 5 0)).
Proof.
  split; [|split].
  - apply (proj1 (X15_NewNoRepLex 3 4)). lia.
  - apply (proj1 (proj2 (X15_NewNoRepLex 3 (-1)))); lia.
  - destruct (proj2 (proj2 (X15_NewNoRepLex 5 3))) as [H _]; [lia|].
    exact H.
Defined.

Lemma NewNoRepLex_ready (n k : Z) (st : NoRepLex) :
  NewNoRepLex n k = Ok (Some st) ->
  ready st /\ Comb.n st = n /\ Comb.k st = k
  /\ (0 <= k <= n)%Z
  /\ Comb.c st = map Z.of_nat (seq 0 (Z.to_nat k))
  /\ Comb.s st = (if (k =? 0)%Z then 2 else 0)%Z.
Proof.
  intros Hnew.
  destruct (Z_lt_le_dec n k) as [Hgt | Hle].
  - rewrite (proj1 (NewNoRepLex_cases n k)) in Hnew by lia. discriminate.
  - destruct (Z_lt_le_dec k 0) as [Hneg | Hpos].
    + rewrite (proj1 (proj2 (NewNoRepLex_cases n k))) in Hnew by lia.
      discriminate.
    + destruct (proj2 (proj2 (NewNoRepLex_cases n k)) (conj Hpos Hle))
        as [Heq Hinc].
      rewrite Heq in Hnew. injection Hnew as <-. simpl.
      split; [|repeat split; lia].
      unfold ready. simpl. split; [lia|].
      destruct (Z.eqb_spec k 0) as [-> | Hnz]; [now left|].
      right. split; [now left|]. split; [lia|]. split; [|exact Hinc].
      rewrite length_map, length_seq. lia.
Qed.

(** The scan for the rightmost position that can still be raised. *)
Lemma find_down_spec (c : list Z) (k n : Z) (cnt : nat) :
  (cnt <= length c)%nat ->
  exists r,
    find_down cnt c k n = Ok r
    /\ match r with
       | Some j =>
           (j < cnt)%nat
           /\ (nth j c 0 < n - k + Z.of_nat j)%Z
           /\ forall i, (j < i < cnt)%nat ->
                        (n - k + Z.of_nat i <= nth i c 0)%Z
       | None =>
           forall i, (i < cnt)%nat -> (n - k + Z.of_nat i <= nth i c 0)%Z
       end.
Proof.
  induction cnt as [|j IH]; intros Hlen.
  - exists None. split; [reflexivity|]. intros i Hi. lia.
  - simpl. rewrite (load_nth c 0%Z) by lia. simpl bind.
    destruct (Z.ltb_spec (nth j c 0%Z) (n - k + Z.of_nat j)) as [Hlt | Hge].
    + exists (Some j). split; [reflexivity|].
      repeat split; [lia | assumption|]. intros i Hi. lia.
    + destruct (IH ltac:(lia)) as (r & Hr & Hspec).
      exists r. split; [assumption|].
      destruct r as [j'|].
      * destruct Hspec as (Hj' & Hlt & Hafter).
        repeat split; [lia | assumption|].
        intros i Hi. destruct (Nat.eq_dec i j) as [-> | Hne];
          [assumption | apply Hafter; lia].
      * intros i Hi. destruct (Nat.eq_dec i j) as [-> | Hne];
          [assumption | apply Hspec; lia].
Qed.

(** The loop that rewrites the positions to the right of [j]. *)
Lemma reset_loop (cnt : nat) :
  forall (j : nat) (c : list Z),
    (j + cnt < length c)%nat ->
    exists c',
      for_loop j cnt
        (fun j c => cj <- load c j ;; store c (j + 1) (cj + 1)%Z) c
      = Ok c'
      /\ length c' = length c
      /\ forall i,
          nth i c' 0%Z
          = if ((j <? i) && (i <=? j + cnt))%nat
            then (nth j c 0 + Z.of_nat (i - j))%Z
            else nth i c 0%Z.
Proof.
  induction cnt as [|cnt IH]; intros j c Hlen.
  - exists c. repeat split. intros i.
    destruct (Nat.ltb_spec j i); destruct (Nat.leb_spec i (j + 0));
      simpl; try reflexivity; lia.
  - simpl for_loop. rewrite (load_nth c 0%Z) by lia. simpl bind.
    rewrite store_ok by lia. simpl bind.
    destruct (IH (S j) (set_nth c (j + 1) (nth j c 0 + 1)%Z))
      as (c' & Hrun & Hlen' & Hnth).
    { rewrite set_nth_length. lia. }
    exists c'. split; [exact Hrun|]. split.
    { now rewrite Hlen', set_nth_length. }
    intros i. rewrite Hnth. rewrite !nth_set_nth by lia.
    destruct (Nat.ltb_spec (S j) i); destruct (Nat.leb_spec i (S j + cnt));
      destruct (Nat.ltb_spec j i); destruct (Nat.leb_spec i (j + S cnt));
      destruct (Nat.eqb_spec (S j) (j + 1)); destruct (Nat.eqb_spec i (j + 1));
      simpl; try lia; try reflexivity.
Qed.

(** One call of [Next] on an enumerator that holds a combination. *)
Lemma Next_running (st : NoRepLex) :
  s st = 1%Z -> (1 <= k st)%Z ->
  Z.of_nat (length (c st)) = k st ->
  (exists (j : nat) (c' : list Z),
      Next st = Ok (Some c', mkNoRepLex c' (k st) (n st) 1)
      /\ (j < length (c st))%nat
      /\ length c' = length (c st)
      /\ (nth j (c st) 0 < n st - k st + Z.of_nat j)%Z
      /\ (forall i, (j < i < length (c st))%nat ->
                    (n st - k st + Z.of_nat i <= nth i (c st) 0)%Z)
      /\ (forall i, (i < j)%nat -> nth i c' 0%Z = nth i (c st) 0%Z)
      /\ (forall i, (j <= i < length (c st))%nat ->
                    nth i c' 0%Z
                    = (nth j (c st) 0 + 1 + Z.of_nat (i - j))%Z))
  \/ (Next st = Ok (None, mkNoRepLex (c st) (k st) (n st) 2)
      /\ forall i, (i < length (c st))%nat ->
                   (n st - k st + Z.of_nat i <= nth i (c st) 0)%Z).
Proof.
  intros Hs Hk Hlen.
  destruct st as [c0 k0 n0 s0]. simpl in *. subst s0.
  set (kn := length c0) in *.
  assert (Hkn : (1 <= kn)%nat) by lia.
  unfold Next. simpl.
  unfold load_int.
  replace (k0 - 1 <? 0)%Z with false by (symmetry; apply Z.ltb_ge; lia).
  replace (Z.to_nat (k0 - 1)) with (kn - 1)%nat by lia.
  rewrite (load_nth c0 0%Z) by (fold kn; lia). simpl bind.
  destruct (Z.ltb_spec (nth (kn - 1) c0 0%Z) (n0 - 1)) as [Hlast | Hlast].
  - (* the last position can be raised *)
    left. exists (kn - 1)%nat, (set_nth c0 (kn - 1) (nth (kn - 1) c0 0 + 1)%Z).
    unfold store_int.
    replace (k0 - 1 <? 0)%Z with false by (symmetry; apply Z.ltb_ge; lia).
    replace (Z.to_nat (k0 - 1)) with (kn - 1)%nat by lia.
    rewrite store_ok by (fold kn; lia). simpl bind.
    repeat split.
    + lia.
    + apply set_nth_length.
    + lia.
    + intros i Hi. lia.
    + intros i Hi. rewrite nth_set_nth by (fold kn; lia).
      destruct (Nat.eqb_spec i (kn - 1)); [lia | reflexivity].
    + intros i Hi. rewrite nth_set_nth by (fold kn; lia).
      destruct (Nat.eqb_spec i (kn - 1)) as [-> | Hne]; [|lia].
      rewrite Nat.sub_diag. lia.
  - destruct (@find_down_spec c0 k0 n0 (kn - 1) ltac:(fold kn; lia))
      as (r & Hfind & Hspec).
    rewrite Hfind. simpl bind.
    destruct r as [j|].
    + (* an earlier position can be raised *)
      destruct Hspec as (Hj & Hlt & Hafter).
      rewrite (load_nth c0 0%Z) by (fold kn; lia). simpl bind.
      rewrite store_ok by (fold kn; lia). simpl bind.
      destruct (@reset_loop (kn - 1 - j) j
                            (set_nth c0 j (nth j c0 0 + 1)%Z))
        as (c' & Hrun & Hlen' & Hnth).
      { rewrite set_nth_length. fold kn. lia. }
      rewrite Hrun. simpl bind.
      left. exists j, c'.
      rewrite set_nth_length in Hlen'.
      repeat split.
      * lia.
      * exact Hlen'.
      * exact Hlt.
      * intros i Hi. destruct (Nat.eq_dec i (kn - 1)) as [-> | Hne].
        -- lia.
        -- apply Hafter. lia.
      * intros i Hi. rewrite Hnth, !nth_set_nth by (fold kn; lia).
        destruct (Nat.ltb_spec j i); [lia|]. simpl.
        destruct (Nat.eqb_spec i j); [lia | reflexivity].
      * intros i Hi. rewrite Hnth, !nth_set_nth by (fold kn; lia).
        rewrite Nat.eqb_refl.
        destruct (Nat.ltb_spec j i); destruct (Nat.leb_spec i (j + (kn - 1 - j)));
          simpl; try lia.
        destruct (Nat.eqb_spec i j) as [-> | Hne]; [|lia].
        rewrite Nat.sub_diag. lia.
    + (* nothing can be raised *)
      right. split; [reflexivity|].
      intros i Hi. destruct (Nat.eq_dec i (kn - 1)) as [-> | Hne].
      * lia.
      * apply Hspec. lia.
Qed.

Lemma increasing_upper (n : Z) (v : list Z) :
  increasing n v ->
  forall d i, (i + d = length v - 1)%nat -> (i < length v)%nat ->
              (nth i v 0 <= n - Z.of_nat (length v) + Z.of_nat i)%Z.
Proof.
  intros [Hrange Hadj]. induction d as [|d IH]; intros i Hd Hi.
  - pose proof (Hrange i Hi). lia.
  - pose proof (IH (S i) ltac:(lia) ltac:(lia)).
    pose proof (Hadj i ltac:(lia)). lia.
Qed.

Lemma increasing_le (n : Z) (v : list Z) (i : nat) :
  increasing n v -> (i < length v)%nat ->
  (nth i v 0 <= n - Z.of_nat (length v) + Z.of_nat i)%Z.
Proof.
  intros Hinc Hi.
  apply (@increasing_upper n v Hinc (length v - 1 - i)%nat i); lia.
Qed.

Lemma increasing_gap (n : Z) (v : list Z) :
  increasing n v ->
  forall d i, (i + d < length v)%nat ->
              (nth i v 0 + Z.of_nat d <= nth (i + d) v 0)%Z.
Proof.
  intros [Hrange Hadj]. induction d as [|d IH]; intros i Hi.
  - rewrite Nat.add_0_r. lia.
  - pose proof (IH i ltac:(lia)).
    pose proof (Hadj (i + d)%nat ltac:(lia)).
    replace (i + S d)%nat with (S (i + d)) by lia. lia.
Qed.

(** The combination that [Next] builds is again strictly increasing. *)
Lemma step_increasing (n : Z) (v v' : list Z) (j : nat) :
  increasing n v ->
  (j < length v)%nat ->
  length v' = length v ->
  (nth j v 0 < n - Z.of_nat (length v) + Z.of_nat j)%Z ->
  (forall i, (i < j)%nat -> nth i v' 0%Z = nth i v 0%Z) ->
  (forall i, (j <= i < length v)%nat ->
             nth i v' 0%Z = (nth j v 0 + 1 + Z.of_nat (i - j))%Z) ->
  increasing n v'.
Proof.
  intros [Hrange Hadj] Hj Hlen Hlt Hlow Hhigh.
  unfold increasing. rewrite Hlen. split.
  - intros i Hi. destruct (Nat.lt_ge_cases i j) as [Hij | Hij].
    + rewrite Hlow by assumption. now apply Hrange.
    + rewrite Hhigh by lia. pose proof (Hrange j Hj). lia.
  - intros i Hi. destruct (Nat.lt_ge_cases (S i) j) as [Hij | Hij].
    + rewrite !Hlow by lia. apply Hadj. lia.
    + destruct (Nat.eq_dec (S i) j) as [Heq | Hne].
      * rewrite (Hlow i) by lia. rewrite (Hhigh (S i)) by lia.
        pose proof (Hadj i ltac:(lia)). subst j. lia.
      * rewrite !Hhigh by lia. lia.
Qed.

Lemma step_lex_lt (v v' : list Z) (j : nat) :
  (j < length v)%nat ->
  (forall i, (i < j)%nat -> nth i v' 0%Z = nth i v 0%Z) ->
  (forall i, (j <= i < length v)%nat ->
             nth i v' 0%Z = (nth j v 0 + 1 + Z.of_nat (i - j))%Z) ->
  lex_lt v v'.
Proof.
  intros Hj Hlow Hhigh. exists j. repeat split; try assumption.
  rewrite Hhigh by lia. lia.
Qed.

Lemma lex_lt_cons_inv (x y : Z) (p v : list Z) :
  lex_lt (x :: p) (y :: v) -> (x < y)%Z \/ (y = x /\ lex_lt p v).
Proof.
  intros (j & Hj & Hbefore & Hlt). destruct j as [|j].
  - left. exact Hlt.
  - right. split; [apply (Hbefore 0%nat); lia|].
    exists j. split; [simpl in Hj; lia|]. split; [|exact Hlt].
    intros i Hi. apply (Hbefore (S i)). lia.
Qed.

Lemma lex_lt_head (x y : Z) (p v : list Z) :
  (x < y)%Z -> lex_lt (x :: p) (y :: v).
Proof.
  intros Hxy. exists 0%nat. split; [simpl; lia|].
  split; [intros i Hi; lia | exact Hxy].
Qed.

Lemma lex_lt_tail (x : Z) (p v : list Z) :
  lex_lt p v -> lex_lt (x :: p) (x :: v).
Proof.
  intros (j & Hj & Hbefore & Hlt). exists (S j).
  split; [simpl; lia|]. split; [|exact Hlt].
  intros [|i] Hi; [reflexivity|]. apply Hbefore. lia.
Qed.

Lemma lex_lt_trans (p v w : list Z) :
  lex_lt p v -> lex_lt v w -> lex_lt p w.
Proof.
  intros (a & Ha & Hpa & Hlta) (b & Hb & Hpb & Hltb).
  destruct (Nat.lt_trichotomy a b) as [Hab | [-> | Hab]].
  - exists a. split; [exact Ha|]. split.
    + intros i Hi. rewrite Hpb by lia. apply Hpa. exact Hi.
    + rewrite Hpb by exact Hab. exact Hlta.
  - exists b. split; [exact Ha|]. split.
    + intros i Hi. rewrite Hpb by lia. apply Hpa. exact Hi.
    + lia.
  - exists b. split; [lia|]. split.
    + intros i Hi. rewrite Hpb by lia. apply Hpa. lia.
    + rewrite <- Hpa by exact Hab. exact Hltb.
Qed.

Lemma lex_lt_irrefl (p : list Z) : ~ lex_lt p p.
Proof. intros (j & _ & _ & Hlt). lia. Qed.

(** Two lists of one length, the first nowhere above the second. *)
Lemma pointwise_le_cases :
  forall p w : list Z,
    length p = length w ->
    (forall i, (i < length p)%nat -> (nth i p 0 <= nth i w 0)%Z) ->
    p = w \/ lex_lt p w.
Proof.
  induction p as [|x p IH]; intros [|y w] Hlen Hle; try discriminate.
  - left. reflexivity.
  - pose proof (Hle 0%nat ltac:(simpl; lia)) as H0. simpl in H0.
    destruct (Z.eq_dec x y) as [-> | Hne].
    + destruct (IH w) as [-> | Hlt].
      * simpl in Hlen. lia.
      * intros i Hi. apply (Hle (S i)). simpl. lia.
      * left. reflexivity.
      * right. now apply lex_lt_tail.
    + right. apply lex_lt_head. lia.
Qed.

Lemma increasing_Forall (n : Z) (v : list Z) :
  increasing n v -> Forall (fun x => (0 <= x < n)%Z) v.
Proof.
  intros [Hr _]. apply Forall_forall. intros x Hin.
  destruct (In_nth v x 0%Z Hin) as (i & Hi & <-). now apply Hr.
Qed.

Lemma rank_bounds (n : Z) (v : list Z) :
  Forall (fun x => (0 <= x < n)%Z) v ->
  (0 <= rank n v < n ^ Z.of_nat (length v))%Z.
Proof.
  induction 1 as [|x r Hx Hr IH]; [simpl; lia|].
  change (length (x :: r)) with (S (length r)).
  rewrite Nat2Z.inj_succ, Z.pow_succ_r by lia. simpl rank. nia.
Qed.

(** The order of the combinations is the order of their ranks. *)
Lemma rank_lex (n : Z) :
  forall p v : list Z,
    length p = length v ->
    Forall (fun x => (0 <= x < n)%Z) p ->
    Forall (fun x => (0 <= x < n)%Z) v ->
    lex_lt p v -> (rank n p < rank n v)%Z.
Proof.
  induction p as [|x p IH]; intros [|y v] Hlen Hp Hv Hlt; try discriminate.
  - destruct Hlt as (j & Hj & _). simpl in Hj. lia.
  - inversion Hp as [|? ? Hx Hp']. inversion Hv as [|? ? Hy Hv']. subst.
    simpl in Hlen. injection Hlen as Hlen.
    simpl rank. rewrite Hlen.
    pose proof (rank_bounds Hp') as Bp. pose proof (rank_bounds Hv') as Bv.
    rewrite Hlen in Bp.
    destruct (lex_lt_cons_inv Hlt) as [Hxy | [-> Hlt']].
    + nia.
    + pose proof (IH v Hlen Hp' Hv' Hlt'). lia.
Qed.

(** The step of [Next] leads to the least combination above the current
    one. *)
Lemma step_least (n : Z) (v v' w : list Z) (j : nat) :
  (j < length v)%nat ->
  length v' = length v ->
  (nth j v 0 < n - Z.of_nat (length v) + Z.of_nat j)%Z ->
  (forall i, (j < i < length v)%nat ->
             (n - Z.of_nat (length v) + Z.of_nat i <= nth i v 0)%Z) ->
  (forall i, (i < j)%nat -> nth i v' 0%Z = nth i v 0%Z) ->
  (forall i, (j <= i < length v)%nat ->
             nth i v' 0%Z = (nth j v 0 + 1 + Z.of_nat (i - j))%Z) ->
  length w = length v ->
  increasing n w ->
  lex_lt v w ->
  w = v' \/ lex_lt v' w.
Proof.
  intros Hj Hlv Hlt Hafter Hlow Hhigh Hlw Hw (a & Ha & Hbefore & Hva).
  destruct (Nat.lt_trichotomy a j) as [Haj | [-> | Haj]].
  - right. exists a. split; [lia|]. split.
    + intros i Hi. rewrite Hlow by lia. apply Hbefore. exact Hi.
    + rewrite Hlow by exact Haj. exact Hva.
  - destruct (@pointwise_le_cases v' w) as [<- | Hlt'].
    + lia.
    + intros i Hi. destruct (Nat.lt_ge_cases i j) as [Hij | Hij].
      * rewrite Hlow, Hbefore by lia. lia.
      * rewrite Hhigh by lia.
        pose proof (@increasing_gap n w Hw (i - j) j ltac:(lia)) as Hgap.
        replace (j + (i - j))%nat with i in Hgap by lia. lia.
    + left. reflexivity.
    + right. exact Hlt'.
  - exfalso.
    pose proof (Hafter a ltac:(lia)).
    pose proof (@increasing_le n w a Hw ltac:(lia)). lia.
Qed.

(** Nothing lies above the last combination. *)
Lemma last_greatest (n : Z) (p w : list Z) :
  is_last n p -> increasing n w -> length w = length p -> ~ lex_lt p w.
Proof.
  intros Hlast Hw Hlen (j & Hj & _ & Hlt).
  rewrite (Hlast j Hj) in Hlt.
  pose proof (@increasing_le n w j Hw ltac:(lia)). lia.
Qed.

(** Nothing lies below the first combination. *)
Lemma iota_least (n : Z) (w : list Z) :
  increasing n w ->
  w = map Z.of_nat (seq 0 (length w))
  \/ lex_lt (map Z.of_nat (seq 0 (length w))) w.
Proof.
  intros Hw.
  destruct (@pointwise_le_cases (map Z.of_nat (seq 0 (length w))) w)
    as [Heq | Hlt].
  - now rewrite length_map, length_seq.
  - rewrite length_map, length_seq. intros i Hi. rewrite nth_iota by exact Hi.
    pose proof (@increasing_gap n w Hw i 0%nat ltac:(lia)) as Hgap.
    destruct Hw as [Hr _]. pose proof (Hr 0%nat ltac:(lia)).
    simpl in Hgap. lia.
  - left. now symmetry.
  - right. exact Hlt.
Qed.

(** One call of [Next] on a state of the enumerator. *)
Lemma Next_ready (st : NoRepLex) :
  ready st ->
  exists o st',
    Next st = Ok (o, st')
    /\ ready st' /\ n st' = n st /\ k st' = k st
    /\ match o with
       | Some v =>
           s st' = 1%Z /\ c st' = v
           /\ Z.of_nat (length v) = k st /\ increasing (n st) v
           /\ match prev_of st with
              | Some p =>
                  lex_lt p v
                  /\ forall w, length w = length p ->
                               increasing (n st) w ->
                               lex_lt p w -> w = v \/ lex_lt v w
              | None => True
              end
       | None =>
           s st' = 2%Z
           /\ match prev_of st with
              | Some p => is_last (n st) p
              | None => True
              end
       end.
Proof.
  intros [Hk [Hs2 | (Hs & Hk1 & Hlen & Hinc)]].
  - (* exhausted *)
    exists None, st. unfold Next, prev_of. rewrite Hs2. simpl.
    repeat split; try assumption. now left.
  - destruct Hs as [Hs0 | Hs1].
    + (* before the first call *)
      exists (Some (c st)), (mkNoRepLex (c st) (k st) (n st) 1).
      unfold Next, prev_of. rewrite Hs0. simpl.
      split; [reflexivity|]. split.
      { split; [assumption|]. right.
        split; [now right|]. split; [assumption|]. split; assumption. }
      do 4 (split; [reflexivity|]).
      split; [assumption|]. split; [assumption | exact I].
    + destruct (Next_running st Hs1 Hk1 Hlen)
        as [(j & v & Hrun & Hj & Hlv & Hlt & Hafter & Hlow & Hhigh)
           | (Hrun & Hmax)].
      * exists (Some v), (mkNoRepLex v (k st) (n st) 1).
        assert (Hv : increasing (n st) v).
        { apply (@step_increasing (n st) (c st) v j); try assumption.
          rewrite Hlen. exact Hlt. }
        unfold prev_of. rewrite Hs1. simpl.
        split; [exact Hrun|]. split.
        { split; [assumption|]. right.
          split; [now right|]. split; [assumption|].
          split; [simpl; rewrite Hlv; assumption | exact Hv]. }
        do 4 (split; [reflexivity|]).
        split; [rewrite Hlv; assumption|]. split; [exact Hv|].
        split; [now apply (@step_lex_lt (c st) v j)|].
        intros w Hlw Hw Hpw.
        apply (@step_least (n st) (c st) v w j); try assumption.
        -- rewrite Hlen. exact Hlt.
        -- rewrite Hlen. exact Hafter.
      * exists None, (mkNoRepLex (c st) (k st) (n st) 2).
        unfold prev_of. rewrite Hs1. simpl.
        split; [exact Hrun|]. split; [split; [assumption | now left]|].
        do 3 (split; [reflexivity|]).
        intros i Hi. pose proof (Hmax i Hi).
        pose proof (@increasing_le (n st) (c st) i Hinc Hi). lia.
Qed.

Lemma run_exhausted (st : NoRepLex) (m : nat) :
  s st = 2%Z -> run m st = Ok (repeat None m).
Proof.
  intros Hs. induction m as [|m IH]; simpl; [reflexivity|].
  unfold Next at 1. rewrite Hs. simpl. now rewrite IH.
Qed.

Lemma Forall_repeat_None (m : nat) :
  Forall (fun o : option (list Z) => o = None) (repeat None m).
Proof. apply Forall_forall. intros o Ho. now apply repeat_spec in Ho. Qed.

(** Any number of calls of [Next] on a state of the enumerator. *)
Lemma run_trace (m : nat) :
  forall st,
    ready st ->
    exists outs,
      run m st = Ok outs
      /\ length outs = m
      /\ (forall v, In (Some v) outs ->
                    Z.of_nat (length v) = k st /\ increasing (n st) v)
      /\ trace (n st) (prev_of st) outs.
Proof.
  induction m as [|m IH]; intros st Hready.
  - exists []. split; [reflexivity|]. split; [reflexivity|].
    split; [intros v []|exact I].
  - destruct (Next_ready Hready) as (o & st' & Hnext & Hready' & Hn & Hk & Ho).
    simpl run. rewrite Hnext. simpl bind.
    destruct o as [v|].
    + destruct Ho as (Hs' & Hc' & Hlen & Hinc & Hprev).
      destruct (IH st' Hready') as (outs & Hrun & Hlo & Hall & Htr).
      rewrite Hrun. simpl bind. exists (Some v :: outs).
      split; [reflexivity|]. split; [simpl; now rewrite Hlo|]. split.
      * intros w [[= <-] | Hin]; [now split|].
        rewrite <- Hn, <- Hk. now apply Hall.
      * simpl. split; [destruct (prev_of st); [apply Hprev | exact I]|].
        unfold prev_of in Htr. rewrite Hs', Hc', Hn in Htr. exact Htr.
    + destruct Ho as (Hs' & Hprev).
      rewrite (@run_exhausted st' m Hs'). simpl bind.
      exists (None :: repeat None m).
      split; [reflexivity|]. split; [simpl; now rewrite repeat_length|]. split.
      * intros w [Hw | Hin]; [discriminate|].
        apply repeat_spec in Hin. discriminate.
      * simpl. split; [exact Hprev | apply Forall_repeat_None].
Qed.

(** What a well-formed sequence of outputs says about single positions. *)
Lemma trace_after (n : Z) :
  forall outs prev,
    trace n prev outs ->
    forall j v, nth_error outs j = Some (Some v) ->
                match prev with
                | Some p => lex_lt p v
                | None => True
                end.
Proof.
  induction outs as [|o rest IH]; intros prev Htr j v Hj.
  - destruct j; discriminate.
  - destruct o as [u|]; simpl in Htr; destruct Htr as [Hlink Hrest].
    + destruct j as [|j].
      * injection Hj as <-. exact Hlink.
      * pose proof (IH (Some u) Hrest j v Hj) as Huv. simpl in Huv.
        destruct prev as [p|]; [|exact I].
        now apply (@lex_lt_trans p u v).
    + destruct j as [|j]; [discriminate|].
      rewrite Forall_forall in Hrest.
      pose proof (Hrest (Some v) (nth_error_In rest j Hj)). discriminate.
Qed.

Lemma trace_pairs (n : Z) :
  forall outs prev,
    trace n prev outs ->
    forall i j p v,
      (i < j)%nat ->
      nth_error outs i = Some (Some p) ->
      nth_error outs j = Some (Some v) ->
      lex_lt p v.
Proof.
  induction outs as [|o rest IH]; intros prev Htr i j p v Hij Hi Hj.
  - destruct i; discriminate.
  - destruct j as [|j]; [lia|].
    destruct o as [u|]; simpl in Htr; destruct Htr as [Hlink Hrest].
    + destruct i as [|i].
      * injection Hi as <-.
        apply (@trace_after n rest (Some u) Hrest j v Hj).
      * apply (IH (Some u) Hrest i j p v); [lia | exact Hi | exact Hj].
    + rewrite Forall_forall in Hrest.
      pose proof (Hrest (Some v) (nth_error_In rest j Hj)). discriminate.
Qed.

Lemma trace_none (n : Z) :
  forall outs prev,
    trace n prev outs ->
    forall i j,
      (i <= j)%nat -> (j < length outs)%nat ->
      nth_error outs i = Some None ->
      nth_error outs j = Some None.
Proof.
  induction outs as [|o rest IH]; intros prev Htr i j Hij Hj Hi.
  - destruct i; discriminate.
  - destruct o as [u|]; simpl in Htr; destruct Htr as [Hlink Hrest].
    + destruct i as [|i]; [discriminate|].
      destruct j as [|j]; [lia|].
      apply (IH (Some u) Hrest i j); [lia | simpl in Hj; lia | exact Hi].
    + destruct j as [|j]; [reflexivity|]. simpl in Hj. simpl.
      destruct (nth_error rest j) as [o|] eqn:Ho.
      * rewrite Forall_forall in Hrest.
        now rewrite (Hrest o (nth_error_In rest j Ho)).
      * apply nth_error_None in Ho. lia.
Qed.

Lemma trace_last (n : Z) :
  forall outs prev,
    trace n prev outs ->
    forall i p,
      nth_error outs i = Some (Some p) ->
      nth_error outs (S i) = Some None ->
      is_last n p.
Proof.
  induction outs as [|o rest IH]; intros prev Htr i p Hi Hn.
  - destruct i; discriminate.
  - destruct o as [u|]; simpl in Htr; destruct Htr as [Hlink Hrest].
    + destruct i as [|i].
      * injection Hi as <-. simpl in Hn.
        destruct rest as [|[w|] rest']; try discriminate.
        simpl in Hrest. apply Hrest.
      * apply (IH (Some u) Hrest i p Hi Hn).
    + destruct i as [|i]; [discriminate|].
      rewrite Forall_forall in Hrest.
      pose proof (Hrest (Some p) (nth_error_In rest i Hi)). discriminate.
Qed.

(** From a state that holds the combination [c], [d] more calls reach every
    combination above [c] whose rank is at most [d] higher. *)
Lemma run_complete_from (d : nat) :
  forall (st : NoRepLex) (w : list Z) (outs : list (option (list Z))),
    ready st -> s st = 1%Z ->
    Z.of_nat (length w) = k st ->
    increasing (n st) w ->
    lex_lt (c st) w ->
    (rank (n st) w - rank (n st) (c st) <= Z.of_nat d)%Z ->
    run d st = Ok outs ->
    In (Some w) outs.
Proof.
  induction d as [|d IH]; intros st w outs Hready Hs Hlw Hw Hlt Hrank Hrun.
  - exfalso.
    destruct Hready as [_ [Hs2 | (_ & _ & Hlen & Hinc)]]; [lia|].
    pose proof (@rank_lex (n st) (c st) w ltac:(lia)
                          (increasing_Forall Hinc) (increasing_Forall Hw) Hlt).
    lia.
  - destruct (Next_ready Hready) as (o & st' & Hnext & Hready' & Hn & Hk & Ho).
    pose proof Hready as [_ [Hs2 | (_ & _ & Hlen & Hinc)]]; [lia|].
    simpl run in Hrun. rewrite Hnext in Hrun. simpl bind in Hrun.
    destruct (run d st') as [rest | e | q] eqn:Hrest; try discriminate.
    simpl in Hrun. injection Hrun as <-.
    unfold prev_of in Ho. rewrite Hs in Ho. simpl in Ho.
    destruct o as [v|].
    + destruct Ho as (Hs' & Hc' & Hlv & Hv & Hcv & Hleast).
      destruct (Hleast w ltac:(lia) Hw Hlt) as [-> | Hvw].
      * left. reflexivity.
      * right. apply (IH st' w rest); try assumption.
        -- lia.
        -- now rewrite Hn.
        -- now rewrite Hc'.
        -- rewrite Hn, Hc'.
           pose proof (@rank_lex (n st) (c st) v ltac:(lia)
                                 (increasing_Forall Hinc)
                                 (increasing_Forall Hv) Hcv).
           lia.
    + destruct Ho as (_ & Hlast). exfalso.
      apply (@last_greatest (n st) (c st) w Hlast Hw ltac:(lia) Hlt).
Qed.

(** X16. After [NewNoRepLex(n, k)] has returned an enumerator, any number
    [m] of calls of [Next] runs without a panic, and every combination
    handed out has exactly [k] entries, strictly increasing and all in
    [0, n). *)
Theorem X16_Next_valid (n k : Z) (st : NoRepLex) (m : nat) :
  NewNoRepLex n k = Ok (Some st) ->
  exists outs,
    run m st = Ok outs
    /\ length outs = m
    /\ forall v, In (Some v) outs ->
                 Z.of_nat (length v) = k /\ increasing n v.
Proof.
  intros Hnew.
  destruct (@NewNoRepLex_ready n k st Hnew) as (Hready & Hn & Hk & _).
  destruct (run_trace m Hready) as (outs & Hrun & Hlen & Hall & _).
  exists outs. rewrite Hn, Hk in Hall.
  split; [exact Hrun|]. split; [exact Hlen | exact Hall].
Qed.

Lemma X16_witness :
  exists outs,
    run 5 (mkNoRepLex [0; 1]%Z 2 3 0) = Ok outs
    /\ length outs = 5%nat
    /\ forall v, In (Some v) outs ->
                 Z.of_nat (length v) = 2%Z /\ increasing 3 v.
Proof.
  apply (@X16_Next_valid 3 2 (mkNoRepLex [0; 1]%Z 2 3 0) 5).
  vm_compute. reflexivity.
Defined.

(** X17. The combinations come in strictly increasing lexicographic order,
    so none is handed out twice, and once [Next] has returned nil every
    later call returns nil. *)
Theorem X17_Next_order (n k : Z) (st : NoRepLex) (m : nat)
        (outs : list (option (list Z))) :
  NewNoRepLex n k = Ok (Some st) ->
  run m st = Ok outs ->
  (forall i j p v,
      (i < j)%nat ->
      nth_error outs i = Some (Some p) ->
      nth_error outs j = Some (Some v) ->
      lex_lt p v /\ p <> v)
  /\ (forall i j,
         (i <= j < m)%nat ->
         nth_error outs i = Some None ->
         nth_error outs j = Some None).
Proof.
  intros Hnew Hrun.
  destruct (@NewNoRepLex_ready n k st Hnew) as (Hready & Hn & Hk & _).
  destruct (run_trace m Hready) as (outs' & Hrun' & Hlen & _ & Htr).
  rewrite Hrun in Hrun'. injection Hrun' as <-.
  split.
  - intros i j p v Hij Hi Hj.
    pose proof (@trace_pairs _ _ _ Htr i j p v Hij Hi Hj) as Hlt.
    split; [exact Hlt|]. intros ->. now apply (@lex_lt_irrefl v).
  - intros i j Hij Hi.
    apply (@trace_none _ _ _ Htr i j); [lia | lia | exact Hi].
Qed.

Lemma X17_witness :
  (forall i j p v,
      (i < j)%nat ->
      nth_error [Some [0; 1]; Some [0; 2]; Some [1; 2]; None; None]%Z i
      = Some (Some p) ->
      nth_error [Some [0; 1]; Some [0; 2]; Some [1; 2]; None; None]%Z j
      = Some (Some v) ->
      lex_lt p v /\ p <> v)
  /\ (forall i j,
         (i <= j < 5)%nat ->
         nth_error [Some [0; 1]; Some [0; 2]; Some [1; 2]; None; None]%Z i
         = Some None ->
         nth_error [Some [0; 1]; Some [0; 2]; Some [1; 2]; None; None]%Z j
         = Some None).
Proof.
  apply (@X17_Next_order 3 2 (mkNoRepLex [0; 1]%Z 2 3 0) 5).
  - vm_compute. reflexivity.
  - vm_compute. reflexivity.
Defined.

(** X18. Every combination is reached: a strictly increasing list [w] of
    [k >= 1] numbers of [0, n) is among the outputs of the first [m] calls
    of [Next] as soon as [m] exceeds [n^k]. *)
Theorem X18_Next_complete (n k : Z) (st : NoRepLex) (w : list Z) (m : nat)
        (outs : list (option (list Z))) :
  NewNoRepLex n k = Ok (Some st) ->
  (1 <= k)%Z ->
  Z.of_nat (length w) = k ->
  increasing n w ->
  (n ^ k < Z.of_nat m)%Z ->
  run m st = Ok outs ->
  In (Some w) outs.
Proof.
  intros Hnew Hk1 Hlw Hw Hm Hrun.
  destruct (@NewNoRepLex_ready n k st Hnew) as (Hready & Hn & Hk & Hkn & Hc & Hs).
  replace (k =? 0)%Z with false in Hs by (symmetry; apply Z.eqb_neq; lia).
  destruct m as [|d].
  { pose proof (rank_bounds (increasing_Forall Hw)) as B.
    rewrite Hlw in B. lia. }
  simpl run in Hrun. unfold Next at 1 in Hrun. rewrite Hs in Hrun.
  simpl in Hrun.
  destruct (run d (mkNoRepLex (c st) (Comb.k st) (Comb.n st) 1))
    as [rest | e | q] eqn:Hrest; try discriminate.
  simpl in Hrun. injection Hrun as <-.
  assert (Hlen : length w = Z.to_nat k) by lia.
  destruct (iota_least Hw) as [Heq | Hlt].
  - left. rewrite Hc, <- Hlen. now rewrite <- Heq.
  - right.
    destruct Hready as [Hk0 [Hs2 | (_ & _ & Hlc & Hinc)]]; [lia|].
    apply (@run_complete_from d (mkNoRepLex (c st) (Comb.k st) (Comb.n st) 1)
                              w rest); simpl.
    + unfold ready. simpl. split; [assumption|]. right.
      split; [now right|]. split; [lia|]. split; assumption.
    + reflexivity.
    + lia.
    + now rewrite Hn.
    + rewrite Hc, <- Hlen. exact Hlt.
    + rewrite Hn.
      pose proof (rank_bounds (increasing_Forall Hw)) as B.
      pose proof (rank_bounds (increasing_Forall Hinc)) as B'.
      rewrite Hlw in B. rewrite Hn in B'. lia.
    + exact Hrest.
Qed.

Lemma X18_witness :
  In (Some [0; 2]%Z)
     ([Some [0; 1]; Some [0; 2]; Some [1; 2]]%Z ++ repeat None 7).
Proof.
  apply (@X18_Next_complete 3 2 (mkNoRepLex [0; 1]%Z 2 3 0) [0; 2]%Z 10).
  - vm_compute. reflexivity.
  - lia.
  - reflexivity.
  - split; intros i Hi; simpl in Hi.
    + destruct i as [|[|i]]; simpl; lia.
    + destruct i as [|i]; simpl; lia.
  - simpl. lia.
  - vm_compute. reflexivity.
Defined.

(** X19. For [1 <= k <= n] the first call of [Next] hands out
    [0, 1, ..., k-1], and the combination handed out just before the first
    nil is [n-k, ..., n-1]; for [k = 0] every call returns nil, so the empty
    combination is never handed out. *)
Theorem X19_Next_first_last (n k : Z) (st : NoRepLex) (m : nat)
        (outs : list (option (list Z))) :
  NewNoRepLex n k = Ok (Some st) ->
  run m st = Ok outs ->
  ((1 <= k)%Z -> (1 <= m)%nat ->
   nth_error outs 0 = Some (Some (map Z.of_nat (seq 0 (Z.to_nat k)))))
  /\ (forall i p,
         nth_error outs i = Some (Some p) ->
         nth_error outs (S i) = Some None ->
         p = map (fun j => (n - k + Z.of_nat j)%Z) (seq 0 (Z.to_nat k)))
  /\ (k = 0%Z -> outs = repeat None m).
Proof.
  intros Hnew Hrun.
  destruct (@NewNoRepLex_ready n k st Hnew) as (Hready & Hn & Hk & Hkn & Hc & Hs).
  split; [|split].
  - intros Hk1 Hm.
    replace (k =? 0)%Z with false in Hs by (symmetry; apply Z.eqb_neq; lia).
    destruct m as [|d]; [lia|].
    simpl run in Hrun. unfold Next at 1 in Hrun. rewrite Hs in Hrun.
    simpl in Hrun.
    destruct (run d (mkNoRepLex (c st) (Comb.k st) (Comb.n st) 1))
      as [rest | e | q]; try discriminate.
    simpl in Hrun. injection Hrun as <-. simpl. now rewrite Hc.
  - intros i p Hi Hnone.
    destruct (run_trace m Hready) as (outs' & Hrun' & _ & Hall & Htr).
    rewrite Hrun in Hrun'. injection Hrun' as <-.
    pose proof (@trace_last _ _ _ Htr i p Hi Hnone) as Hlast.
    destruct (Hall p (nth_error_In outs i Hi)) as [Hlp _].
    rewrite Hn in Hlast. rewrite Hk in Hlp.
    apply (nth_ext _ _ 0%Z 0%Z).
    + rewrite length_map, length_seq. lia.
    + intros j Hj. rewrite (Hlast j Hj).
      rewrite (nth_indep _ 0%Z (n - k + Z.of_nat 0)%Z)
        by (rewrite length_map, length_seq; lia).
      rewrite (map_nth (fun j => (n - k + Z.of_nat j)%Z)).
      rewrite seq_nth by lia. simpl. lia.
  - intros ->. simpl in Hs.
    rewrite (@run_exhausted st m Hs) in Hrun. now injection Hrun as <-.
Qed.

Lemma X19_witness :
  nth_error [Some [0; 1]; Some [0; 2]; Some [1; 2]; None; None]%Z 0
  = Some (Some [0; 1]%Z)
  /\ (forall i p,
         nth_error [Some [0; 1]; Some [0; 2]; Some [1; 2]; None; None]%Z i
         = Some (Some p) ->
         nth_error [Some [0; 1]; Some [0; 2]; Some [1; 2]; None; None]%Z (S i)
         = Some None ->
         p = [1; 2]%Z)
  /\ run 3 (mkNoRepLex [] 0 3 2) = Ok [None; None; None].
Proof.
  pose proof (@X19_Next_first_last
                3 2 (mkNoRepLex [0; 1]%Z 2 3 0) 5
                [Some [0; 1]; Some [0; 2]; Some [1; 2]; None; None]%Z
                ltac:(vm_compute; reflexivity)
                ltac:(vm_compute; reflexivity)) as (Hfirst & Hlast & _).
  split; [apply Hfirst; lia|]. split; [exact Hlast|].
  pose proof (@X19_Next_first_last
                3 0 (mkNoRepLex [] 0 3 2) 3 [None; None; None]
                ltac:(vm_compute; reflexivity)
                ltac:(vm_compute; reflexivity)) as (_ & _ & Hzero).
  reflexivity.
Defined.

End CombFacts.
(** ** The test [testSharesComb]: create, enumerate, pick, recover *)

Lemma increasing_NoDup (n : Z) (v : list Z) : increasing n v -> NoDup v.
Proof.
  intros Hv. apply (NoDup_nth v 0%Z). intros i j Hi Hj Heq.
  destruct (Nat.lt_trichotomy i j) as [Hij | [-> | Hij]];
    [exfalso | reflexivity | exfalso].
  - pose proof (@CombFacts.increasing_gap n v Hv (j - i) i ltac:(lia)) as Hg.
    replace (i + (j - i))%nat with j in Hg by lia. lia.
  - pose proof (@CombFacts.increasing_gap n v Hv (i - j) j ltac:(lia)) as Hg.
    replace (j + (i - j))%nat with i in Hg by lia. lia.
Qed.

(** X20. What [testSharesComb] checks holds for every run: with shares from
    [CreateShares(secret, sharesCount, threshold)] and [threshold >= 2],
    each combination [v] that the enumerator of
    [NewNoRepLex(sharesCount, threshold)] hands out makes [subShares] return
    a share set from which [RecoverSecret] returns the secret. *)
Theorem X20_testSharesComb
        (src : entropy) (secret : list byte) (sharesCount threshold : Z)
        (shares : ShareSet) (cmb : Comb.NoRepLex) (m : nat)
        (outs : list (option (list Z))) (v : list Z) :
  CreateShares src secret sharesCount threshold = Ok shares ->
  (2 <= threshold)%Z ->
  Comb.NewNoRepLex sharesCount threshold = Ok (Some cmb) ->
  Comb.run m cmb = Ok outs ->
  In (Some v) outs ->
  exists sub,
    subShares shares v = Ok sub /\ RecoverSecretOf sub = Ok secret.
Proof.
  intros Hcreate Ht2 Hnew Hrun Hin.
  destruct (CreateShares_ok _ _ _ _ Hcreate) as (Hs & Hn & Ht & ->).
  destruct (@CombFacts.NewNoRepLex_ready sharesCount threshold cmb Hnew)
    as (Hready & Hcn & Hck & _).
  destruct (CombFacts.run_trace m Hready) as (outs' & Hrun' & _ & Hall & _).
  rewrite Hrun in Hrun'. injection Hrun' as <-.
  destruct (Hall v Hin) as [Hlv Hv]. rewrite Hck in Hlv. rewrite Hcn in Hv.
  set (t := Z.to_nat threshold) in *.
  set (n := Z.to_nat sharesCount) in *.
  assert (Hrange : forall p, In p v -> (0 <= p < sharesCount)%Z).
  { intros p Hp. destruct (In_nth v p 0%Z Hp) as (i & Hi & <-).
    now apply (proj1 Hv). }
  set (pick := fun p : Z => nth (Z.to_nat p) (shares_spec src t secret n) []).
  assert (Hpick : forall p, In p v ->
                            pick p
                            = share_of src t secret
                                       (byte_of_nat (Z.to_nat p + 1))).
  { intros p Hp. pose proof (Hrange p Hp). unfold pick.
    apply shares_spec_nth. unfold n. lia. }
  exists (map pick v). split.
  - apply subShares_in_range. apply Forall_forall. intros p Hp.
    rewrite shares_spec_length. pose proof (Hrange p Hp). unfold n. lia.
  - rewrite RecoverSecretOf_run.
    rewrite (@recover_check_pass (map pick v) (Z.of_nat (S (length secret)))).
    + f_equal. apply (@recover_spec_generated src t).
      * rewrite length_map. unfold t. lia.
      * intros s Hsin. apply in_map_iff in Hsin.
        destruct Hsin as (p & <- & Hp). now rewrite (Hpick p Hp).
      * rewrite map_map. apply NoDup_map_in; [|now apply increasing_NoDup in Hv].
        intros p q Hp Hq Heq.
        rewrite (Hpick p Hp), (Hpick q Hq) in Heq. simpl in Heq.
        pose proof (Hrange p Hp). pose proof (Hrange q Hq).
        apply (f_equal Byte.to_nat) in Heq.
        rewrite !to_nat_byte_of_nat in Heq by lia. lia.
    + rewrite length_map. lia.
    + lia.
    + apply Forall_forall. intros s Hsin. apply in_map_iff in Hsin.
      destruct Hsin as (p & <- & Hp).
      rewrite (Hpick p Hp), share_of_length. reflexivity.
Qed.

Lemma X20_witness :
  exists sub,
    subShares sample_shares [0; 2]%Z = Ok sub
    /\ RecoverSecretOf sub = Ok sample_secret.
Proof.
  apply (@X20_testSharesComb sample_entropy sample_secret 3 2 sample_shares
                             (Comb.mkNoRepLex [0; 1]%Z 2 3 0) 4
                             [Some [0; 1]; Some [0; 2]; Some [1; 2]; None]%Z
                             [0; 2]%Z).
  - vm_compute. reflexivity.
  - lia.
  - vm_compute. reflexivity.
  - vm_compute. reflexivity.
  - right. left. reflexivity.
Defined.
(** ** The vendored next-permutation step [comb.perm] *)

Module PermFacts.
Import Comb.

Lemma nth_middle_app (pre : list Z) (x : Z) (post : list Z) :
  nth (length pre) (pre ++ x :: post) 0%Z = x.
Proof. rewrite app_nth2 by lia. now rewrite Nat.sub_diag. Qed.

(** The swap of two positions, the slice split at both. *)
Lemma swap_app (pre : list Z) (a : Z) (mid : list Z) (b : Z) (post : list Z) :
  swap (pre ++ a :: mid ++ b :: post) (length pre)
       (length pre + S (length mid))
  = Ok (pre ++ b :: mid ++ a :: post).
Proof.
  unfold swap.
  assert (Hr : forall x y,
             pre ++ x :: mid ++ y :: post = (pre ++ x :: mid) ++ y :: post).
  { intros x y. now rewrite <- app_assoc. }
  assert (Hl : forall x,
             (length pre + S (length mid))%nat = length (pre ++ x :: mid)).
  { intros x. rewrite length_app. reflexivity. }
  rewrite (Hr a b), (Hl a), load_app. simpl bind.
  rewrite <- (Hr a b), load_app. simpl bind.
  rewrite store_app. simpl bind.
  rewrite (Hr b b), <- (Hl a), (Hl b), store_app.
  now rewrite <- app_assoc.
Qed.

(** The reversal loop, on the part of the slice between [k] and [l]. *)
Lemma reverse_from_spec (m : nat) :
  forall (fuel : nat) (pre mid post : list Z),
    (length mid <= m)%nat ->
    (length mid <= S fuel)%nat ->
    mid <> [] ->
    reverse_from fuel (pre ++ mid ++ post) (length pre)
                 (length pre + length mid - 1)
    = Ok (pre ++ rev mid ++ post).
Proof.
  induction m as [|m IH]; intros fuel pre mid post Hm Hfuel Hne.
  - destruct mid; [congruence | simpl in Hm; lia].
  - destruct mid as [|a mid]; [congruence|].
    destruct mid as [|x mid0].
    { simpl length. replace (length pre + 1 - 1)%nat with (length pre) by lia.
      destruct fuel; simpl; now rewrite Nat.ltb_irrefl. }
    destruct (@exists_last _ (x :: mid0) ltac:(discriminate))
      as (mid' & b & Heq).
    rewrite Heq in *. clear Heq x mid0.
    assert (Hlen : length (a :: mid' ++ [b]) = S (S (length mid'))).
    { simpl. rewrite length_app. simpl. lia. }
    rewrite Hlen in *.
    destruct fuel as [|fuel]; [lia|].
    replace (length pre + S (S (length mid')) - 1)%nat
      with (length pre + S (length mid'))%nat by lia.
    simpl reverse_from.
    replace (length pre <? length pre + S (length mid'))%nat with true
      by (symmetry; apply Nat.ltb_lt; lia).
    replace ((mid' ++ [b]) ++ post) with (mid' ++ b :: post)
      by (now rewrite <- app_assoc).
    rewrite swap_app. simpl bind.
    replace (rev (a :: mid' ++ [b])) with (b :: rev mid' ++ [a])
      by (simpl; now rewrite rev_app_distr).
    destruct mid' as [|y mid1].
    + simpl length.
      assert (Hf : (length pre + 1 <? length pre + 1 - 1)%nat = false)
        by (apply Nat.ltb_ge; lia).
      destruct fuel; simpl reverse_from; rewrite Hf; reflexivity.
    + pose proof (IH fuel (pre ++ [b]) (y :: mid1) (a :: post)
                     ltac:(lia) ltac:(lia) ltac:(discriminate)) as Hrec.
      rewrite length_app in Hrec. simpl length in Hrec.
      simpl length.
      replace (length pre + S (S (length mid1)) - 1)%nat
        with (length pre + 1 + S (length mid1) - 1)%nat by lia.
      replace (pre ++ b :: (y :: mid1) ++ a :: post)
        with ((pre ++ [b]) ++ (y :: mid1) ++ a :: post)
        by (now rewrite <- app_assoc).
      rewrite Hrec. f_equal. rewrite <- !app_assoc. simpl.
      now rewrite <- !app_assoc.
Qed.

(** The first loop of [perm]: the last position followed by a larger
    entry, or a panic when the loop runs off the front of the slice. *)
Lemma ascent_down_spec (data : list Z) (cnt : nat) :
  (cnt <= length data - 1)%nat ->
  (ascent_down cnt data = Panic IndexOutOfRange
   /\ forall i, (i < cnt)%nat -> (nth (S i) data 0 <= nth i data 0)%Z)
  \/ exists j,
      ascent_down cnt data = Ok j
      /\ (j < cnt)%nat
      /\ (nth j data 0 < nth (S j) data 0)%Z
      /\ forall i, (j < i < cnt)%nat -> (nth (S i) data 0 <= nth i data 0)%Z.
Proof.
  induction cnt as [|j IH]; intros Hcnt.
  - left. split; [reflexivity | intros i Hi; lia].
  - simpl ascent_down.
    rewrite (load_nth data 0%Z) by lia. simpl bind.
    rewrite (load_nth data 0%Z) by lia. simpl bind.
    rewrite Nat.add_1_r.
    destruct (Z.geb_spec (nth j data 0%Z) (nth (S j) data 0%Z)) as [Hge | Hlt].
    + destruct (IH ltac:(lia)) as [[Hp Hall] | (j0 & Hok & Hj0 & Hasc & Hall)].
      * left. split; [exact Hp|]. intros i Hi.
        destruct (Nat.eq_dec i j) as [-> | Hne]; [lia | apply Hall; lia].
      * right. exists j0. split; [exact Hok|]. split; [lia|].
        split; [exact Hasc|]. intros i Hi.
        destruct (Nat.eq_dec i j) as [-> | Hne]; [lia | apply Hall; lia].
    + right. exists j. split; [reflexivity|]. split; [lia|].
      split; [lia | intros i Hi; lia].
Qed.

(** The second loop of [perm]: the last position with an entry above
    [data[j]]. *)
Lemma above_down_spec (data : list Z) (j : nat) :
  (S j < length data)%nat ->
  (nth j data 0 < nth (S j) data 0)%Z ->
  forall cnt,
    (S j < cnt <= length data)%nat ->
    exists l,
      above_down cnt data j = Ok l
      /\ (j < l < cnt)%nat
      /\ (nth j data 0 < nth l data 0)%Z
      /\ forall i, (l < i < cnt)%nat -> (nth i data 0 <= nth j data 0)%Z.
Proof.
  intros Hj Hasc. induction cnt as [|l IH]; intros Hcnt; [lia|].
  simpl above_down.
  rewrite (load_nth data 0%Z) by lia. simpl bind.
  rewrite (load_nth data 0%Z) by lia. simpl bind.
  destruct (Z.geb_spec (nth j data 0%Z) (nth l data 0%Z)) as [Hge | Hlt].
  - assert (l <> S j) by (intros ->; lia).
    destruct (IH ltac:(lia)) as (l0 & Hok & Hl0 & Habove & Hall).
    exists l0. split; [exact Hok|]. split; [lia|]. split; [exact Habove|].
    intros i Hi.
    destruct (Nat.eq_dec i l) as [-> | Hne]; [lia | apply Hall; lia].
  - exists l. split; [reflexivity|]. split; [lia|].
    split; [lia | intros i Hi; lia].
Qed.

Lemma skipn_cons_nth (l : list Z) (i : nat) :
  (i < length l)%nat -> skipn i l = nth i l 0%Z :: skipn (S i) l.
Proof.
  revert i. induction l as [|x l IH]; intros [|i] Hi; simpl in *; try lia.
  - reflexivity.
  - apply IH. lia.
Qed.

Lemma nth_skipn_add (l : list Z) (q i : nat) :
  nth i (skipn q l) 0%Z = nth (q + i) l 0%Z.
Proof.
  revert l. induction q as [|q IH]; intros [|x l]; simpl; try reflexivity.
  - now destruct i.
  - apply IH.
Qed.

(** A slice split at two of its positions. *)
Lemma split3 (data : list Z) (j l : nat) :
  (j < l < length data)%nat ->
  exists pre t1 t2,
    data = pre ++ nth j data 0%Z :: t1 ++ nth l data 0%Z :: t2
    /\ length pre = j
    /\ length t1 = (l - S j)%nat
    /\ skipn (S j) data = t1 ++ nth l data 0%Z :: t2
    /\ skipn (S l) data = t2.
Proof.
  intros Hjl.
  exists (firstn j data), (firstn (l - S j) (skipn (S j) data)),
    (skipn (S l) data).
  assert (Htail : skipn (S j) data
                  = firstn (l - S j) (skipn (S j) data)
                    ++ nth l data 0%Z :: skipn (S l) data).
  { rewrite <- (firstn_skipn (l - S j) (skipn (S j) data)) at 1.
    f_equal. rewrite skipn_skipn.
    replace (l - S j + S j)%nat with l by lia.
    apply skipn_cons_nth. lia. }
  split; [|split; [|split; [|split]]].
  - rewrite <- Htail. rewrite <- skipn_cons_nth by lia.
    symmetry. apply firstn_skipn.
  - rewrite length_firstn. lia.
  - rewrite length_firstn, length_skipn. lia.
  - exact Htail.
  - reflexivity.
Qed.

Lemma desc_app (l1 l2 : list Z) :
  desc (l1 ++ l2)
  <-> desc l1 /\ desc l2
      /\ forall x y, In x l1 -> In y l2 -> (y <= x)%Z.
Proof.
  induction l1 as [|a l1 IH]; simpl.
  - split; [intros H; now repeat split | intros (_ & H & _); exact H].
  - rewrite Forall_app, IH. split.
    + intros ((H1 & H2) & Hd1 & Hd2 & Hc). split; [now split|].
      split; [exact Hd2|]. intros x y [<- | Hx] Hy.
      * rewrite Forall_forall in H2. now apply H2.
      * now apply Hc.
    + intros ((H1 & Hd1) & Hd2 & Hc). split; [split; [exact H1|]|].
      * apply Forall_forall. intros y Hy. apply Hc; [now left | exact Hy].
      * split; [exact Hd1|]. split; [exact Hd2|].
        intros x y Hx Hy. apply Hc; [now right | exact Hy].
Qed.

Lemma asc_app (l1 l2 : list Z) :
  asc (l1 ++ l2)
  <-> asc l1 /\ asc l2
      /\ forall x y, In x l1 -> In y l2 -> (x <= y)%Z.
Proof.
  induction l1 as [|a l1 IH]; simpl.
  - split; [intros H; now repeat split | intros (_ & H & _); exact H].
  - rewrite Forall_app, IH. split.
    + intros ((H1 & H2) & Hd1 & Hd2 & Hc). split; [now split|].
      split; [exact Hd2|]. intros x y [<- | Hx] Hy.
      * rewrite Forall_forall in H2. now apply H2.
      * now apply Hc.
    + intros ((H1 & Hd1) & Hd2 & Hc). split; [split; [exact H1|]|].
      * apply Forall_forall. intros y Hy. apply Hc; [now left | exact Hy].
      * split; [exact Hd1|]. split; [exact Hd2|].
        intros x y Hx Hy. apply Hc; [now right | exact Hy].
Qed.

Lemma asc_rev (l : list Z) : desc l -> asc (rev l).
Proof.
  induction l as [|x l IH]; simpl; [trivial|].
  intros [Hx Hd]. apply asc_app. split; [now apply IH|].
  split; [simpl; split; [constructor | exact I]|].
  intros y z Hy [<- | []]. apply in_rev in Hy.
  rewrite Forall_forall in Hx. now apply Hx.
Qed.

Lemma no_ascent_tail (x : Z) (l : list Z) :
  no_ascent (x :: l) -> no_ascent l.
Proof. intros H i Hi. apply (H (S i)). simpl. lia. Qed.

Lemma no_ascent_desc (l : list Z) : no_ascent l <-> desc l.
Proof.
  induction l as [|x l IH].
  - split; [intros _; exact I | intros _ i Hi; simpl in Hi; lia].
  - split.
    + intros H. pose proof (proj1 IH (no_ascent_tail H)) as Hd.
      simpl. split; [|exact Hd].
      destruct l as [|y l]; [constructor|].
      pose proof (H 0%nat ltac:(simpl; lia)) as Hyx. simpl in Hyx.
      constructor; [exact Hyx|].
      simpl in Hd. destruct Hd as [Hy _].
      eapply Forall_impl; [|exact Hy]. simpl. intros z Hz. lia.
    + intros [Hx Hd] [|i] Hi.
      * destruct l as [|y l]; [simpl in Hi; lia|].
        inversion Hx. assumption.
      * apply (proj2 IH Hd i). simpl in Hi. lia.
Qed.

Lemma desc_skipn (l : list Z) (q : nat) : desc l -> desc (skipn q l).
Proof.
  intros Hd. rewrite <- (firstn_skipn q l) in Hd.
  apply desc_app in Hd. apply Hd.
Qed.

(** The three ways [perm] can go. *)
Lemma perm_cases (data : list Z) :
  (no_ascent data /\ perm data = Panic IndexOutOfRange)
  \/ (exists a b t,
         data = a :: b :: t /\ (a < b)%Z /\ desc (b :: t)
         /\ perm data = Ok (false, data))
  \/ (exists pre a t1 b t2,
         data = pre ++ a :: t1 ++ b :: t2
         /\ pre <> [] /\ (a < b)%Z
         /\ desc (t1 ++ b :: t2)
         /\ Forall (fun x => (x <= a)%Z) t2
         /\ perm data = Ok (true, pre ++ b :: rev (t1 ++ a :: t2))).
Proof.
  unfold perm.
  replace (Z.to_nat (Z.of_nat (length data) - 1)) with (length data - 1)%nat
    by lia.
  replace (Z.to_nat (Z.of_nat (length data) - 1 + 1)) with (length data)
    by lia.
  destruct (@ascent_down_spec data (length data - 1) ltac:(lia))
    as [[Hp Hall] | (j & Hok & Hj & Hasc & Hall)].
  - left. rewrite Hp. split; [|reflexivity].
    intros i Hi. apply Hall. lia.
  - right. rewrite Hok. simpl bind.
    assert (Htail : desc (skipn (S j) data)).
    { apply no_ascent_desc. intros i Hi. rewrite length_skipn in Hi.
      rewrite !nth_skipn_add.
      replace (S j + S i)%nat with (S (S j + i)) by lia.
      apply Hall. lia. }
    destruct j as [|j].
    + left. simpl.
      destruct data as [|a [|b t]]; simpl in Hj; try lia.
      exists a, b, t. simpl in Hasc. simpl in Htail.
      split; [reflexivity|]. split; [exact Hasc|].
      split; [exact Htail | reflexivity].
    + right. simpl Nat.eqb. cbv iota.
      destruct (@above_down_spec data (S j) ltac:(lia) Hasc (length data)
                                 ltac:(lia))
        as (l & Hfind & Hl & Habove & Hbelow).
      rewrite Hfind. simpl bind.
      destruct (@split3 data (S j) l ltac:(lia))
        as (pre & t1 & t2 & Hdata & Hpre & Ht1 & Hskip & Ht2).
      set (a := nth (S j) data 0%Z) in *.
      set (b := nth l data 0%Z) in *.
      exists pre, a, t1, b, t2.
      split; [exact Hdata|].
      split; [intros ->; simpl in Hpre; lia|].
      split; [exact Habove|].
      split; [now rewrite <- Hskip|].
      split.
      { apply Forall_forall. intros x Hx.
        destruct (In_nth t2 x 0%Z Hx) as (i & Hi & <-).
        rewrite <- Ht2, nth_skipn_add. apply Hbelow.
        rewrite <- Ht2, length_skipn in Hi. lia. }
      assert (Hlen : length data = (S j + S (length t1 + S (length t2)))%nat).
      { rewrite Hdata at 1. rewrite length_app. simpl.
        rewrite length_app. simpl. lia. }
      rewrite Hlen. clear Hlen.
      rewrite Hdata.
      replace l with (length pre + S (length t1))%nat by lia.
      rewrite <- Hpre.
      rewrite swap_app. simpl bind.
      pose proof (@reverse_from_spec
                    (length (t1 ++ a :: t2))
                    (length (pre ++ b :: t1 ++ a :: t2))
                    (pre ++ [b]) (t1 ++ a :: t2) []) as Hrev.
      rewrite !app_nil_r in Hrev.
      replace ((pre ++ [b]) ++ t1 ++ a :: t2) with (pre ++ b :: t1 ++ a :: t2)
        in Hrev by (now rewrite <- app_assoc).
      replace (length (pre ++ [b])) with (length pre + 1)%nat in Hrev
        by (rewrite length_app; reflexivity).
      replace (length pre + 1 + length (t1 ++ a :: t2) - 1)%nat
        with (length pre + S (length t1 + S (length t2)) - 1)%nat in Hrev
        by (rewrite length_app; simpl; lia).
      replace (S (j + 1)) with (length pre + 1)%nat by lia.
      rewrite Hrev.
      * simpl. now rewrite <- app_assoc.
      * lia.
      * rewrite !length_app. simpl. rewrite length_app. simpl. lia.
      * destruct t1; discriminate.
Qed.

Lemma firstn_ext (l1 l2 : list Z) (q : nat) :
  (q <= length l1)%nat -> (q <= length l2)%nat ->
  (forall i, (i < q)%nat -> nth i l1 0%Z = nth i l2 0%Z) ->
  firstn q l1 = firstn q l2.
Proof.
  revert l1 l2. induction q as [|q IH]; intros l1 l2 H1 H2 Hnth;
    [reflexivity|].
  destruct l1 as [|x l1]; [simpl in H1; lia|].
  destruct l2 as [|y l2]; [simpl in H2; lia|].
  simpl. f_equal.
  - apply (Hnth 0%nat). lia.
  - apply IH; simpl in *; try lia. intros i Hi. apply (Hnth (S i)). lia.
Qed.

(** Two permutations of one another that agree before position [q] have
    the same entries from [q] on. *)
Lemma suffix_perm (data w : list Z) (q : nat) :
  Permutation data w ->
  (q <= length data)%nat ->
  (forall i, (i < q)%nat -> nth i w 0%Z = nth i data 0%Z) ->
  firstn q w = firstn q data /\ Permutation (skipn q data) (skipn q w).
Proof.
  intros Hperm Hq Hnth.
  pose proof (Permutation_length Hperm) as Hlen.
  assert (Hfirst : firstn q w = firstn q data).
  { apply firstn_ext; [lia | lia | exact Hnth]. }
  split; [exact Hfirst|].
  apply (Permutation_app_inv_l (firstn q data)).
  rewrite firstn_skipn. rewrite <- Hfirst, firstn_skipn. exact Hperm.
Qed.

(** Inside a non-increasing end of the slice no permutation can raise an
    entry while keeping everything before it. *)
Lemma desc_suffix_max (data w : list Z) (q p : nat) :
  desc (skipn q data) ->
  Permutation data w ->
  (q <= p < length data)%nat ->
  (forall i, (i < p)%nat -> nth i w 0%Z = nth i data 0%Z) ->
  (nth p w 0 <= nth p data 0)%Z.
Proof.
  intros Hdesc Hperm Hp Hnth.
  pose proof (Permutation_length Hperm) as Hlen.
  destruct (@suffix_perm data w p Hperm ltac:(lia) Hnth) as [_ Hsuf].
  assert (Hin : In (nth p w 0%Z) (skipn p data)).
  { apply (Permutation_in _ (Permutation_sym Hsuf)).
    rewrite (@skipn_cons_nth w p) by lia. now left. }
  assert (Hd : desc (skipn p data)).
  { replace p with ((p - q) + q)%nat by lia. rewrite <- skipn_skipn.
    now apply desc_skipn. }
  rewrite (@skipn_cons_nth data p) in Hin, Hd by lia.
  destruct Hin as [<- | Hin]; [lia|].
  simpl in Hd. destruct Hd as [Hall _].
  rewrite Forall_forall in Hall. now apply Hall.
Qed.

(** A non-decreasing list is the least of its permutations. *)
Lemma asc_least :
  forall u w : list Z,
    asc u -> Permutation u w -> u = w \/ lex_lt u w.
Proof.
  induction u as [|x u IH]; intros w Hasc Hperm.
  - apply Permutation_nil in Hperm. left. now subst.
  - destruct w as [|y w].
    { apply Permutation_sym, Permutation_nil in Hperm. discriminate. }
    destruct Hasc as [Hx Hu].
    assert (Hxy : (x <= y)%Z).
    { assert (Hin : In y (x :: u)).
      { apply (Permutation_in _ (Permutation_sym Hperm)). now left. }
      destruct Hin as [-> | Hin]; [lia|].
      rewrite Forall_forall in Hx. now apply Hx. }
    destruct (Z.eq_dec x y) as [<- | Hne].
    + apply Permutation_cons_inv in Hperm.
      destruct (IH w Hu Hperm) as [-> | Hlt].
      * left. reflexivity.
      * right. now apply CombFacts.lex_lt_tail.
    + right. apply CombFacts.lex_lt_head. lia.
Qed.

Lemma lex_lt_app (p u w : list Z) : lex_lt u w -> lex_lt (p ++ u) (p ++ w).
Proof.
  intros Hlt. induction p as [|x p IH]; [exact Hlt|].
  simpl. now apply CombFacts.lex_lt_tail.
Qed.

Lemma skipn_app_cons (pre : list Z) (a : Z) (t : list Z) :
  skipn (S (length pre)) (pre ++ a :: t) = t.
Proof. induction pre as [|x pre IH]; [reflexivity | exact IH]. Qed.

Lemma skipn_app_exact (pre t : list Z) : skipn (length pre) (pre ++ t) = t.
Proof. induction pre as [|x pre IH]; [reflexivity | exact IH]. Qed.

Lemma firstn_app_exact (pre t : list Z) : firstn (length pre) (pre ++ t) = pre.
Proof. induction pre as [|x pre IH]; [reflexivity | simpl; now f_equal]. Qed.

(** The entries after the raised position, once [data[j]] has taken the
    place of [data[l]], are still non-increasing. *)
Lemma desc_replaced (a b : Z) (t1 t2 : list Z) :
  (a < b)%Z ->
  desc (t1 ++ b :: t2) ->
  Forall (fun x => (x <= a)%Z) t2 ->
  desc (t1 ++ a :: t2).
Proof.
  intros Hab Hd Ht2.
  apply desc_app in Hd. destruct Hd as (Hd1 & (Hb & Hd2) & Hcross).
  apply desc_app. split; [exact Hd1|].
  split; [split; [exact Ht2 | exact Hd2]|].
  intros x y Hx [<- | Hy].
  - pose proof (Hcross x b Hx ltac:(now left)). lia.
  - apply Hcross; [exact Hx | now right].
Qed.

Lemma swapped_perm (a b : Z) (t1 t2 : list Z) :
  Permutation (a :: t1 ++ b :: t2) (b :: t1 ++ a :: t2).
Proof.
  apply Permutation_trans with (a :: b :: t1 ++ t2).
  - apply perm_skip. apply Permutation_sym, Permutation_middle.
  - apply Permutation_trans with (b :: a :: t1 ++ t2).
    + apply perm_swap.
    + apply perm_skip. apply Permutation_middle.
Qed.

(** What [perm] leaves in [data] when it returns true. *)
Lemma perm_true_facts (pre : list Z) (a : Z) (t1 : list Z) (b : Z)
      (t2 : list Z) :
  pre <> [] -> (a < b)%Z ->
  desc (t1 ++ b :: t2) ->
  Forall (fun x => (x <= a)%Z) t2 ->
  let data := pre ++ a :: t1 ++ b :: t2 in
  let data' := pre ++ b :: rev (t1 ++ a :: t2) in
  Permutation data data'
  /\ lex_lt data data'
  /\ nth 0 data' 0%Z = nth 0 data 0%Z
  /\ forall w, Permutation data w -> lex_lt data w ->
               data' = w \/ lex_lt data' w.
Proof.
  intros Hpre Hab Hd Ht2 data data'.
  assert (Hlt : lex_lt data data').
  { exists (length pre). unfold data, data'.
    split; [rewrite length_app; simpl; lia|]. split.
    - intros i Hi. now rewrite !app_nth1 by exact Hi.
    - now rewrite !nth_middle_app. }
  split; [|split; [exact Hlt|split]].
  - unfold data, data'. apply Permutation_app_head.
    apply Permutation_trans with (b :: t1 ++ a :: t2).
    + apply swapped_perm.
    + apply perm_skip. apply Permutation_rev.
  - unfold data, data'. destruct pre; [congruence | reflexivity].
  - intros w Hperm (p & Hp & Hbefore & Hraise).
    pose proof (Permutation_length Hperm) as Hlen.
    assert (Hld : length data = (length pre + S (length (t1 ++ b :: t2)))%nat).
    { unfold data. rewrite length_app. reflexivity. }
    destruct (Nat.lt_trichotomy p (length pre)) as [Hlow | [-> | Hhigh]].
    + right. exists p. unfold data'.
      split; [rewrite length_app; simpl; lia|]. split.
      * intros i Hi. rewrite (Hbefore i Hi). unfold data.
        now rewrite !app_nth1 by lia.
      * rewrite app_nth1 by exact Hlow. unfold data in Hraise.
        now rewrite app_nth1 in Hraise by exact Hlow.
    + destruct (@suffix_perm data w (length pre) Hperm ltac:(lia) Hbefore)
        as [Hfirst Hsuf].
      unfold data in Hfirst at 1. rewrite firstn_app_exact in Hfirst.
      unfold data in Hsuf at 1. rewrite skipn_app_exact in Hsuf.
      rewrite (@skipn_cons_nth w (length pre)) in Hsuf by lia.
      set (y := nth (length pre) w 0%Z) in *.
      set (w' := skipn (S (length pre)) w) in *.
      assert (Hw : w = pre ++ y :: w').
      { rewrite <- (firstn_skipn (length pre) w), Hfirst.
        f_equal. apply skipn_cons_nth. lia. }
      unfold data in Hraise. rewrite nth_middle_app in Hraise.
      assert (Hby : (b <= y)%Z).
      { assert (Hin : In y (a :: t1 ++ b :: t2)).
        { apply (Permutation_in _ (Permutation_sym Hsuf)). now left. }
        destruct Hin as [<- | Hin]; [lia|].
        apply in_app_or in Hin. destruct Hin as [Hin | [<- | Hin]].
        - apply desc_app in Hd. destruct Hd as (_ & _ & Hcross).
          apply Hcross; [exact Hin | now left].
        - lia.
        - rewrite Forall_forall in Ht2. pose proof (Ht2 y Hin). lia. }
      destruct (Z.eq_dec b y) as [Heq | Hne].
      * rewrite <- Heq in Hsuf, Hw.
        assert (Hrest : Permutation (rev (t1 ++ a :: t2)) w').
        { apply Permutation_trans with (t1 ++ a :: t2).
          - apply Permutation_sym, Permutation_rev.
          - apply (Permutation_cons_inv (a := b)).
            apply Permutation_trans with (a :: t1 ++ b :: t2);
              [apply Permutation_sym, swapped_perm | exact Hsuf]. }
        destruct (@asc_least (rev (t1 ++ a :: t2)) w') as [Hsame | Hless].
        -- apply asc_rev. now apply desc_replaced with (b := b).
        -- exact Hrest.
        -- left. unfold data'. now rewrite Hsame, Hw.
        -- right. unfold data'. rewrite Hw.
           replace (pre ++ b :: rev (t1 ++ a :: t2))
             with ((pre ++ [b]) ++ rev (t1 ++ a :: t2))
             by (now rewrite <- app_assoc).
           replace (pre ++ b :: w') with ((pre ++ [b]) ++ w')
             by (now rewrite <- app_assoc).
           now apply lex_lt_app.
      * right. exists (length pre). unfold data'.
        split; [rewrite length_app; simpl; lia|]. split.
        -- intros i Hi. rewrite (Hbefore i Hi). unfold data.
           now rewrite !app_nth1 by lia.
        -- rewrite nth_middle_app. fold y. lia.
    + exfalso.
      assert (Hle : (nth p w 0 <= nth p data 0)%Z).
      { apply (@desc_suffix_max data w (S (length pre)) p); try assumption.
        - unfold data. now rewrite skipn_app_cons.
        - lia. }
      lia.
Qed.

(** X21. [perm] panics with an index out of range exactly when no entry of
    the slice is followed by a larger one, which includes every slice
    shorter than 2; on every other slice it returns, and what it leaves in
    the slice is a rearrangement of the entries. *)
Theorem X21_perm_panic (data : list Z) :
  (perm data = Panic IndexOutOfRange <-> no_ascent data)
  /\ ((length data < 2)%nat -> perm data = Panic IndexOutOfRange)
  /\ (~ no_ascent data ->
      exists b data',
        perm data = Ok (b, data') /\ Permutation data data').
Proof.
  assert (Hshort : (length data < 2)%nat -> no_ascent data).
  { intros Hlen i Hi. lia. }
  destruct (perm_cases data)
    as [[Hno Hp]
       | [(a & b & t & Hdata & Hab & Hd & Hp)
         | (pre & a & t1 & b & t2 & Hdata & Hpre & Hab & Hd & Ht2 & Hp)]].
  - split; [split; [intros _; exact Hno | intros _; exact Hp]|].
    split; [intros _; exact Hp | intros Hn; contradiction].
  - assert (Hasc : ~ no_ascent data).
    { intros Hno. subst data.
      pose proof (Hno 0%nat ltac:(simpl; lia)) as H0. simpl in H0. lia. }
    split; [split; [rewrite Hp; discriminate | intros Hno; contradiction]|].
    split; [intros Hlen; now apply Hshort in Hlen|].
    intros _. exists false, data. split; [exact Hp | apply Permutation_refl].
  - assert (Hasc : ~ no_ascent data).
    { intros Hno. apply no_ascent_desc in Hno. subst data.
      apply desc_app in Hno. destruct Hno as (_ & (Hall & _) & _).
      rewrite Forall_forall in Hall.
      pose proof (Hall b ltac:(apply in_or_app; right; now left)). lia. }
    split; [split; [rewrite Hp; discriminate | intros Hno; contradiction]|].
    split; [intros Hlen; now apply Hshort in Hlen|].
    intros _. exists true, (pre ++ b :: rev (t1 ++ a :: t2)).
    split; [exact Hp|]. subst data.
    apply (@perm_true_facts pre a t1 _ t2 Hpre Hab Hd Ht2).
Qed.

Lemma X21_witness :
  perm [3; 2; 2; 1]%Z = Panic IndexOutOfRange
  /\ perm [7]%Z = Panic IndexOutOfRange
  /\ exists b data',
      perm [0; 1; 3; 2]%Z = Ok (b, data')
      /\ Permutation [0; 1; 3; 2]%Z data'.
Proof.
  split; [|split].
  - apply (proj1 (X21_perm_panic [3; 2; 2; 1]%Z)).
    intros i Hi. simpl in Hi.
    destruct i as [|[|[|i]]]; simpl; lia.
  - apply (proj1 (proj2 (X21_perm_panic [7]%Z))). simpl. lia.
  - apply (proj2 (proj2 (X21_perm_panic [0; 1; 3; 2]%Z))).
    intros Hno. pose proof (Hno 1%nat ltac:(simpl; lia)) as H1.
    simpl in H1. lia.
Defined.

(** X22. When [perm] returns, it returns false exactly when the entries
    after the first are non-increasing; it then leaves the slice as it was,
    and no rearrangement that keeps the first entry comes later in
    lexicographic order. *)
Theorem X22_perm_false (data data' : list Z) (b : bool) :
  perm data = Ok (b, data') ->
  (b = false <-> no_ascent (tl data))
  /\ (b = false ->
      data' = data
      /\ forall w, Permutation data w ->
                   nth 0 w 0%Z = nth 0 data 0%Z ->
                   ~ lex_lt data w).
Proof.
  intros Hrun.
  destruct (perm_cases data)
    as [[Hno Hp]
       | [(a & c & t & Hdata & Hab & Hd & Hp)
         | (pre & a & t1 & c & t2 & Hdata & Hpre & Hab & Hd & Ht2 & Hp)]];
    rewrite Hp in Hrun; [discriminate | |].
  - injection Hrun as <- <-.
    split; [split; [intros _ | reflexivity]|].
    + subst data. simpl tl. now apply no_ascent_desc.
    + intros _. split; [reflexivity|].
      intros w Hperm Hhead (p & Hp' & Hbefore & Hraise).
      destruct p as [|p]; [lia|].
      assert (Hle : (nth (S p) w 0 <= nth (S p) data 0)%Z).
      { apply (@desc_suffix_max data w 1 (S p)); try assumption.
        - subst data. exact Hd.
        - lia. }
      lia.
  - injection Hrun as <- <-.
    split; [split; [discriminate|] | discriminate].
    intros Hno. exfalso. subst data.
    destruct pre as [|x pre]; [congruence|]. simpl tl in Hno.
    apply no_ascent_desc in Hno. apply desc_app in Hno.
    destruct Hno as (_ & (Hall & _) & _).
    rewrite Forall_forall in Hall.
    pose proof (Hall c ltac:(apply in_or_app; right; now left)). lia.
Qed.

Lemma X22_witness :
  no_ascent (tl [0; 3; 2; 1]%Z)
  /\ forall w, Permutation [0; 3; 2; 1]%Z w ->
               nth 0 w 0%Z = nth 0 [0; 3; 2; 1]%Z 0%Z ->
               ~ lex_lt [0; 3; 2; 1]%Z w.
Proof.
  pose proof (@X22_perm_false [0; 3; 2; 1]%Z [0; 3; 2; 1]%Z false
                              ltac:(vm_compute; reflexivity)) as [Hiff Hmax].
  split.
  - apply Hiff. reflexivity.
  - apply Hmax. reflexivity.
Defined.

(** X23. When [perm] returns true, the slice holds the next permutation: a
    rearrangement of the old entries with the same first entry, later than
    the old content in lexicographic order, and the earliest such
    rearrangement. *)
Theorem X23_perm_next (data data' : list Z) :
  perm data = Ok (true, data') ->
  Permutation data data'
  /\ lex_lt data data'
  /\ nth 0 data' 0%Z = nth 0 data 0%Z
  /\ forall w, Permutation data w -> lex_lt data w ->
               data' = w \/ lex_lt data' w.
Proof.
  intros Hrun.
  destruct (perm_cases data)
    as [[Hno Hp]
       | [(a & c & t & Hdata & Hab & Hd & Hp)
         | (pre & a & t1 & c & t2 & Hdata & Hpre & Hab & Hd & Ht2 & Hp)]];
    rewrite Hp in Hrun; try discriminate.
  injection Hrun as <-. subst data.
  apply (@perm_true_facts pre a t1 _ t2 Hpre Hab Hd Ht2).
Qed.

Lemma X23_witness :
  Permutation [0; 1; 3; 2]%Z [0; 2; 1; 3]%Z
  /\ lex_lt [0; 1; 3; 2]%Z [0; 2; 1; 3]%Z
  /\ nth 0 [0; 2; 1; 3]%Z 0%Z = nth 0 [0; 1; 3; 2]%Z 0%Z
  /\ forall w, Permutation [0; 1; 3; 2]%Z w -> lex_lt [0; 1; 3; 2]%Z w ->
               [0; 2; 1; 3]%Z = w \/ lex_lt [0; 2; 1; 3]%Z w.
Proof.
  apply (@X23_perm_next [0; 1; 3; 2]%Z [0; 2; 1; 3]%Z).
  vm_compute. reflexivity.
Defined.

End PermFacts.
